(** * check-windows-eventlog: a shallow embedding and its properties

    The development follows [check-windows-eventlog.go]: the option
    parsing helpers ([stringList], [idRangeList], [prepare]), the state
    file helpers ([getLastOffset], [writeLastOffset]), the message lookup
    ([bytesToString], [getResourceMessage]), the scan of one log
    ([searchLog]) and the aggregation ([run]).

    Go integers are [Z] with the wrap-around of their width written out,
    Go strings are byte strings ([string]), and every call that leaves the
    program (file system, event log API, registry, regexp, flags) is a
    field of an explicit environment record, so that the functions stay
    executable. *)

From Stdlib Require Import ZArith Lia Ascii String.
From stdpp Require Import base option list strings gmap.

Local Open Scope Z_scope.

(** ** Machine integers *)

Module Int.

Definition uint16 (z : Z) : Z := z mod 2 ^ 16.
Definition uint32 (z : Z) : Z := z mod 2 ^ 32.
Definition int64 (z : Z) : Z := (z + 2 ^ 63) mod 2 ^ 64 - 2 ^ 63.

Definition maxUint32 : Z := 2 ^ 32 - 1.
Definition maxUint64 : Z := 2 ^ 64 - 1.
Definition minInt64 : Z := - 2 ^ 63.
Definition maxInt64 : Z := 2 ^ 63 - 1.

Definition is_uint32 (z : Z) : Prop := 0 <= z <= maxUint32.
Definition is_int64 (z : Z) : Prop := minInt64 <= z <= maxInt64.

End Int.

(** ** Errors and outcomes

    The error values the program tests or forwards. [Errno] is
    [syscall.Errno]; [PathError] is the [*os.PathError] of a file
    operation with the system error below it; [NumError] is
    [*strconv.NumError]; [Errorf] and [Errorf_v] are errors made by
    [fmt.Errorf], kept as the format and the [%v] argument; [LibError] is
    an error of a library call whose text the program only forwards
    (regexp, registry, flags). *)

Inductive NumErr : Type := ErrSyntax | ErrRange.

Inductive error : Type :=
| Errno (code : Z)
| PathError (op path : string) (code : Z)
| NumError (fn num : string) (kind : NumErr)
| Errorf (format : string)
| Errorf_v (format : string) (arg : error)
| LibError (msg : string).

Inductive result (A : Type) : Type :=
| Ok (a : A)
| Err (e : error).
Arguments Ok {A} a.
Arguments Err {A} e.

Definition ERROR_FILE_NOT_FOUND : Z := 2.
Definition ERROR_PATH_NOT_FOUND : Z := 3.
Definition ERROR_BAD_NETPATH : Z := 53.
Definition ERROR_INSUFFICIENT_BUFFER : Z := 122.
Definition errorInvalidParameter : Z := 87.

(** [err == syscall.Errno(code)]. *)
Definition is_errno (e : error) (code : Z) : bool :=
  match e with
  | Errno c => c =? code
  | _ => false
  end.

(** [os.IsNotExist] on Windows. *)
Definition IsNotExist (e : error) : bool :=
  match e with
  | PathError _ _ c | Errno c =>
      (c =? ERROR_FILE_NOT_FOUND) || (c =? ERROR_BAD_NETPATH)
      || (c =? ERROR_PATH_NOT_FOUND)
  | _ => false
  end.

(** How a function call ends: it returns, the process exits
    ([os.Exit], [log.Fatal]), or a run-time panic unwinds it. *)
Inductive outcome (A : Type) : Type :=
| Returns (a : A)
| Exits (code : Z)
| Panics.
Arguments Returns {A} a.
Arguments Exits {A} code.
Arguments Panics {A}.

(** ** Go strings: the functions of [strings], [strconv] and [fmt] in use *)

Module Str.

Definition byte_of (c : ascii) : Z := Z.of_N (N_of_ascii c).
Definition char_of (b : Z) : ascii := ascii_of_N (Z.to_N b).

Fixpoint length (s : string) : Z :=
  match s with
  | EmptyString => 0
  | String _ s' => 1 + length s'
  end.

Definition is_empty (s : string) : bool :=
  match s with EmptyString => true | _ => false end.

Definition eqb (a b : string) : bool := bool_decide (a = b).

Fixpoint HasPrefix (s prefix : string) {struct prefix} : bool :=
  match prefix, s with
  | EmptyString, _ => true
  | String p prefix', String c s' =>
      bool_decide (p = c) && HasPrefix s' prefix'
  | String _ _, EmptyString => false
  end.

(** [s[n:]] for [n <= len(s)]. *)
Fixpoint drop (n : nat) (s : string) : string :=
  match n, s with
  | O, _ => s
  | S k, String _ s' => drop k s'
  | S _, EmptyString => EmptyString
  end.

(** [strings.Split(s, sep)] for a separator of one byte. *)
Fixpoint Split (s : string) (sep : ascii) : list string :=
  match s with
  | EmptyString => [EmptyString]
  | String c s' =>
      if bool_decide (c = sep) then EmptyString :: Split s' sep
      else match Split s' sep with
           | hd :: tl => String c hd :: tl
           | [] => [String c EmptyString]
           end
  end.

Fixpoint Join (l : list string) (sep : string) : string :=
  match l with
  | [] => EmptyString
  | [a] => a
  | a :: l' => a +:+ sep +:+ Join l' sep
  end.

(** [strings.Replace(s, old, new, -1)] for an [old] of one byte. *)
Fixpoint Replace (s : string) (old : ascii) (new : string) : string :=
  match s with
  | EmptyString => EmptyString
  | String c s' =>
      if bool_decide (c = old) then new +:+ Replace s' old new
      else String c (Replace s' old new)
  end.

Definition TrimSuffix (s suffix : string) : string :=
  if HasPrefix (String.rev s) (String.rev suffix)
  then String.rev (drop (Z.to_nat (length suffix)) (String.rev s))
  else s.

Fixpoint mem (c : ascii) (cutset : string) : bool :=
  match cutset with
  | EmptyString => false
  | String d cutset' => bool_decide (c = d) || mem c cutset'
  end.

Fixpoint TrimLeft (s cutset : string) : string :=
  match s with
  | EmptyString => EmptyString
  | String c s' => if mem c cutset then TrimLeft s' cutset else s
  end.

Definition TrimRight (s cutset : string) : string :=
  String.rev (TrimLeft (String.rev s) cutset).

(** [strings.Trim(s, cutset)] for a cutset of ASCII bytes. *)
Definition Trim (s cutset : string) : string :=
  TrimRight (TrimLeft s cutset) cutset.

(** The UTF-8 encodings of the code points for which [unicode.IsSpace]
    holds: the six ASCII ones, U+0085, U+00A0, U+1680, U+2000 to U+200A,
    U+2028, U+2029, U+202F, U+205F and U+3000. *)
Definition bytes (l : list Z) : string :=
  string_of_list_ascii (map char_of l).

Definition spaces : list string :=
  map bytes
    ([ [9]; [10]; [11]; [12]; [13]; [32];
       [194; 133]; [194; 160]; [225; 154; 128] ]
     ++ map (fun k => [226; 128; 128 + k]) [0; 1; 2; 3; 4; 5; 6; 7; 8; 9; 10]
     ++ [ [226; 128; 168]; [226; 128; 169]; [226; 128; 175];
          [226; 129; 159]; [227; 128; 128] ]).

(** The first space encoding that starts [s], with it removed. *)
Fixpoint strip_one (sps : list string) (s : string) : option string :=
  match sps with
  | [] => None
  | sp :: sps' =>
      if HasPrefix s sp then Some (drop (Z.to_nat (length sp)) s)
      else strip_one sps' s
  end.

Fixpoint TrimSpaceLeft (fuel : nat) (sps : list string) (s : string)
  : string :=
  match fuel with
  | O => s
  | S k => match strip_one sps s with
           | Some s' => TrimSpaceLeft k sps s'
           | None => s
           end
  end.

(** [strings.TrimSpace]: leading and trailing white space, as Unicode
    defines it, is removed. Seen from the end, a space is the reversal of
    its encoding. *)
Definition TrimSpace (s : string) : string :=
  let n := Z.to_nat (length s) in
  let s1 := TrimSpaceLeft n spaces s in
  String.rev (TrimSpaceLeft n (map String.rev spaces) (String.rev s1)).

(** Decimal digits. *)
Definition is_digit (c : ascii) : bool :=
  (48 <=? byte_of c) && (byte_of c <=? 57).

Definition digit_val (c : ascii) : option Z :=
  if is_digit c then Some (byte_of c - 48) else None.

Definition digit_char (d : Z) : ascii := char_of (48 + d).

(** [strconv.ParseUint(s, 10, bitSize)]: the digit loop with its two
    overflow tests. *)
Definition cutoff10 : Z := Int.maxUint64 / 10 + 1.

Fixpoint ParseUint_loop (maxVal : Z) (s : string) (n : Z) : NumErr + Z :=
  match s with
  | EmptyString => inr n
  | String c s' =>
      match digit_val c with
      | None => inl ErrSyntax
      | Some d =>
          if cutoff10 <=? n then inl ErrRange
          else
            let n1 := n * 10 + d in
            if (Int.maxUint64 <? n1) || (maxVal <? n1) then inl ErrRange
            else ParseUint_loop maxVal s' n1
      end
  end.

Definition ParseUint (s : string) (bitSize : Z) : result Z :=
  if is_empty s then Err (NumError "ParseUint" s ErrSyntax)
  else match ParseUint_loop (2 ^ bitSize - 1) s 0 with
       | inr n => Ok n
       | inl k => Err (NumError "ParseUint" s k)
       end.

(** [strconv.ParseInt(s, 10, bitSize)]. *)
Definition ParseInt (s : string) (bitSize : Z) : result Z :=
  match s with
  | EmptyString => Err (NumError "ParseInt" s ErrSyntax)
  | String c s' =>
      let neg := bool_decide (c = "-"%char) in
      let body :=
        if bool_decide (c = "+"%char) || neg then s' else s in
      let cutoff := 2 ^ (bitSize - 1) in
      let finish (un : Z) :=
        if negb neg && (cutoff <=? un)
        then Err (NumError "ParseInt" s ErrRange)
        else if neg && (cutoff <? un)
        then Err (NumError "ParseInt" s ErrRange)
        else Ok (if neg then - un else un) in
      if is_empty body then Err (NumError "ParseInt" s ErrSyntax)
      else match ParseUint_loop (2 ^ bitSize - 1) body 0 with
           | inl ErrSyntax => Err (NumError "ParseInt" s ErrSyntax)
           | inl ErrRange => finish (2 ^ bitSize - 1)
           | inr un => finish un
           end
  end.

(** [fmt.Sprintf("%d", n)]. *)
Fixpoint utoa (fuel : nat) (n : Z) (acc : string) : string :=
  match fuel with
  | O => acc
  | S k =>
      if n <? 10 then String (digit_char n) acc
      else utoa k (n / 10) (String (digit_char (n mod 10)) acc)
  end.

Definition FormatUint (n : Z) : string :=
  utoa (S (Z.to_nat (Z.log2 n))) n EmptyString.

Definition FormatInt (n : Z) : string :=
  if n <? 0 then String "-"%char (FormatUint (- n)) else FormatUint n.

End Str.

(** ** Options

    [logOpts] with the fields of the source; a compiled [*regexp.Regexp]
    is its [MatchString], and a nil slice or pointer is [None]. *)

Record Regexp : Type := { MatchString : string -> bool }.

Record idRange : Type := { hi : Z; lo : Z; bang : bool }.

Module Opts.
Record logOpts : Type := {
  Log : string;
  Type_ : string;
  SourcePattern : string;
  SourceExclude : string;
  MessagePattern : string;
  MessageExclude : string;
  EventID : string;
  WarnOver : Z;
  CritOver : Z;
  ReturnContent : bool;
  StateDir : string;
  NoState : bool;
  FailFirst : bool;
  Verbose : bool;

  logList : list string;
  typeList : list string;
  idRangeList : option (list idRange);
  sourcePattern : option Regexp;
  sourceExclude : option Regexp;
  messagePattern : option Regexp;
  messageExclude : option Regexp;
  origArgs : list string
}.
End Opts.
Abbreviation logOpts := Opts.logOpts.

Definition stringList (s : string) : list string :=
  let l := Str.Split s ","%char in
  match l with
  | [] => []
  | l0 :: _ => if Str.is_empty l0 then [] else l
  end.

(** [rid1 = ^([0-9]+)$] and [rid2 = ^([0-9]+)-([0-9]+)$]: the groups of
    the first match of [FindAllStringSubmatch], when there is one. *)
Fixpoint all_digits (s : string) : bool :=
  match s with
  | EmptyString => true
  | String c s' => Str.is_digit c && all_digits s'
  end.

Fixpoint span_digits (s : string) : string * string :=
  match s with
  | EmptyString => (EmptyString, EmptyString)
  | String c s' =>
      if Str.is_digit c
      then let '(a, b) := span_digits s' in (String c a, b)
      else (EmptyString, s)
  end.

Definition rid1 (t : string) : option string :=
  if negb (Str.is_empty t) && all_digits t then Some t else None.

Definition rid2 (t : string) : option (string * string) :=
  let '(a, rest) := span_digits t in
  match rest with
  | String sep b =>
      if bool_decide (sep = "-"%char) && negb (Str.is_empty a)
         && negb (Str.is_empty b) && all_digits b
      then Some (a, b) else None
  | EmptyString => None
  end.

(** The body of the [for] loop of [idRangeList], on the tokens left. *)
Fixpoint idRangeList_loop (tokens : list string) (idrl : list idRange)
  : result (list idRange) :=
  match tokens with
  | [] => Ok idrl
  | t :: tokens' =>
      let t := Str.TrimSpace t in
      let bang := Str.HasPrefix t "!" in
      let t := if bang then Str.drop 1 t else t in
      let append id1 id2 :=
        idRangeList_loop tokens'
          (idrl ++ [{| lo := Int.uint32 id1; hi := Int.uint32 id2;
                       bang := bang |}]) in
      match rid1 t with
      | Some m1 =>
          match Str.ParseUint m1 32 with
          | Err e => Err (Errorf_v "invalid id list: %v" e)
          | Ok id1 => append id1 id1
          end
      | None =>
          match rid2 t with
          | Some (m21, m22) =>
              match Str.ParseUint m21 32 with
              | Err e => Err (Errorf_v "invalid id list: %v" e)
              | Ok id1 =>
                  match Str.ParseUint m22 32 with
                  | Err e => Err (Errorf_v "invalid id list: %v" e)
                  | Ok id2 =>
                      if id2 <? id1 then append id2 id1 else append id1 id2
                  end
              end
          | None => Err (Errorf "invalid id list")
          end
      end
  end.

Definition idRangeList (s : string) : result (list idRange) :=
  idRangeList_loop (Str.Split s ","%char) [].

(** ** The ID filter of [searchLog]

    One turn of the loop over [opts.idRangeList], on the pair
    [(found, exact)]. *)
Definition idRange_step (eventID : Z) (st : bool * bool) (idr : idRange)
  : bool * bool :=
  let '(found, exact) := st in
  if negb (bang idr) then
    let exact := true in
    if (lo idr <=? eventID) && (eventID <=? hi idr)
    then (true, exact) else (found, exact)
  else
    if (lo idr <=? eventID) && (eventID <=? hi idr) then (false, exact)
    else if negb exact then (true, exact)
    else (found, exact).

Definition idRange_found (idrl : list idRange) (eventID : Z) : bool :=
  fst (fold_left (idRange_step eventID) idrl (false, false)).

(** [r.EventID & 0x0000FFFF], then the loop; without a list every record
    passes. *)
Definition passes_idRangeList (idrl : option (list idRange)) (eventID : Z)
  : bool :=
  match idrl with
  | None => true
  | Some l => idRange_found l (Z.land eventID 65535)
  end.

(** The evaluation as the specification words it, as a relation: from
    [found] and [sawPositiveRange], over the ranges left, to the final
    [found]. *)
Inductive IdEval (id : Z) : bool -> bool -> list idRange -> bool -> Prop :=
| IdEval_end found saw :
    IdEval id found saw [] found
| IdEval_pos_in found saw r rs res :
    bang r = false -> lo r <= id <= hi r ->
    IdEval id true true rs res ->
    IdEval id found saw (r :: rs) res
| IdEval_pos_out found saw r rs res :
    bang r = false -> ~ (lo r <= id <= hi r) ->
    IdEval id found true rs res ->
    IdEval id found saw (r :: rs) res
| IdEval_neg_in found saw r rs res :
    bang r = true -> lo r <= id <= hi r ->
    IdEval id false saw rs res ->
    IdEval id found saw (r :: rs) res
| IdEval_neg_out_first found r rs res :
    bang r = true -> ~ (lo r <= id <= hi r) ->
    IdEval id true false rs res ->
    IdEval id found false (r :: rs) res
| IdEval_neg_out_later found r rs res :
    bang r = true -> ~ (lo r <= id <= hi r) ->
    IdEval id found true rs res ->
    IdEval id found true (r :: rs) res.

(** ** The environment

    What the operating system and the libraries answer. The event log API
    is the repository's [internal/eventlog] package over [advapi32]; its
    calls, and those of [registry], [regexp], [flags], [md5] and
    [filepath], are fields here. *)

(** A record as [searchLog] sees it after [ReadEventLog] filled [buf]:
    the header fields it uses, and the strings that follow the header. *)
Record EVENTLOGRECORD : Type := {
  RecordNumber : Z;
  TimeGenerated : Z;
  TimeWritten : Z;
  EventID : Z;
  EventType : Z;
  NumStrings : Z;
  sourceName : string;
  computerName : string;
  insertStrings : list string
}.

Inductive ReadFlags : Type :=
| SEEK_READ          (* EVENTLOG_FORWARDS_READ | EVENTLOG_SEEK_READ *)
| SEQUENTIAL_READ.   (* EVENTLOG_FORWARDS_READ | EVENTLOG_SEQUENTIAL_READ *)

(** One call of [ReadEventLog]: it fills the buffer with a record, or
    fails and leaves a value in [nextSize]. *)
Inductive ReadResult : Type :=
| ReadOk (r : EVENTLOGRECORD)
| ReadFail (err : error) (nextSize : Z).

(** A call made: its arguments, and whether it is the second call site,
    the one that reads again after the buffer was enlarged. *)
Record ReadCall : Type := {
  call_flags : ReadFlags;
  call_offset : Z;
  call_size : Z;
  call_again : bool
}.

Record OS : Type := {
  (* file system: faults of the four calls, by path *)
  Stat_fault : string -> option error;
  ReadFile_fault : string -> option error;
  MkdirAll_fault : string -> option error;
  WriteFile_fault : string -> option error;
  (* event log; [ReadEventLog] may answer differently from call to call,
     so it also gets the number of calls made before *)
  OpenEventLog : string -> result Z;
  GetNumberOfEventLogRecords : Z -> result Z;
  GetOldestEventLogRecord : Z -> result Z;
  ReadEventLog : nat -> Z -> ReadFlags -> Z -> Z -> ReadResult;
  EventType_String : Z -> string;
  (* message resources *)
  registry_OpenKey : string -> result Z;
  GetStringValue : Z -> string -> result string;
  ExpandString : string -> result string;
  LoadLibraryEx : string -> result Z;
  FormatMessage : Z -> Z -> list string -> result (list Z);
  (* libraries *)
  regexp_Compile : string -> result Regexp;
  flags_ParseArgs : list string -> logOpts * option error;
  Getenv : string -> string;
  TempDir : string;
  md5_hex : string -> string;
  filepath_Join : string -> string -> string;
  filepath_Dir : string -> string
}.

(** A line written with the [log] package. *)
Inductive LogLine : Type :=
| LogFatal (e : error)
| LogReadEventLog (e : error)
| LogWriteLastOffset (e : error)
| LogVerboseZ (field : string) (v : Z)
| LogVerboseS (field : string) (v : string).

(** What a run changes: the files, the lines logged and the calls of
    [ReadEventLog] made, latest first. *)
Record State : Type := {
  files : gmap string string;
  logged : list LogLine;
  reads : list ReadCall
}.

Definition set_files (f : gmap string string) (st : State) : State :=
  {| files := f; logged := logged st; reads := reads st |}.
Definition log_Print (l : LogLine) (st : State) : State :=
  {| files := files st; logged := l :: logged st; reads := reads st |}.
Definition count_read (c : ReadCall) (st : State) : State :=
  {| files := files st; logged := logged st; reads := c :: reads st |}.

(** ** The state file *)

Definition os_Stat (os : OS) (fs : gmap string string) (f : string)
  : option error :=
  match Stat_fault os f with
  | Some e => Some e
  | None =>
      match fs !! f with
      | Some _ => None
      | None => Some (PathError "CreateFile" f ERROR_FILE_NOT_FOUND)
      end
  end.

Definition ioutil_ReadFile (os : OS) (fs : gmap string string) (f : string)
  : result string :=
  match ReadFile_fault os f with
  | Some e => Err e
  | None =>
      match fs !! f with
      | Some b => Ok b
      | None => Err (PathError "open" f ERROR_FILE_NOT_FOUND)
      end
  end.

Definition ioutil_WriteFile (os : OS) (fs : gmap string string)
    (f data : string) : gmap string string * option error :=
  match WriteFile_fault os f with
  | Some e => (fs, Some e)
  | None => (<[f := data]> fs, None)
  end.

Definition getLastOffset (os : OS) (fs : gmap string string) (f : string)
  : Z * option error :=
  match os_Stat os fs f with
  | Some err => (0, Some err)
  | None =>
      match ioutil_ReadFile os fs f with
      | Err err => (0, Some err)
      | Ok b =>
          match Str.ParseInt (Str.Trim b (Str.bytes [32; 13; 10])) 64 with
          | Err err => (0, Some err)
          | Ok i => (i, None)
          end
      end
  end.

Definition writeLastOffset (os : OS) (fs : gmap string string) (f : string)
    (num : Z) : gmap string string * option error :=
  match MkdirAll_fault os (filepath_Dir os f) with
  | Some err => (fs, Some err)
  | None => ioutil_WriteFile os fs f (Str.FormatInt num)
  end.

(** [stateRe = ^([A-Z]):[/\\]], replaced by [$1] and the path separator. *)
Definition stateRe_ReplaceAllString (logName : string) : string :=
  match logName with
  | String c (String colon (String sep rest)) =>
      if (65 <=? Str.byte_of c) && (Str.byte_of c <=? 90)
         && bool_decide (colon = ":"%char)
         && (bool_decide (sep = "/"%char) || bool_decide (sep = "\"%char))
      then String c (String "\"%char rest)
      else logName
  | _ => logName
  end.

Definition getStateFile (os : OS) (opts : logOpts) (logName : string)
  : string :=
  filepath_Join os (Opts.StateDir opts)
    (stateRe_ReplaceAllString logName +:+ "-"
     +:+ md5_hex os (Str.Join (Opts.origArgs opts) " ")).

(** ** Message lookup *)

Fixpoint units16 (b : list Z) : list Z :=
  match b with
  | b0 :: b1 :: b' => Int.uint16 (b0 + Int.uint16 (b1 * 256)) :: units16 b'
  | _ => []
  end.

Fixpoint utf16_Decode (s : list Z) : list Z :=
  match s with
  | [] => []
  | r :: s' =>
      if (r <? 55296) || (57344 <=? r) then r :: utf16_Decode s'
      else
        match s' with
        | r2 :: s'' =>
            if (r <? 56320) && (56320 <=? r2) && (r2 <? 57344)
            then ((r - 55296) * 1024 + (r2 - 56320) + 65536)
                   :: utf16_Decode s''
            else 65533 :: utf16_Decode s'
        | [] => [65533]
        end
  end.

(** [string(runes)]: the UTF-8 encoding, U+FFFD for what is no code
    point. *)
Definition utf8_rune (r : Z) : list Z :=
  if (r <? 0) || (1114111 <? r) || ((55296 <=? r) && (r <? 57344))
  then [239; 191; 189]
  else if r <? 128 then [r]
  else if r <? 2048 then [192 + r / 64; 128 + r mod 64]
  else if r <? 65536
  then [224 + r / 4096; 128 + (r / 64) mod 64; 128 + r mod 64]
  else [240 + r / 262144; 128 + (r / 4096) mod 64;
        128 + (r / 64) mod 64; 128 + r mod 64].

Fixpoint index_nul (s : list Z) : option nat :=
  match s with
  | [] => None
  | u :: s' => if u =? 0 then Some O else S <$> index_nul s'
  end.

(** The loop variable [i] keeps its last value when the loop ends: the
    place of the first zero unit, or the last index when there is none. *)
Definition bytesToString (b : list Z) : string * Z :=
  let s := units16 b in
  let '(s, i) :=
    match index_nul s with
    | Some i => (take i s, Z.of_nat i)
    | None => (s, Z.max 0 (Z.of_nat (List.length s) - 1))
    end in
  (Str.bytes (concat (map utf8_rune (utf16_Decode s))),
   Int.uint32 (i * 2)).

Definition getResourceMessage (os : OS) (providerName sourceName : string)
    (eventID : Z) (args : list string) : string * option error :=
  let regkey :=
    "SYSTEM\CurrentControlSet\Services\EventLog\" +:+ providerName
    +:+ "\" +:+ sourceName in
  match registry_OpenKey os regkey with
  | Err err => (EmptyString, Some err)
  | Ok key =>
  match GetStringValue os key "EventMessageFile" with
  | Err err => (EmptyString, Some err)
  | Ok val =>
  match ExpandString os val with
  | Err err => (EmptyString, Some err)
  | Ok val =>
  match LoadLibraryEx os val with
  | Err err => (EmptyString, Some err)
  | Ok handle =>
  match FormatMessage os handle eventID args with
  | Err err => (EmptyString, Some err)
  | Ok msgbuf =>
      let message := fst (bytesToString msgbuf) in
      let message := Str.Replace message (Str.char_of 13) EmptyString in
      let message := Str.TrimSuffix message (Str.bytes [10]) in
      (message, None)
  end end end end end.

(** ** The scan of one log *)

(** The variables of [searchLog] that the loop over the records
    updates. *)
Record Scan : Type := {
  warnNum : Z;
  critNum : Z;
  errLines : string;
  lastNumber : Z;
  size : Z
}.

Definition verbose (opts : logOpts) (l : LogLine) (st : State) : State :=
  if Opts.Verbose opts then log_Print l st else st.

Definition noResource : string :=
  "[mackerel-agent] No message resource found. Please make sure the event log occured on the server.".

Definition in_typeList (typeList : list string) (tn : string) : bool :=
  existsb (fun typ => Str.eqb typ tn) typeList.

(** What is added to [errLines] for a record that passed the filters. *)
Definition contentLine (sourceName message : string) : string :=
  let message := if Str.is_empty message then noResource else message in
  sourceName +:+ ":" +:+ Str.Replace message (Str.char_of 10) EmptyString
  +:+ Str.bytes [10].

Definition tally (tn : string) (sc : Scan) (errLines' : string) : Scan :=
  {| warnNum := if Str.eqb tn "Warning"
                then Int.int64 (warnNum sc + 1) else warnNum sc;
     critNum := if Str.eqb tn "Error" || Str.eqb tn "Audit Failure"
                then Int.int64 (critNum sc + 1) else critNum sc;
     errLines := errLines';
     lastNumber := lastNumber sc;
     size := size sc |}.

Definition set_lastNumber (n : Z) (sc : Scan) : Scan :=
  {| warnNum := warnNum sc; critNum := critNum sc; errLines := errLines sc;
     lastNumber := n; size := size sc |}.

(** The loop body from the decoding of the record on; every way out of
    it is a [continue]. *)
Definition process_record (os : OS) (opts : logOpts) (logName : string)
    (r : EVENTLOGRECORD) (sc : Scan) (st : State) : Scan * State :=
  let st := verbose opts (LogVerboseZ "RecordNumber" (RecordNumber r)) st in
  let st := verbose opts (LogVerboseZ "TimeGenerated" (TimeGenerated r)) st in
  let st := verbose opts (LogVerboseZ "TimeWritten" (TimeWritten r)) st in
  let st := verbose opts (LogVerboseZ "EventID" (EventID r)) st in
  let sc := set_lastNumber (Int.uint32 (RecordNumber r)) sc in
  if negb (passes_idRangeList (Opts.idRangeList opts) (EventID r))
  then (sc, st) else
  let tn := EventType_String os (EventType r) in
  let st := verbose opts (LogVerboseS "EventType" tn) st in
  if match Opts.typeList opts with
     | [] => false
     | _ :: _ => negb (in_typeList (Opts.typeList opts) tn)
     end
  then (sc, st) else
  let st := verbose opts (LogVerboseS "SourceName" (sourceName r)) st in
  let st := verbose opts (LogVerboseS "ComputerName" (computerName r)) st in
  if match Opts.sourcePattern opts with
     | Some re => negb (MatchString re (sourceName r))
     | None => false
     end
  then (sc, st) else
  if match Opts.sourceExclude opts with
     | Some re => MatchString re (sourceName r)
     | None => false
     end
  then (sc, st) else
  let message :=
    fst (getResourceMessage os logName (sourceName r) (EventID r)
           (insertStrings r)) in
  let st := verbose opts (LogVerboseS "Message" message) st in
  if match Opts.messagePattern opts with
     | Some re => negb (MatchString re message)
     | None => false
     end
  then (sc, st) else
  if match Opts.messageExclude opts with
     | Some re => MatchString re message
     | None => false
     end
  then (sc, st) else
  let errLines' :=
    if Opts.ReturnContent opts
    then errLines sc +:+ contentLine (sourceName r) message
    else errLines sc in
  (tally tn sc errLines', st).

(** How one turn of the loop ends. *)
Inductive Step : Type :=
| Continue (sc : Scan) (st : State)
| Break (sc : Scan) (st : State)
| Return (err : error) (st : State)
| Panic (st : State).

Definition set_size (n : Z) (sc : Scan) : Scan :=
  {| warnNum := warnNum sc; critNum := critNum sc; errLines := errLines sc;
     lastNumber := lastNumber sc; size := n |}.

Definition call_ReadEventLog (os : OS) (h : Z) (flags : ReadFlags)
    (i sz : Z) (again : bool) (st : State) : ReadResult * State :=
  (ReadEventLog os (List.length (reads st)) h flags i sz,
   count_read {| call_flags := flags; call_offset := i; call_size := sz;
                 call_again := again |} st).

(** The loop body: the read, the second read into a buffer of
    [nextSize] bytes ([&buf[0]] panics on an empty one), then the
    record. *)
Definition loop_body (os : OS) (opts : logOpts) (logName : string) (h : Z)
    (i : Z) (sc : Scan) (st : State) : Step :=
  let flags := if i =? 0 then SEQUENTIAL_READ else SEEK_READ in
  match call_ReadEventLog os h flags i (size sc) false st with
  | (ReadOk r, st) =>
      let '(sc, st) := process_record os opts logName r sc st in
      Continue sc st
  | (ReadFail err nextSize, st) =>
      if negb (is_errno err ERROR_INSUFFICIENT_BUFFER) then
        if negb (is_errno err errorInvalidParameter) then Return err st
        else Break sc st
      else
        let nextSize := Int.uint32 nextSize in
        let sc := set_size nextSize sc in
        if nextSize =? 0 then Panic st else
        match call_ReadEventLog os h flags i nextSize true st with
        | (ReadOk r, st) =>
            let '(sc, st) := process_record os opts logName r sc st in
            Continue sc st
        | (ReadFail err _, st) =>
            Break sc (log_Print (LogReadEventLog err) st)
        end
  end.

Inductive LoopEnd : Type :=
| LoopDone (sc : Scan) (st : State)
| LoopReturn (err : error) (st : State)
| LoopPanic (st : State).

(** [for i := recordNumber; i < oldnum+num; i++], with [n] turns left. *)
Fixpoint loop_events (os : OS) (opts : logOpts) (logName : string) (h : Z)
    (n : nat) (i : Z) (sc : Scan) (st : State) : LoopEnd :=
  match n with
  | O => LoopDone sc st
  | S n' =>
      match loop_body os opts logName h i sc st with
      | Continue sc st => loop_events os opts logName h n' (i + 1) sc st
      | Break sc st => LoopDone sc st
      | Return err st => LoopReturn err st
      | Panic st => LoopPanic st
      end
  end.

(** [num] and [oldnum] after the two calls of [searchLog]. *)
Definition reported_num (os : OS) (h : Z) : Z :=
  match GetNumberOfEventLogRecords os h with
  | Ok n => Int.uint32 n
  | Err _ => 0
  end.

Definition reported_oldnum (os : OS) (h : Z) : Z :=
  match GetOldestEventLogRecord os h with
  | Ok n => Int.uint32 n
  | Err _ => 0
  end.

Definition SearchResult : Type := Z * Z * string * option error.

(** The state read at the start: the error to return, or
    [recordNumber]. *)
Definition load_recordNumber (os : OS) (opts : logOpts) (st : State)
    (stateFile : string) : error + Z :=
  if negb (Opts.NoState opts) then
    match getLastOffset os (files st) stateFile with
    | (s, Some err) =>
        if negb (IsNotExist err) then inl err else inr (Int.uint32 s)
    | (s, None) => inr (Int.uint32 s)
    end
  else inr 0.

(** The end of [searchLog], after the loop. *)
Definition finish_scan (os : OS) (opts : logOpts) (stateFile : string)
    (recordNumber : Z) (sc : Scan) (st : State) : outcome SearchResult * State :=
  let st :=
    if negb (Opts.NoState opts) then
      match writeLastOffset os (files st) stateFile
              (Int.int64 (lastNumber sc)) with
      | (fs, Some err) => log_Print (LogWriteLastOffset err) (set_files fs st)
      | (fs, None) => set_files fs st
      end
    else st in
  if (recordNumber =? 0) && negb (Opts.FailFirst opts)
  then (Returns (0, 0, EmptyString, None), st)
  else (Returns (warnNum sc, critNum sc, errLines sc, None), st).

Definition searchLog (os : OS) (opts : logOpts) (logName : string)
    (st : State) : outcome SearchResult * State :=
  let stateFile := getStateFile os opts logName in
  match load_recordNumber os opts st stateFile with
  | inl err => (Returns (0, 0, EmptyString, Some err), st)
  | inr recordNumber =>
  match OpenEventLog os logName with
  | Err err => (Exits 1, log_Print (LogFatal err) st)
  | Ok h =>
      (* the results of the two calls are dropped; [err] is still nil *)
      let num := reported_num os h in
      let oldnum := reported_oldnum os h in
      if (recordNumber =? 0) && negb (Opts.NoState opts)
         && negb (Opts.FailFirst opts)
      then
        let '(fs, err) :=
          writeLastOffset os (files st) stateFile
            (Int.int64 (Int.uint32 (oldnum + num - 1))) in
        (Returns (0, 0, EmptyString, err), set_files fs st)
      else if (oldnum <=? recordNumber)
              && (recordNumber =? Int.uint32 (oldnum + num - 1))
      then (Returns (0, 0, EmptyString, None), st)
      else
        let lastNumber0 := if oldnum <=? recordNumber then recordNumber else 0 in
        let recordNumber :=
          if oldnum <=? recordNumber then Int.uint32 (recordNumber + 1)
          else oldnum in
        let sc := {| warnNum := 0; critNum := 0; errLines := EmptyString;
                     lastNumber := lastNumber0; size := 1 |} in
        match loop_events os opts logName h
                (Z.to_nat (Int.uint32 (oldnum + num) - recordNumber))
                recordNumber sc st with
        | LoopReturn err st => (Returns (0, 0, EmptyString, Some err), st)
        | LoopPanic st => (Panics, st)
        | LoopDone sc st => finish_scan os opts stateFile recordNumber sc st
        end
  end
  end.

(** ** Options, prepared *)

Definition set_lists (opts : logOpts) (logList typeList : list string)
  : logOpts :=
  {| Opts.Log := Opts.Log opts; Opts.Type_ := Opts.Type_ opts;
     Opts.SourcePattern := Opts.SourcePattern opts;
     Opts.SourceExclude := Opts.SourceExclude opts;
     Opts.MessagePattern := Opts.MessagePattern opts;
     Opts.MessageExclude := Opts.MessageExclude opts;
     Opts.EventID := Opts.EventID opts;
     Opts.WarnOver := Opts.WarnOver opts; Opts.CritOver := Opts.CritOver opts;
     Opts.ReturnContent := Opts.ReturnContent opts;
     Opts.StateDir := Opts.StateDir opts; Opts.NoState := Opts.NoState opts;
     Opts.FailFirst := Opts.FailFirst opts; Opts.Verbose := Opts.Verbose opts;
     Opts.logList := logList; Opts.typeList := typeList;
     Opts.idRangeList := Opts.idRangeList opts;
     Opts.sourcePattern := Opts.sourcePattern opts;
     Opts.sourceExclude := Opts.sourceExclude opts;
     Opts.messagePattern := Opts.messagePattern opts;
     Opts.messageExclude := Opts.messageExclude opts;
     Opts.origArgs := Opts.origArgs opts |}.

Definition set_compiled (opts : logOpts) (idrl : option (list idRange))
    (sp se mp me : option Regexp) : logOpts :=
  {| Opts.Log := Opts.Log opts; Opts.Type_ := Opts.Type_ opts;
     Opts.SourcePattern := Opts.SourcePattern opts;
     Opts.SourceExclude := Opts.SourceExclude opts;
     Opts.MessagePattern := Opts.MessagePattern opts;
     Opts.MessageExclude := Opts.MessageExclude opts;
     Opts.EventID := Opts.EventID opts;
     Opts.WarnOver := Opts.WarnOver opts; Opts.CritOver := Opts.CritOver opts;
     Opts.ReturnContent := Opts.ReturnContent opts;
     Opts.StateDir := Opts.StateDir opts; Opts.NoState := Opts.NoState opts;
     Opts.FailFirst := Opts.FailFirst opts; Opts.Verbose := Opts.Verbose opts;
     Opts.logList := Opts.logList opts; Opts.typeList := Opts.typeList opts;
     Opts.idRangeList := idrl;
     Opts.sourcePattern := sp; Opts.sourceExclude := se;
     Opts.messagePattern := mp; Opts.messageExclude := me;
     Opts.origArgs := Opts.origArgs opts |}.

Definition set_StateDir_origArgs (opts : logOpts) (dir : string)
    (origArgs : list string) : logOpts :=
  {| Opts.Log := Opts.Log opts; Opts.Type_ := Opts.Type_ opts;
     Opts.SourcePattern := Opts.SourcePattern opts;
     Opts.SourceExclude := Opts.SourceExclude opts;
     Opts.MessagePattern := Opts.MessagePattern opts;
     Opts.MessageExclude := Opts.MessageExclude opts;
     Opts.EventID := Opts.EventID opts;
     Opts.WarnOver := Opts.WarnOver opts; Opts.CritOver := Opts.CritOver opts;
     Opts.ReturnContent := Opts.ReturnContent opts;
     Opts.StateDir := dir; Opts.NoState := Opts.NoState opts;
     Opts.FailFirst := Opts.FailFirst opts; Opts.Verbose := Opts.Verbose opts;
     Opts.logList := Opts.logList opts; Opts.typeList := Opts.typeList opts;
     Opts.idRangeList := Opts.idRangeList opts;
     Opts.sourcePattern := Opts.sourcePattern opts;
     Opts.sourceExclude := Opts.sourceExclude opts;
     Opts.messagePattern := Opts.messagePattern opts;
     Opts.messageExclude := Opts.messageExclude opts;
     Opts.origArgs := origArgs |}.

(** A pattern option: compiled when it is not the empty string. *)
Definition compile_opt (os : OS) (pattern : string) (old : option Regexp)
  : result (option Regexp) :=
  if Str.is_empty pattern then Ok old
  else match regexp_Compile os pattern with
       | Ok re => Ok (Some re)
       | Err err => Err err
       end.

Definition prepare (os : OS) (opts : logOpts) : result logOpts :=
  let logList := stringList (Opts.Log opts) in
  let logList :=
    match logList with
    | [] => ["Application"]
    | l0 :: _ => if Str.is_empty l0 then ["Application"] else logList
    end in
  let opts := set_lists opts logList (stringList (Opts.Type_ opts)) in
  match (if Str.is_empty (Opts.EventID opts)
         then Ok (Opts.idRangeList opts)
         else match idRangeList (Opts.EventID opts) with
              | Ok l => Ok (Some l)
              | Err err => Err err
              end) with
  | Err err => Err err
  | Ok idrl =>
  match compile_opt os (Opts.SourcePattern opts) (Opts.sourcePattern opts) with
  | Err err => Err err
  | Ok sp =>
  match compile_opt os (Opts.SourceExclude opts) (Opts.sourceExclude opts) with
  | Err err => Err err
  | Ok se =>
  match compile_opt os (Opts.MessagePattern opts) (Opts.messagePattern opts) with
  | Err err => Err err
  | Ok mp =>
  match compile_opt os (Opts.MessageExclude opts) (Opts.messageExclude opts) with
  | Err err => Err err
  | Ok me => Ok (set_compiled opts idrl sp se mp me)
  end end end end end.

Definition parseArgs (os : OS) (args : list string) : logOpts * option error :=
  let '(opts, err) := flags_ParseArgs os args in
  let dir :=
    if Str.is_empty (Opts.StateDir opts) then
      let workdir := Getenv os "MACKEREL_PLUGIN_WORKDIR" in
      let workdir := if Str.is_empty workdir then TempDir os else workdir in
      filepath_Join os workdir "check-windows-eventlog"
    else Opts.StateDir opts in
  (set_StateDir_origArgs opts dir args, err).

(** ** The aggregation

    [checkers.Status] and [checkers.Checker]; the message of
    [checkers.Unknown(err.Error())] is kept as the error itself. *)

Inductive Status : Type := OK | WARNING | CRITICAL | UNKNOWN.

Inductive Message : Type :=
| Text (s : string)
| ErrorText (err : error).

Record Checker : Type := {
  Name : string;
  status : Status;
  message : Message
}.

Definition NewChecker (st : Status) (msg : Message) : Checker :=
  {| Name := EmptyString; status := st; message := msg |}.
Definition Unknown (err : error) : Checker := NewChecker UNKNOWN (ErrorText err).

(** The accumulators of the loop of [run] over [opts.logList]. *)
Record Totals : Type := {
  total_warn : Z;
  total_crit : Z;
  errorOverall : string
}.

Inductive RunLoop : Type :=
| RunTotals (t : Totals)
| RunError (err : error)
| RunExits (code : Z)
| RunPanics.

Fixpoint run_logs (os : OS) (opts : logOpts) (logs : list string)
    (t : Totals) (st : State) : RunLoop * State :=
  match logs with
  | [] => (RunTotals t, st)
  | lt :: logs' =>
      match searchLog os opts lt st with
      | (Returns (w, c, errLines, Some err), st) => (RunError err, st)
      | (Returns (w, c, errLines, None), st) =>
          run_logs os opts logs'
            {| total_warn := Int.int64 (total_warn t + w);
               total_crit := Int.int64 (total_crit t + c);
               errorOverall := if Opts.ReturnContent opts
                               then errorOverall t +:+ errLines
                               else errorOverall t |} st
      | (Exits code, st) => (RunExits code, st)
      | (Panics, st) => (RunPanics, st)
      end
  end.

(** Lines 203 to 213 of [run]: the message and the status from the
    totals. *)
Definition checkSt (opts : logOpts) (warnNum critNum : Z) : Status :=
  let checkSt := OK in
  let checkSt := if Opts.WarnOver opts <? warnNum then WARNING else checkSt in
  let checkSt := if Opts.CritOver opts <? critNum then CRITICAL else checkSt in
  checkSt.

Definition summary (t : Totals) : string :=
  let msg := Str.FormatInt (total_warn t) +:+ " warnings, "
             +:+ Str.FormatInt (total_crit t) +:+ " criticals." in
  if Str.is_empty (errorOverall t) then msg
  else msg +:+ Str.bytes [10] +:+ errorOverall t.

Definition run (os : OS) (args : list string) (st : State)
  : outcome Checker * State :=
  match parseArgs os args with
  | (_, Some _) => (Exits 1, st)
  | (opts, None) =>
      match prepare os opts with
      | Err err => (Returns (Unknown err), st)
      | Ok opts =>
          match run_logs os opts (Opts.logList opts)
                  {| total_warn := 0; total_crit := 0;
                     errorOverall := EmptyString |} st with
          | (RunError err, st) => (Returns (Unknown err), st)
          | (RunExits code, st) => (Exits code, st)
          | (RunPanics, st) => (Panics, st)
          | (RunTotals t, st) =>
              (Returns (NewChecker (checkSt opts (total_warn t) (total_crit t))
                          (Text (summary t))), st)
          end
      end
  end.

(** [main]: the checker is named and [Exit] ends the process with the
    code of its status. *)
Definition exit_code (s : Status) : Z :=
  match s with OK => 0 | WARNING => 1 | CRITICAL => 2 | UNKNOWN => 3 end.

Definition main (os : OS) (args : list string) (st : State) : Z * State :=
  match run os args st with
  | (Returns ckr, st) => (exit_code (status ckr), st)
  | (Exits code, st) => (code, st)
  | (Panics, st) => (2, st)
  end.

(** ** What a scan visits

    The record numbers at which the loop body ran, in order: the offsets
    of the calls made at the first call site. *)
Definition visited (st : State) : list Z :=
  rev (map call_offset (filter (fun c => call_again c = false) (reads st))).

Definition step_state (s : Step) : State :=
  match s with
  | Continue _ st | Break _ st | Return _ st | Panic st => st
  end.

Definition end_state (e : LoopEnd) : State :=
  match e with
  | LoopDone _ st | LoopReturn _ st | LoopPanic st => st
  end.

Definition range (a : Z) (n : nat) : list Z :=
  map (fun k => a + Z.of_nat k) (seq 0 n).

(** Every read of a record number from [a] up to [b], [b] excluded,
    gives the record, at once or when read again into the buffer of the
    size reported. *)
Definition reads_succeed (os : OS) (h a b : Z) : Prop :=
  forall (cnt : nat) (fl : ReadFlags) (i sz : Z),
    a <= i < b ->
    match ReadEventLog os cnt h fl i sz with
    | ReadOk _ => True
    | ReadFail err nextSize =>
        is_errno err ERROR_INSUFFICIENT_BUFFER = true
        /\ Int.uint32 nextSize <> 0
        /\ exists r, ReadEventLog os (S cnt) h fl i (Int.uint32 nextSize)
                     = ReadOk r
    end.

(** The records of the log carry the numbers they are read at: a read
    of a record number from [a] up to [b], [b] excluded, that gives a
    record gives one with that [RecordNumber]. *)
Definition records_numbered (os : OS) (h a b : Z) : Prop :=
  forall (cnt : nat) (fl : ReadFlags) (i sz : Z) (r : EVENTLOGRECORD),
    a <= i < b ->
    ReadEventLog os cnt h fl i sz = ReadOk r ->
    Int.uint32 (RecordNumber r) = i.

(** ** The ID-range grammar, in the words of the specification

    A decimal number, a dash-separated pair of decimal numbers, or one of
    those after a [!]. *)
Definition is_decimal (s : string) : Prop :=
  s <> EmptyString
  /\ Forall (fun c => Str.is_digit c = true) (list_ascii_of_string s).

Inductive id_item : string -> Prop :=
| item_number a : is_decimal a -> id_item a
| item_pair a b : is_decimal a -> is_decimal b -> id_item (a +:+ "-" +:+ b).

Inductive id_token : string -> Prop :=
| token_plain t : id_item t -> id_token t
| token_negated t : id_item t -> id_token ("!" +:+ t).

(** ** Ranges as text

    The text of a range as the event-ID option takes it: the number, or
    the two numbers around a dash, after a [!] when the range is negated.
    It is the way back from [idRangeList], to state what the parser reads
    back. *)
Definition idRange_text (r : idRange) : string :=
  (if bang r then "!" else EmptyString)
  +:+ (if lo r =? hi r then Str.FormatUint (lo r)
       else Str.FormatUint (lo r) +:+ "-" +:+ Str.FormatUint (hi r)).

Definition idRange_valid (r : idRange) : Prop :=
  0 <= lo r /\ lo r <= hi r /\ hi r <= Int.maxUint32.

(** ** UTF-16 text

    The little-endian UTF-16 bytes of a text of ASCII characters, as
    FormatMessage leaves them in the buffer: each byte followed by a
    zero byte. It is the way back from [bytesToString], to state what
    that function reads. *)
Definition utf16le (s : string) : list Z :=
  flat_map (fun c => [Str.byte_of c; 0]) (list_ascii_of_string s).

(** ** The filter pipeline, in the words of the specification

    A record passes when it passes every configured category: the ID
    ranges, the type list, the source patterns and the message
    patterns. *)
Definition type_ok (opts : logOpts) (tn : string) : bool :=
  match Opts.typeList opts with
  | [] => true
  | _ :: _ => in_typeList (Opts.typeList opts) tn
  end.

Definition include_ok (re : option Regexp) (s : string) : bool :=
  match re with
  | Some re => MatchString re s
  | None => true
  end.

Definition exclude_ok (re : option Regexp) (s : string) : bool :=
  match re with
  | Some re => negb (MatchString re s)
  | None => true
  end.

Definition passes_filters (opts : logOpts) (eventID : Z)
    (tn source message : string) : bool :=
  passes_idRangeList (Opts.idRangeList opts) eventID
  && type_ok opts tn
  && (include_ok (Opts.sourcePattern opts) source
      && exclude_ok (Opts.sourceExclude opts) source)
  && (include_ok (Opts.messagePattern opts) message
      && exclude_ok (Opts.messageExclude opts) message).

(** ** A fabricated environment

    An event log held in memory, for the worked examples: the records in
    order from record number [oldest] on, each [recLen] bytes long. A read
    into a smaller buffer fails with ERROR_INSUFFICIENT_BUFFER and reports
    [recLen]; a read outside the log fails with ERROR_INVALID_PARAMETER. *)

Module Fake.

Definition opts0 : logOpts :=
  {| Opts.Log := EmptyString; Opts.Type_ := EmptyString;
     Opts.SourcePattern := EmptyString; Opts.SourceExclude := EmptyString;
     Opts.MessagePattern := EmptyString; Opts.MessageExclude := EmptyString;
     Opts.EventID := EmptyString;
     Opts.WarnOver := 0; Opts.CritOver := 0;
     Opts.ReturnContent := false;
     Opts.StateDir := "state"; Opts.NoState := false;
     Opts.FailFirst := false; Opts.Verbose := false;
     Opts.logList := ["Application"]; Opts.typeList := [];
     Opts.idRangeList := None;
     Opts.sourcePattern := None; Opts.sourceExclude := None;
     Opts.messagePattern := None; Opts.messageExclude := None;
     Opts.origArgs := [] |}.

Definition recLen : Z := 100.

Definition record (n ty : Z) (src : string) : EVENTLOGRECORD :=
  {| RecordNumber := n; TimeGenerated := 0; TimeWritten := 0;
     EventID := 1000 + n; EventType := ty; NumStrings := 0;
     sourceName := src; computerName := "host"; insertStrings := [] |}.

(** The names of the event types, by their Windows codes. *)
Definition typeName (ty : Z) : string :=
  if ty =? 1 then "Error"
  else if ty =? 2 then "Warning"
  else if ty =? 4 then "Information"
  else if ty =? 8 then "Audit Success"
  else if ty =? 16 then "Audit Failure"
  else "Success".

Definition read (oldest : Z) (recs : list EVENTLOGRECORD)
    (i sz : Z) : ReadResult :=
  if (i <? oldest) || (oldest + Z.of_nat (List.length recs) <=? i)
  then ReadFail (Errno errorInvalidParameter) 0
  else if sz <? recLen
  then ReadFail (Errno ERROR_INSUFFICIENT_BUFFER) recLen
  else match recs !! Z.to_nat (i - oldest) with
       | Some r => ReadOk r
       | None => ReadFail (Errno errorInvalidParameter) 0
       end.

(** A log whose records cannot be read: the size is reported, then
    access is denied (ERROR_ACCESS_DENIED). *)
Definition read_denied (i sz : Z) : ReadResult :=
  if sz <? recLen
  then ReadFail (Errno ERROR_INSUFFICIENT_BUFFER) recLen
  else ReadFail (Errno 5) 0.

(** No message resource is registered: the registry key is missing. *)
Definition os (open : result Z) (oldest count : Z)
    (read : Z -> Z -> ReadResult) (write_fault : option error) : OS :=
  {| Stat_fault := fun _ => None;
     ReadFile_fault := fun _ => None;
     MkdirAll_fault := fun _ => None;
     WriteFile_fault := fun _ => write_fault;
     OpenEventLog := fun _ => open;
     GetNumberOfEventLogRecords := fun _ => Ok count;
     GetOldestEventLogRecord := fun _ => Ok oldest;
     ReadEventLog := fun _ _ _ i sz => read i sz;
     EventType_String := typeName;
     registry_OpenKey := fun _ => Err (Errno ERROR_FILE_NOT_FOUND);
     GetStringValue := fun _ _ => Err (Errno ERROR_FILE_NOT_FOUND);
     ExpandString := fun s => Ok s;
     LoadLibraryEx := fun _ => Err (Errno ERROR_FILE_NOT_FOUND);
     FormatMessage := fun _ _ _ => Err (Errno ERROR_FILE_NOT_FOUND);
     regexp_Compile := fun _ => Err (LibError "no regexp engine");
     flags_ParseArgs := fun _ => (opts0, None);
     Getenv := fun _ => EmptyString;
     TempDir := "tmp";
     md5_hex := fun _ => "0";
     filepath_Join := fun a b => a +:+ "\" +:+ b;
     filepath_Dir := fun f => f |}.

(** The log of [recs], numbered from [oldest] on. *)
Definition log (oldest : Z) (recs : list EVENTLOGRECORD)
    (write_fault : option error) : OS :=
  os (Ok 1) oldest (Z.of_nat (List.length recs)) (read oldest recs)
     write_fault.

Definition stateFile : string := "state\Application-0".

Definition st0 (content : option string) : State :=
  {| files := match content with
              | Some b => {[ stateFile := b ]}
              | None => ∅
              end;
     logged := []; reads := [] |}.

(** One Warning, one Error, one Information, numbered from [oldest]
    on. *)
Definition three (oldest : Z) : list EVENTLOGRECORD :=
  [record oldest 2 "svc"; record (oldest + 1) 1 "app";
   record (oldest + 2) 4 "app"].

(** The same environment, with other options read from the command
    line. *)
Definition with_args (os : OS) (opts : logOpts) : OS :=
  {| Stat_fault := Stat_fault os;
     ReadFile_fault := ReadFile_fault os;
     MkdirAll_fault := MkdirAll_fault os;
     WriteFile_fault := WriteFile_fault os;
     OpenEventLog := OpenEventLog os;
     GetNumberOfEventLogRecords := GetNumberOfEventLogRecords os;
     GetOldestEventLogRecord := GetOldestEventLogRecord os;
     ReadEventLog := ReadEventLog os;
     EventType_String := EventType_String os;
     registry_OpenKey := registry_OpenKey os;
     GetStringValue := GetStringValue os;
     ExpandString := ExpandString os;
     LoadLibraryEx := LoadLibraryEx os;
     FormatMessage := FormatMessage os;
     regexp_Compile := regexp_Compile os;
     flags_ParseArgs := fun _ => (opts, None);
     Getenv := Getenv os;
     TempDir := TempDir os;
     md5_hex := md5_hex os;
     filepath_Join := filepath_Join os;
     filepath_Dir := filepath_Dir os |}.

(** Two logs asked for: the state file of the first holds 1, that of
    the second is blank. *)
Definition two_logs : logOpts :=
  {| Opts.Log := "App,Sys"; Opts.Type_ := EmptyString;
     Opts.SourcePattern := EmptyString; Opts.SourceExclude := EmptyString;
     Opts.MessagePattern := EmptyString; Opts.MessageExclude := EmptyString;
     Opts.EventID := EmptyString;
     Opts.WarnOver := 0; Opts.CritOver := 0;
     Opts.ReturnContent := false;
     Opts.StateDir := "state"; Opts.NoState := false;
     Opts.FailFirst := false; Opts.Verbose := false;
     Opts.logList := []; Opts.typeList := [];
     Opts.idRangeList := None;
     Opts.sourcePattern := None; Opts.sourceExclude := None;
     Opts.messagePattern := None; Opts.messageExclude := None;
     Opts.origArgs := [] |}.

Definition st_two_logs : State :=
  {| files := {[ "state\App-0" := "1"; "state\Sys-0" := " " ]};
     logged := []; reads := [] |}.

(** The options of a run with state persistence disabled. *)
Definition noState : logOpts :=
  {| Opts.Log := EmptyString; Opts.Type_ := EmptyString;
     Opts.SourcePattern := EmptyString; Opts.SourceExclude := EmptyString;
     Opts.MessagePattern := EmptyString; Opts.MessageExclude := EmptyString;
     Opts.EventID := EmptyString;
     Opts.WarnOver := 0; Opts.CritOver := 0;
     Opts.ReturnContent := true;
     Opts.StateDir := "state"; Opts.NoState := true;
     Opts.FailFirst := false; Opts.Verbose := false;
     Opts.logList := ["Application"]; Opts.typeList := [];
     Opts.idRangeList := None;
     Opts.sourcePattern := None; Opts.sourceExclude := None;
     Opts.messagePattern := None; Opts.messageExclude := None;
     Opts.origArgs := [] |}.

(** A hundred records of type Error, numbered from 1 on. *)
Definition hundred : list EVENTLOGRECORD :=
  map (fun k => record (1 + Z.of_nat k) 1 "app") (seq 0 100).

(** A pattern that matches every text but the empty one. *)
Definition some_text : Regexp :=
  {| MatchString := fun s => negb (Str.is_empty s) |}.

Definition with_messagePattern (re : Regexp) : logOpts :=
  set_compiled opts0 None None None (Some re) None.

End Fake.

(** * Properties *)

(** ** Machine integers *)

Lemma uint32_range z : Int.is_uint32 (Int.uint32 z).
Proof.
  unfold Int.is_uint32, Int.uint32, Int.maxUint32.
  pose proof (Z.mod_pos_bound z (2 ^ 32)). lia.
Qed.

Lemma uint32_id z : Int.is_uint32 z -> Int.uint32 z = z.
Proof.
  unfold Int.is_uint32, Int.uint32, Int.maxUint32. intros H.
  apply Z.mod_small. lia.
Qed.

Lemma int64_id z : Int.is_int64 z -> Int.int64 z = z.
Proof.
  unfold Int.is_int64, Int.int64, Int.minInt64, Int.maxInt64. intros H.
  rewrite Z.mod_small; lia.
Qed.

(** [int64(x)] of a [uint32] value [x] is [x]: the conversion made before
    each [writeLastOffset]. *)
Lemma int64_uint32 z : Int.int64 (Int.uint32 z) = Int.uint32 z.
Proof.
  apply int64_id. pose proof (uint32_range z) as H.
  unfold Int.is_uint32, Int.is_int64, Int.maxUint32, Int.minInt64,
    Int.maxInt64 in *. lia.
Qed.

(** ** The ID filter *)

Section IdFilter.

Variable id : Z.

Lemma in_range_reflect (r : idRange) :
  reflect (lo r <= id <= hi r) ((lo r <=? id) && (id <=? hi r)).
Proof.
  destruct (lo r <=? id) eqn:H1, (id <=? hi r) eqn:H2; simpl;
    constructor;
    rewrite ?Z.leb_le, ?Z.leb_gt in H1; rewrite ?Z.leb_le, ?Z.leb_gt in H2;
    lia.
Qed.

(** The relation is the loop: from any [found] and [sawPositiveRange]. *)
Lemma IdEval_fold (rs : list idRange) :
  forall found saw res,
    IdEval id found saw rs res
    <-> fst (fold_left (idRange_step id) rs (found, saw)) = res.
Proof.
  induction rs as [|r rs IH]; intros found saw res.
  - simpl. split.
    + intros H. inversion H. reflexivity.
    + intros <-. constructor.
  - cbn [fold_left].
    remember (idRange_step id (found, saw) r) as s eqn:Hs.
    unfold idRange_step in Hs.
    destruct (bang r) eqn:Hb; simpl in Hs;
      destruct (in_range_reflect r) as [Hin | Hout]; subst s.
    + rewrite <- IH. split.
      * intros H. inversion H; subst; try congruence; tauto.
      * intros H. now apply IdEval_neg_in.
    + destruct saw; simpl; rewrite <- IH; split;
        try (intros H; inversion H; subst; try congruence; tauto).
      * intros H. now apply IdEval_neg_out_later.
      * intros H. now apply IdEval_neg_out_first.
    + rewrite <- IH. split.
      * intros H. inversion H; subst; try congruence; tauto.
      * intros H. now apply IdEval_pos_in.
    + rewrite <- IH. split.
      * intros H. inversion H; subst; try congruence; tauto.
      * intros H. now apply IdEval_pos_out.
Qed.

End IdFilter.

(** A record that does not pass the ID filter changes nothing but
    [lastNumber]: it is not counted and adds no content. *)
Lemma id_filter_discards os opts logName r sc st :
  passes_idRangeList (Opts.idRangeList opts) (EventID r) = false ->
  let sc' := fst (process_record os opts logName r sc st) in
  warnNum sc' = warnNum sc /\ critNum sc' = critNum sc
  /\ errLines sc' = errLines sc.
Proof.
  intros H. unfold process_record. rewrite H. simpl. auto.
Qed.

(** C1. With an ID-range list configured, a record passes the ID filter
    exactly when the evaluation of the specification, run on the event ID
    masked to its lower 16 bits from found = false and
    sawPositiveRange = false, ends with found = true. With the ranges
    [{1,10,false},{5,5,true}] the masked ID 5 fails and 7 passes; with
    [{5,5,true}] alone 7 passes and 5 fails. The IDs of the examples carry
    severity bits above the lower 16. *)
Theorem id_filter_spec :
  (forall (idrl : list idRange) (eventID : Z),
      passes_idRangeList (Some idrl) eventID = true
      <-> IdEval (Z.land eventID 65535) false false idrl true)
  /\ (let both := Some [ {| lo := 1; hi := 10; bang := false |};
                         {| lo := 5; hi := 5; bang := true |} ] in
      let only_negated := Some [ {| lo := 5; hi := 5; bang := true |} ] in
      passes_idRangeList both (3221225472 + 5) = false
      /\ passes_idRangeList both (3221225472 + 7) = true
      /\ passes_idRangeList only_negated (1073741824 + 7) = true
      /\ passes_idRangeList only_negated (1073741824 + 5) = false).
Proof.
  split.
  - intros idrl e. unfold passes_idRangeList, idRange_found.
    symmetry. apply IdEval_fold.
  - repeat split; reflexivity.
Qed.

(** ** The ID-range parser *)

Lemma append_cons c a b : String c a +:+ b = String c (a +:+ b).
Proof. reflexivity. Qed.

Lemma all_digits_Forall s :
  all_digits s = true ->
  Forall (fun c => Str.is_digit c = true) (list_ascii_of_string s).
Proof.
  induction s as [|c s IH]; simpl; intros H.
  - constructor.
  - apply andb_prop in H as [Hc Hs]. constructor; auto.
Qed.

Lemma is_decimal_intro s :
  Str.is_empty s = false -> all_digits s = true -> is_decimal s.
Proof.
  intros He Hd. split.
  - intros ->. discriminate.
  - now apply all_digits_Forall.
Qed.

Lemma rid1_decimal t m : rid1 t = Some m -> m = t /\ is_decimal t.
Proof.
  unfold rid1. destruct (Str.is_empty t) eqn:He; simpl; [discriminate|].
  destruct (all_digits t) eqn:Hd; [|discriminate].
  intros [= <-]. split; [reflexivity|]. now apply is_decimal_intro.
Qed.

Lemma span_digits_split s :
  forall a b, span_digits s = (a, b) -> s = a +:+ b /\ all_digits a = true.
Proof.
  induction s as [|c s IH]; simpl; intros a b H.
  - injection H as <- <-. auto.
  - destruct (Str.is_digit c) eqn:Hc.
    + destruct (span_digits s) as [a' b'] eqn:Hs.
      injection H as <- <-. destruct (IH a' b' eq_refl) as [-> Ha].
      simpl. rewrite Hc, Ha. auto.
    + injection H as <- <-. auto.
Qed.

Lemma rid2_pair t a b :
  rid2 t = Some (a, b) ->
  t = a +:+ "-" +:+ b /\ is_decimal a /\ is_decimal b.
Proof.
  unfold rid2. destruct (span_digits t) as [a' rest] eqn:Hs.
  apply span_digits_split in Hs as [-> Ha].
  destruct rest as [|sep b']; [discriminate|].
  destruct (bool_decide (sep = "-"%char)) eqn:Hsep; simpl; [|discriminate].
  destruct (Str.is_empty a') eqn:Hea; simpl; [discriminate|].
  destruct (Str.is_empty b') eqn:Heb; simpl; [discriminate|].
  destruct (all_digits b') eqn:Hb; [|discriminate].
  intros [= <- <-]. apply bool_decide_eq_true in Hsep as ->.
  repeat split; auto using is_decimal_intro, all_digits_Forall;
    intros ->; discriminate.
Qed.

Lemma HasPrefix_bang t :
  Str.HasPrefix t "!" = true -> t = "!" +:+ Str.drop 1 t.
Proof.
  destruct t as [|c t]; simpl; [discriminate|].
  rewrite andb_true_r. intros H%bool_decide_eq_true. now subst c.
Qed.

(** What the loop accepts is a token of the grammar. *)
Lemma accepted_token t :
  let bang := Str.HasPrefix t "!" in
  let t' := if bang then Str.drop 1 t else t in
  (exists m, rid1 t' = Some m) \/ (exists m, rid2 t' = Some m) ->
  id_token t.
Proof.
  intros bang t' H.
  assert (Hitem : id_item t').
  { destruct H as [[m H] | [[a b] H]].
    - apply rid1_decimal in H as [_ H]. now constructor.
    - apply rid2_pair in H as (-> & Ha & Hb). now constructor. }
  subst t' bang. destruct (Str.HasPrefix t "!") eqn:Hb.
  - rewrite (HasPrefix_bang t Hb). now apply token_negated.
  - now apply token_plain.
Qed.

Lemma idRangeList_loop_tokens tokens :
  forall idrl l,
    idRangeList_loop tokens idrl = Ok l ->
    Forall (fun t => id_token (Str.TrimSpace t)) tokens.
Proof.
  induction tokens as [|t tokens IH]; intros idrl l H.
  - constructor.
  - cbn [idRangeList_loop] in H.
    set (tt := Str.TrimSpace t) in *.
    set (t' := if Str.HasPrefix tt "!" then Str.drop 1 tt else tt) in *.
    assert (Hacc : (exists m, rid1 t' = Some m) \/ (exists m, rid2 t' = Some m)
                   \/ (rid1 t' = None /\ rid2 t' = None)).
    { destruct (rid1 t'); [eauto|]. destruct (rid2 t'); eauto. }
    destruct Hacc as [Hm | [Hm | [H1 H2]]].
    + constructor; [apply accepted_token; fold tt; fold t'; auto|].
      destruct Hm as [m Hm]. rewrite Hm in H.
      destruct (Str.ParseUint m 32); [|discriminate]. eauto.
    + constructor; [apply accepted_token; fold tt; fold t'; auto|].
      destruct (rid1 t') as [m1|].
      * destruct (Str.ParseUint m1 32); [|discriminate]. eauto.
      * destruct Hm as [[a b] Hm]. rewrite Hm in H.
        destruct (Str.ParseUint a 32); [|discriminate].
        destruct (Str.ParseUint b 32); [|discriminate].
        destruct (_ <? _); eauto.
    + rewrite H1, H2 in H. discriminate.
Qed.

(** C5. The parser maps "5" to [{5,5,false}], "5-10" to [{5,10,false}],
    "10-5" to the normalized [{5,10,false}], "!7" to [{7,7,true}] and
    "1,5-10,!7" to three entries in that order; and for every input one of
    whose comma-separated tokens (taken, as the parser takes them, without
    the white space around them) is neither a decimal number, a
    dash-separated pair of decimal numbers, nor a !-prefixed form of
    those, parsing fails with an error; [prepare], which parses the
    event-ID option when it is not empty, returns that error. *)
Theorem idRangeList_spec :
  idRangeList "5" = Ok [ {| lo := 5; hi := 5; bang := false |} ]
  /\ idRangeList "5-10" = Ok [ {| lo := 5; hi := 10; bang := false |} ]
  /\ idRangeList "10-5" = Ok [ {| lo := 5; hi := 10; bang := false |} ]
  /\ idRangeList "!7" = Ok [ {| lo := 7; hi := 7; bang := true |} ]
  /\ idRangeList "1,5-10,!7"
     = Ok [ {| lo := 1; hi := 1; bang := false |};
            {| lo := 5; hi := 10; bang := false |};
            {| lo := 7; hi := 7; bang := true |} ]
  /\ (forall (s t : string),
         In t (Str.Split s ","%char) ->
         ~ id_token (Str.TrimSpace t) ->
         (exists err, idRangeList s = Err err)
         /\ (forall os opts, Opts.EventID opts = s -> s <> EmptyString ->
               exists err, prepare os opts = Err err)).
Proof.
  do 5 (split; [vm_compute; reflexivity|]).
  intros s t Hin Hbad.
  assert (Herr : exists err, idRangeList s = Err err).
  { destruct (idRangeList s) as [l|err] eqn:H; [|eauto].
    exfalso. apply Hbad. unfold idRangeList in H.
    apply idRangeList_loop_tokens in H.
    rewrite List.Forall_forall in H. now apply H. }
  split; [exact Herr|].
  intros os opts <- Hne. destruct Herr as [err Herr].
  exists err. unfold prepare. cbn [Opts.EventID set_lists].
  destruct (Str.is_empty (Opts.EventID opts)) eqn:He.
  - destruct (Opts.EventID opts); [congruence|discriminate].
  - now rewrite Herr.
Qed.

(** ** Decimal text: [Sprintf("%d")], [Trim] and [ParseInt] *)

Lemma digit_cases d :
  0 <= d < 10 ->
  d = 0 \/ d = 1 \/ d = 2 \/ d = 3 \/ d = 4 \/ d = 5 \/ d = 6 \/ d = 7
  \/ d = 8 \/ d = 9.
Proof. lia. Qed.

Lemma digit_val_char d : 0 <= d < 10 -> Str.digit_val (Str.digit_char d) = Some d.
Proof.
  intros H. destruct (digit_cases d H) as [-> | [-> | [-> | [-> | [-> |
    [-> | [-> | [-> | [-> | ->]]]]]]]]]; reflexivity.
Qed.

Lemma is_digit_char d : 0 <= d < 10 -> Str.is_digit (Str.digit_char d) = true.
Proof.
  intros H. destruct (digit_cases d H) as [-> | [-> | [-> | [-> | [-> |
    [-> | [-> | [-> | [-> | ->]]]]]]]]]; reflexivity.
Qed.

(** One digit read by the loop of [ParseUint]. *)
Lemma ParseUint_loop_digit M d s m :
  0 <= d < 10 -> 0 <= m -> M <= Int.maxUint64 -> m * 10 + d <= M ->
  Str.ParseUint_loop M (String (Str.digit_char d) s) m
  = Str.ParseUint_loop M s (m * 10 + d).
Proof.
  intros Hd Hm HM Hle. cbn [Str.ParseUint_loop].
  rewrite (digit_val_char d Hd).
  assert (Hcut : (Str.cutoff10 <=? m) = false).
  { apply Z.leb_gt. unfold Str.cutoff10, Int.maxUint64 in *.
    change (2 ^ 64 - 1) with 18446744073709551615 in *.
    change (18446744073709551615 / 10 + 1) with 1844674407370955162. lia. }
  rewrite Hcut.
  assert (H1 : (Int.maxUint64 <? m * 10 + d) = false) by (apply Z.ltb_ge; lia).
  assert (H2 : (M <? m * 10 + d) = false) by (apply Z.ltb_ge; lia).
  cbv zeta. now rewrite H1, H2.
Qed.

(** The digits written for [n] in front of [acc] read back as [n]
    appended to what was read before. *)
Lemma ParseUint_loop_utoa fuel :
  forall n acc, 0 <= n < 10 ^ Z.of_nat fuel ->
    exists k, 0 <= k /\ forall m M,
        0 <= m -> M <= Int.maxUint64 -> m * 10 ^ k + n <= M ->
        Str.ParseUint_loop M (Str.utoa fuel n acc) m
        = Str.ParseUint_loop M acc (m * 10 ^ k + n).
Proof.
  induction fuel as [|fuel IH]; intros n acc Hn.
  - simpl in Hn. exists 0. split; [lia|].
    intros m M _ _ _. simpl. f_equal. lia.
  - cbn [Str.utoa]. destruct (n <? 10) eqn:Hlt.
    + apply Z.ltb_lt in Hlt. exists 1. split; [lia|].
      intros m M Hm HM Hle. rewrite Z.pow_1_r in *.
      apply ParseUint_loop_digit; lia.
    + apply Z.ltb_ge in Hlt.
      assert (Hdiv : 0 <= n / 10 < 10 ^ Z.of_nat fuel).
      { split; [apply Z.div_pos; lia|].
        apply Z.div_lt_upper_bound; [lia|].
        rewrite Nat2Z.inj_succ, Z.pow_succ_r in Hn; lia. }
      destruct (IH (n / 10) (String (Str.digit_char (n mod 10)) acc) Hdiv)
        as (k & Hk & IHk).
      exists (k + 1). split; [lia|].
      intros m M Hm HM Hle.
      pose proof (Z.mod_pos_bound n 10 ltac:(lia)) as Hmod.
      pose proof (Z.div_mod n 10 ltac:(lia)) as Hdm.
      assert (Hpow : 10 ^ (k + 1) = 10 ^ k * 10)
        by (rewrite Z.pow_add_r by lia; now rewrite Z.pow_1_r).
      assert (Hpos : 0 <= 10 ^ k) by (apply Z.pow_nonneg; lia).
      rewrite Hpow in *.
      assert (Hmk : 0 <= m * 10 ^ k) by (apply Z.mul_nonneg_nonneg; lia).
      rewrite IHk by lia.
      rewrite ParseUint_loop_digit by lia.
      f_equal. lia.
Qed.

Lemma fuel_enough n :
  0 <= n -> 0 <= n < 10 ^ Z.of_nat (S (Z.to_nat (Z.log2 n))).
Proof.
  intros Hn. split; [exact Hn|]. rewrite Nat2Z.inj_succ, Z2Nat.id by apply Z.log2_nonneg.
  destruct (Z.eq_dec n 0) as [-> | Hne]; [reflexivity|].
  pose proof (Z.log2_spec n ltac:(lia)) as [_ Hlt].
  eapply Z.lt_le_trans; [exact Hlt|].
  apply Z.pow_le_mono_l. lia.
Qed.

Lemma ParseUint_loop_FormatUint n M :
  0 <= n <= M -> M <= Int.maxUint64 ->
  Str.ParseUint_loop M (Str.FormatUint n) 0 = inr n.
Proof.
  intros Hn HM. unfold Str.FormatUint.
  destruct (ParseUint_loop_utoa _ n EmptyString (fuel_enough n ltac:(lia)))
    as (k & Hk & H).
  rewrite H by lia. reflexivity.
Qed.

(** The text written has digits only, and at least one. *)
Lemma utoa_digits fuel :
  forall n acc, 0 <= n ->
    Forall (fun c => Str.is_digit c = true) (list_ascii_of_string acc) ->
    Forall (fun c => Str.is_digit c = true)
           (list_ascii_of_string (Str.utoa fuel n acc)).
Proof.
  induction fuel as [|fuel IH]; intros n acc Hn Hacc; cbn [Str.utoa]; auto.
  destruct (n <? 10) eqn:Hlt.
  - apply Z.ltb_lt in Hlt. simpl. constructor; auto.
    apply is_digit_char. lia.
  - apply IH; [apply Z.div_pos; lia|].
    simpl. constructor; auto.
    apply is_digit_char. apply Z.mod_pos_bound. lia.
Qed.

Lemma utoa_nonempty fuel :
  forall n acc, (fuel <> O \/ acc <> EmptyString) ->
    Str.utoa fuel n acc <> EmptyString.
Proof.
  induction fuel as [|fuel IH]; intros n acc H; cbn [Str.utoa].
  - destruct H; congruence.
  - destruct (n <? 10); [discriminate|]. apply IH. right. discriminate.
Qed.

Lemma FormatUint_digits n :
  0 <= n ->
  Str.FormatUint n <> EmptyString
  /\ Forall (fun c => Str.is_digit c = true)
            (list_ascii_of_string (Str.FormatUint n)).
Proof.
  intros Hn. unfold Str.FormatUint. split.
  - apply utoa_nonempty. left. discriminate.
  - apply utoa_digits; [lia | constructor].
Qed.

Lemma rev_app_chars s1 :
  forall s2,
    list_ascii_of_string (String.rev_app s1 s2)
    = rev (list_ascii_of_string s1) ++ list_ascii_of_string s2.
Proof.
  induction s1 as [|c s1 IH]; intros s2; simpl; [reflexivity|].
  rewrite IH. simpl. now rewrite <- app_assoc.
Qed.

Lemma rev_chars s :
  list_ascii_of_string (String.rev s) = rev (list_ascii_of_string s).
Proof. unfold String.rev. rewrite rev_app_chars. simpl. apply app_nil_r. Qed.

Lemma rev_rev s : String.rev (String.rev s) = s.
Proof.
  rewrite <- (string_of_list_ascii_of_string (String.rev (String.rev s))).
  rewrite !rev_chars, rev_involutive.
  apply string_of_list_ascii_of_string.
Qed.

Lemma TrimLeft_id s cutset :
  Forall (fun c => Str.mem c cutset = false) (list_ascii_of_string s) ->
  Str.TrimLeft s cutset = s.
Proof.
  destruct s as [|c s]; simpl; [reflexivity|].
  intros H. inversion H as [|? ? Hc _]; subst. now rewrite Hc.
Qed.

(** Nothing is trimmed from a text without bytes of the cutset. *)
Lemma Trim_id s cutset :
  Forall (fun c => Str.mem c cutset = false) (list_ascii_of_string s) ->
  Str.Trim s cutset = s.
Proof.
  intros H. unfold Str.Trim, Str.TrimRight.
  rewrite (TrimLeft_id s cutset H).
  rewrite TrimLeft_id; [apply rev_rev|].
  rewrite rev_chars. now apply Forall_rev.
Qed.

Lemma digit_not_cut c :
  Str.is_digit c = true -> Str.mem c (Str.bytes [32; 13; 10]) = false.
Proof.
  intros H. simpl.
  repeat match goal with
         | |- context [bool_decide (c = ?x)] =>
             destruct (bool_decide_reflect (c = x)) as [-> | _];
             [vm_compute in H; discriminate|]
         end.
  reflexivity.
Qed.

Lemma digit_not_sign c :
  Str.is_digit c = true -> c <> "+"%char /\ c <> "-"%char.
Proof. intros H. split; intros ->; vm_compute in H; discriminate. Qed.

Lemma FormatInt_not_cut n :
  Forall (fun c => Str.mem c (Str.bytes [32; 13; 10]) = false)
         (list_ascii_of_string (Str.FormatInt n)).
Proof.
  unfold Str.FormatInt. destruct (n <? 0) eqn:Hn.
  - apply Z.ltb_lt in Hn. simpl. constructor; [reflexivity|].
    destruct (FormatUint_digits (- n) ltac:(lia)) as [_ H].
    eapply Forall_impl; [exact H|]. intros c. apply digit_not_cut.
  - apply Z.ltb_ge in Hn.
    destruct (FormatUint_digits n Hn) as [_ H].
    eapply Forall_impl; [exact H|]. intros c. apply digit_not_cut.
Qed.

(** [ParseInt] reads back what [Sprintf("%d")] wrote, for every
    [int64]. *)
Lemma ParseInt_FormatInt n :
  Int.is_int64 n -> Str.ParseInt (Str.FormatInt n) 64 = Ok n.
Proof.
  unfold Int.is_int64, Int.minInt64, Int.maxInt64. intros Hn.
  change (2 ^ 63) with 9223372036854775808 in Hn.
  assert (Hmax : Int.maxUint64 = 18446744073709551615) by reflexivity.
  unfold Str.FormatInt. destruct (n <? 0) eqn:Hneg.
  - apply Z.ltb_lt in Hneg.
    destruct (FormatUint_digits (- n) ltac:(lia)) as [Hne _].
    unfold Str.ParseInt.
    change (bool_decide ("-"%char = "-"%char)) with true.
    change (bool_decide ("-"%char = "+"%char)) with false.
    cbn [orb andb negb].
    destruct (Str.FormatUint (- n)) as [|c s] eqn:Hf; [congruence|].
    cbn [Str.is_empty]. rewrite <- Hf.
    change (2 ^ 64 - 1) with Int.maxUint64.
    rewrite ParseUint_loop_FormatUint by lia.
    change (2 ^ (64 - 1)) with 9223372036854775808.
    assert (H : (9223372036854775808 <? - n) = false) by (apply Z.ltb_ge; lia).
    rewrite H. f_equal. lia.
  - apply Z.ltb_ge in Hneg.
    destruct (FormatUint_digits n Hneg) as [Hne Hd].
    destruct (Str.FormatUint n) as [|c s] eqn:Hf; [congruence|].
    simpl in Hd. inversion Hd as [|? ? Hc _]; subst.
    destruct (digit_not_sign c Hc) as [Hplus Hminus].
    unfold Str.ParseInt.
    rewrite (bool_decide_eq_false_2 _ Hplus), (bool_decide_eq_false_2 _ Hminus).
    cbn [orb andb negb Str.is_empty]. rewrite <- Hf.
    change (2 ^ 64 - 1) with Int.maxUint64.
    rewrite ParseUint_loop_FormatUint by lia.
    change (2 ^ (64 - 1)) with 9223372036854775808.
    assert (H : (9223372036854775808 <=? n) = false) by (apply Z.leb_gt; lia).
    now rewrite H.
Qed.

(** ** The state file *)

Lemma writeLastOffset_ok os fs f num fs' :
  writeLastOffset os fs f num = (fs', None) ->
  fs' = <[f := Str.FormatInt num]> fs.
Proof.
  unfold writeLastOffset, ioutil_WriteFile.
  destruct (MkdirAll_fault os _); [discriminate|].
  destruct (WriteFile_fault os f); [discriminate|].
  now intros [= <-].
Qed.

Lemma writeLastOffset_err os fs f num fs' err :
  writeLastOffset os fs f num = (fs', Some err) -> fs' = fs.
Proof.
  unfold writeLastOffset, ioutil_WriteFile.
  destruct (MkdirAll_fault os _); [now intros [= <- _]|].
  destruct (WriteFile_fault os f); [now intros [= <- _]|discriminate].
Qed.

Lemma getLastOffset_content os (fs : gmap string string) f n :
  Stat_fault os f = None -> ReadFile_fault os f = None ->
  Int.is_int64 n ->
  fs !! f = Some (Str.FormatInt n) ->
  getLastOffset os fs f = (n, None).
Proof.
  intros Hs Hr Hn Hf. unfold getLastOffset, os_Stat, ioutil_ReadFile.
  rewrite Hs, Hr, Hf.
  rewrite (Trim_id _ _ (FormatInt_not_cut n)).
  now rewrite (ParseInt_FormatInt n Hn).
Qed.

Lemma getLastOffset_missing os (fs : gmap string string) f :
  Stat_fault os f = None -> fs !! f = None ->
  getLastOffset os fs f = (0, Some (PathError "CreateFile" f ERROR_FILE_NOT_FOUND)).
Proof.
  intros Hs Hf. unfold getLastOffset, os_Stat. now rewrite Hs, Hf.
Qed.

(** C9. State persistence round-trips: when [writeLastOffset] has
    written an offset (any [int64]) and the file can be read, then
    [getLastOffset] on the same file returns exactly that offset; and on
    a file that does not exist [getLastOffset] returns offset zero with
    an error for which [os.IsNotExist] holds, which [searchLog] takes as
    "no offset yet", not as a failure. *)
Theorem state_round_trip :
  (forall os (fs fs' : gmap string string) (f : string) (num : Z),
      Int.is_int64 num ->
      writeLastOffset os fs f num = (fs', None) ->
      Stat_fault os f = None -> ReadFile_fault os f = None ->
      getLastOffset os fs' f = (num, None))
  /\ (forall os (fs : gmap string string) (f : string),
        fs !! f = None -> Stat_fault os f = None ->
        exists err,
          getLastOffset os fs f = (0, Some err) /\ IsNotExist err = true)
  /\ (forall os opts logName st,
        Opts.NoState opts = false ->
        files st !! getStateFile os opts logName = None ->
        Stat_fault os (getStateFile os opts logName) = None ->
        load_recordNumber os opts st (getStateFile os opts logName) = inr 0).
Proof.
  split; [|split].
  - intros os fs fs' f num Hn Hw Hs Hr.
    apply writeLastOffset_ok in Hw as ->.
    apply getLastOffset_content; auto. apply lookup_insert_eq.
  - intros os fs f Hf Hs. eexists. split.
    + now apply getLastOffset_missing.
    + reflexivity.
  - intros os opts logName st Hns Hf Hs. unfold load_recordNumber.
    rewrite Hns. cbn [negb].
    now rewrite (getLastOffset_missing _ _ _ Hs Hf).
Qed.

(** ** The loop over the records *)

Lemma verbose_reads opts l st : reads (verbose opts l st) = reads st.
Proof. unfold verbose. now destruct (Opts.Verbose opts). Qed.

Lemma verbose_files opts l st : files (verbose opts l st) = files st.
Proof. unfold verbose. now destruct (Opts.Verbose opts). Qed.

Ltac case_ifs :=
  repeat match goal with
         | |- context [if ?b then _ else _] => destruct b
         end.

(** [process_record] reads nothing and writes no file. *)
Lemma process_record_reads os opts logName r sc st :
  reads (snd (process_record os opts logName r sc st)) = reads st.
Proof.
  unfold process_record. case_ifs; cbn [snd]; now rewrite !verbose_reads.
Qed.

Lemma process_record_files os opts logName r sc st :
  files (snd (process_record os opts logName r sc st)) = files st.
Proof.
  unfold process_record. case_ifs; cbn [snd]; now rewrite !verbose_files.
Qed.

Lemma process_record_size os opts logName r sc st :
  size (fst (process_record os opts logName r sc st)) = size sc.
Proof. unfold process_record. case_ifs; reflexivity. Qed.

Lemma visited_reads st st' : reads st' = reads st -> visited st' = visited st.
Proof. unfold visited. now intros ->. Qed.

Lemma visited_first_call fl i sz st :
  visited (count_read {| call_flags := fl; call_offset := i; call_size := sz;
                         call_again := false |} st)
  = visited st ++ [i].
Proof.
  unfold visited. cbn [reads count_read].
  rewrite filter_cons_True by reflexivity. reflexivity.
Qed.

Lemma visited_second_call fl i sz st :
  visited (count_read {| call_flags := fl; call_offset := i; call_size := sz;
                         call_again := true |} st)
  = visited st.
Proof.
  unfold visited. cbn [reads count_read].
  rewrite filter_cons_False by (cbn; discriminate). reflexivity.
Qed.

(** Each turn of the loop visits its record number, whatever the reads
    answer. *)
Lemma loop_body_visited os opts logName h i sc st :
  visited (step_state (loop_body os opts logName h i sc st))
  = visited st ++ [i].
Proof.
  unfold loop_body, call_ReadEventLog.
  set (fl := if i =? 0 then SEQUENTIAL_READ else SEEK_READ).
  set (c1 := {| call_flags := fl; call_offset := i; call_size := size sc;
                call_again := false |}).
  assert (H1 : visited (count_read c1 st) = visited st ++ [i])
    by apply visited_first_call.
  destruct (ReadEventLog os (List.length (reads st)) h fl i (size sc))
    as [r | err nextSize].
  - destruct (process_record os opts logName r sc (count_read c1 st))
      as [sc' st'] eqn:Hp.
    cbn [step_state]. rewrite <- H1. apply visited_reads.
    change st' with (snd (sc', st')). rewrite <- Hp.
    apply process_record_reads.
  - destruct (negb (is_errno err ERROR_INSUFFICIENT_BUFFER)).
    + destruct (negb (is_errno err errorInvalidParameter)); exact H1.
    + cbv zeta. destruct (Int.uint32 nextSize =? 0); [exact H1|].
      set (c2 := {| call_flags := fl; call_offset := i;
                    call_size := Int.uint32 nextSize; call_again := true |}).
      assert (H2 : visited (count_read c2 (count_read c1 st))
                   = visited st ++ [i])
        by (rewrite <- H1; apply visited_second_call).
      destruct (ReadEventLog os _ h fl i (Int.uint32 nextSize)) as [r | err2 n2].
      * destruct (process_record os opts logName r
                    (set_size (Int.uint32 nextSize) sc)
                    (count_read c2 (count_read c1 st))) as [sc' st'] eqn:Hp.
        cbn [step_state]. rewrite <- H2. apply visited_reads.
        change st' with (snd (sc', st')). rewrite <- Hp.
        apply process_record_reads.
      * exact H2.
Qed.

Lemma range_S a n : range a (S n) = a :: range (a + 1) n.
Proof.
  unfold range. cbn [seq map]. f_equal; [lia|].
  rewrite <- seq_shift, map_map. apply map_ext. intros k. lia.
Qed.

(** The loop visits the record numbers from [i] on, in order, and at
    most [n] of them. *)
Lemma loop_events_visited os opts logName h n :
  forall i sc st,
    exists k, (k <= n)%nat
      /\ visited (end_state (loop_events os opts logName h n i sc st))
         = visited st ++ range i k.
Proof.
  induction n as [|n IH]; intros i sc st.
  - exists O. split; [lia|]. simpl. now rewrite app_nil_r.
  - cbn [loop_events].
    pose proof (loop_body_visited os opts logName h i sc st) as Hb.
    destruct (loop_body os opts logName h i sc st) as [sc' st'|sc' st'|e st'|st'];
      cbn [step_state] in Hb.
    + destruct (IH (i + 1) sc' st') as (k & Hk & Hv).
      exists (S k). split; [lia|].
      rewrite Hv, Hb, range_S, <- app_assoc. reflexivity.
    + exists 1%nat. split; [lia|]. cbn [end_state]. now rewrite Hb, range_S.
    + exists 1%nat. split; [lia|]. cbn [end_state]. now rewrite Hb, range_S.
    + exists 1%nat. split; [lia|]. cbn [end_state]. now rewrite Hb, range_S.
Qed.

(** When the read gives the record, at once or on the second call, the
    turn ends with [continue]. *)
Lemma loop_body_continues os opts logName h a b i sc st :
  reads_succeed os h a b -> a <= i < b ->
  exists sc' st', loop_body os opts logName h i sc st = Continue sc' st'.
Proof.
  intros Hok Hi. unfold loop_body, call_ReadEventLog.
  set (fl := if i =? 0 then SEQUENTIAL_READ else SEEK_READ).
  pose proof (Hok (List.length (reads st)) fl i (size sc) Hi) as H.
  destruct (ReadEventLog os (List.length (reads st)) h fl i (size sc))
    as [r | err nextSize].
  - destruct (process_record _ _ _ _ _ _) as [sc' st']. eauto.
  - destruct H as (H122 & Hnz & r & Hr). rewrite H122. cbn [negb]. cbv zeta.
    apply Z.eqb_neq in Hnz. rewrite Hnz.
    cbn [reads count_read List.length]. rewrite Hr.
    destruct (process_record _ _ _ _ _ _) as [sc' st']. eauto.
Qed.

Lemma loop_events_complete os opts logName h a b n :
  reads_succeed os h a b ->
  forall i sc st,
    a <= i -> (n <> O -> i + Z.of_nat n <= b) ->
    exists sc' st',
      loop_events os opts logName h n i sc st = LoopDone sc' st'
      /\ visited st' = visited st ++ range i n.
Proof.
  intros Hok. induction n as [|n IH]; intros i sc st Ha Hb.
  - exists sc, st. split; [reflexivity|]. simpl. now rewrite app_nil_r.
  - cbn [loop_events]. specialize (Hb ltac:(discriminate)).
    pose proof (loop_body_visited os opts logName h i sc st) as Hv.
    destruct (loop_body_continues os opts logName h a b i sc st Hok
                ltac:(lia)) as (sc1 & st1 & H1).
    rewrite H1 in *. cbn [step_state] in Hv.
    destruct (IH (i + 1) sc1 st1 ltac:(lia) ltac:(lia)) as (sc' & st' & H & Hv').
    exists sc', st'. split; [exact H|].
    rewrite Hv', Hv, range_S, <- app_assoc. reflexivity.
Qed.

(** ** The scan of one log: its three ways *)

Lemma load_recordNumber_found os opts st f s :
  Opts.NoState opts = false ->
  getLastOffset os (files st) f = (s, None) ->
  load_recordNumber os opts st f = inr (Int.uint32 s).
Proof. intros Hns Hg. unfold load_recordNumber. now rewrite Hns, Hg. Qed.

(** The first run: nothing is read, the newest record number is written. *)
Lemma searchLog_bootstrap os opts logName st h :
  load_recordNumber os opts st (getStateFile os opts logName) = inr 0 ->
  Opts.NoState opts = false -> Opts.FailFirst opts = false ->
  OpenEventLog os logName = Ok h ->
  let w := writeLastOffset os (files st) (getStateFile os opts logName)
             (Int.uint32 (reported_oldnum os h + reported_num os h - 1)) in
  searchLog os opts logName st
  = (Returns (0, 0, EmptyString, snd w), set_files (fst w) st).
Proof.
  intros Hl Hns Hff Ho w. unfold searchLog.
  rewrite Hl, Ho, Hns, Hff. cbn [Z.eqb negb andb]. cbv zeta.
  rewrite int64_uint32. fold w. now destruct w.
Qed.

(** The newest record has been seen: nothing is read. *)
Lemma searchLog_up_to_date os opts logName st h rn :
  load_recordNumber os opts st (getStateFile os opts logName) = inr rn ->
  OpenEventLog os logName = Ok h ->
  ((rn =? 0) && negb (Opts.NoState opts) && negb (Opts.FailFirst opts)) = false ->
  reported_oldnum os h <= rn ->
  rn = Int.uint32 (reported_oldnum os h + reported_num os h - 1) ->
  searchLog os opts logName st = (Returns (0, 0, EmptyString, None), st).
Proof.
  intros Hl Ho Hb Hle Heq. unfold searchLog.
  rewrite Hl, Ho, Hb. cbv zeta.
  apply Z.leb_le in Hle. rewrite Hle. cbn [andb].
  rewrite <- Heq, Z.eqb_refl. reflexivity.
Qed.

(** Otherwise the loop runs from [start] while [i < oldnum+num], and the
    scan ends as the loop ended. *)
Lemma searchLog_scanning os opts logName st h rn :
  load_recordNumber os opts st (getStateFile os opts logName) = inr rn ->
  OpenEventLog os logName = Ok h ->
  ((rn =? 0) && negb (Opts.NoState opts) && negb (Opts.FailFirst opts)) = false ->
  let oldnum := reported_oldnum os h in
  let num := reported_num os h in
  ~ (oldnum <= rn /\ rn = Int.uint32 (oldnum + num - 1)) ->
  let start := if oldnum <=? rn then Int.uint32 (rn + 1) else oldnum in
  let sc0 := {| warnNum := 0; critNum := 0; errLines := EmptyString;
                lastNumber := if oldnum <=? rn then rn else 0; size := 1 |} in
  searchLog os opts logName st
  = match loop_events os opts logName h
            (Z.to_nat (Int.uint32 (oldnum + num) - start)) start sc0 st with
    | LoopReturn err st' => (Returns (0, 0, EmptyString, Some err), st')
    | LoopPanic st' => (Panics, st')
    | LoopDone sc st' =>
        finish_scan os opts (getStateFile os opts logName) start sc st'
    end.
Proof.
  intros Hl Ho Hb oldnum num Hnot start sc0. unfold searchLog.
  rewrite Hl, Ho, Hb. cbv zeta. fold oldnum num.
  assert (H : ((oldnum <=? rn) && (rn =? Int.uint32 (oldnum + num - 1))) = false).
  { apply andb_false_iff.
    destruct (Z.leb_spec oldnum rn); [|now left].
    right. apply Z.eqb_neq. intros ->. apply Hnot. split; [lia|reflexivity]. }
  rewrite H. reflexivity.
Qed.

Lemma finish_scan_visited os opts f rn sc st :
  visited (snd (finish_scan os opts f rn sc st)) = visited st.
Proof.
  unfold finish_scan. apply visited_reads.
  destruct (negb (Opts.NoState opts)).
  - destruct (writeLastOffset _ _ _ _) as [fs [e|]];
      destruct (_ && _); reflexivity.
  - destruct (_ && _); reflexivity.
Qed.

(** What [finish_scan] returns does not depend on the write. *)
Lemma finish_scan_result os opts f rn sc st :
  fst (finish_scan os opts f rn sc st)
  = Returns (if (rn =? 0) && negb (Opts.FailFirst opts)
             then (0, 0, EmptyString, None)
             else (warnNum sc, critNum sc, errLines sc, None)).
Proof.
  unfold finish_scan.
  destruct ((rn =? 0) && negb (Opts.FailFirst opts)); reflexivity.
Qed.

Lemma finish_scan_returns os opts f rn sc st :
  exists w c l, fst (finish_scan os opts f rn sc st) = Returns (w, c, l, None).
Proof.
  rewrite finish_scan_result. destruct (_ && _); eauto.
Qed.

(** The record numbers visited by a scan that did not stop at the two
    early returns: a run of consecutive numbers from [start] on, all of
    them up to [oldnum+num] when the reads succeed. *)
Lemma searchLog_visits os opts logName st h rn :
  load_recordNumber os opts st (getStateFile os opts logName) = inr rn ->
  OpenEventLog os logName = Ok h ->
  ((rn =? 0) && negb (Opts.NoState opts) && negb (Opts.FailFirst opts)) = false ->
  let oldnum := reported_oldnum os h in
  let num := reported_num os h in
  ~ (oldnum <= rn /\ rn = Int.uint32 (oldnum + num - 1)) ->
  let start := if oldnum <=? rn then Int.uint32 (rn + 1) else oldnum in
  let n := Z.to_nat (Int.uint32 (oldnum + num) - start) in
  let out := searchLog os opts logName st in
  (exists k, (k <= n)%nat /\ visited (snd out) = visited st ++ range start k)
  /\ (reads_succeed os h start (Int.uint32 (oldnum + num)) ->
      visited (snd out) = visited st ++ range start n
      /\ exists w c l, fst out = Returns (w, c, l, None)).
Proof.
  intros Hl Ho Hb oldnum num Hnot start n out.
  pose proof (searchLog_scanning os opts logName st h rn Hl Ho Hb Hnot) as Hs.
  cbv zeta in Hs. fold oldnum num start n in Hs. fold out in Hs.
  split.
  - destruct (loop_events_visited os opts logName h n start
                {| warnNum := 0; critNum := 0; errLines := EmptyString;
                   lastNumber := if oldnum <=? rn then rn else 0; size := 1 |}
                st) as (k & Hk & Hv).
    exists k. split; [exact Hk|]. rewrite Hs.
    destruct (loop_events _ _ _ _ _ _ _ _) as [sc' st'|e st'|st'];
      cbn [end_state] in Hv; cbn [snd]; auto.
    now rewrite finish_scan_visited.
  - intros Hok.
    destruct (loop_events_complete os opts logName h start
                (Int.uint32 (oldnum + num)) n Hok start
                {| warnNum := 0; critNum := 0; errLines := EmptyString;
                   lastNumber := if oldnum <=? rn then rn else 0; size := 1 |}
                st ltac:(lia) ltac:(lia)) as (sc' & st' & Hloop & Hv).
    rewrite Hs, Hloop. split.
    + now rewrite finish_scan_visited.
    + apply finish_scan_returns.
Qed.

Lemma uint32_succ x :
  Int.uint32 x = 0 \/ Int.uint32 x = Int.uint32 (x - 1) + 1.
Proof.
  unfold Int.uint32. change (2 ^ 32) with 4294967296.
  pose proof (Z.div_mod x 4294967296 ltac:(lia)).
  pose proof (Z.mod_pos_bound x 4294967296 ltac:(lia)).
  pose proof (Z.div_mod (x - 1) 4294967296 ltac:(lia)).
  pose proof (Z.mod_pos_bound (x - 1) 4294967296 ltac:(lia)).
  lia.
Qed.

Lemma no_bootstrap rn opts :
  rn <> 0 \/ Opts.FailFirst opts = true ->
  ((rn =? 0) && negb (Opts.NoState opts) && negb (Opts.FailFirst opts)) = false.
Proof.
  intros [H | H].
  - apply Z.eqb_neq in H. now rewrite H.
  - rewrite H. cbn [negb]. now rewrite andb_false_r.
Qed.

(** C2 (amended). For every scan with state persistence enabled whose
    state file holds an offset, p after the conversion to uint32, that
    the scan does not take for "no offset yet" (p is not 0, or counting
    on the first run is enabled), with oldest and count as the log
    reports them and the arithmetic that of uint32:
    - if p equals oldest+count-1, no record is read and zero counts are
      returned;
    - if p is at or beyond oldest, and not the newest, the scan visits
      the record numbers from p+1 on while they are below oldest+count:
      consecutive numbers, all of them up to oldest+count-1 when the
      reads succeed (a failing read ends the scan earlier), and then the
      scan returns without error;
    - if p is below oldest, the scan visits the record numbers from
      oldest on in the same way, and returns without error when the
      reads succeed. *)
Theorem scan_from_persisted_offset :
  forall os opts logName st s h,
    Opts.NoState opts = false ->
    getLastOffset os (files st) (getStateFile os opts logName) = (s, None) ->
    OpenEventLog os logName = Ok h ->
    Int.uint32 s <> 0 \/ Opts.FailFirst opts = true ->
    let p := Int.uint32 s in
    let oldnum := reported_oldnum os h in
    let num := reported_num os h in
    let bound := Int.uint32 (oldnum + num) in
    let out := searchLog os opts logName st in
    let visits (start : Z) :=
      let n := Z.to_nat (bound - start) in
      (exists k, (k <= n)%nat /\ visited (snd out) = visited st ++ range start k)
      /\ (reads_succeed os h start bound ->
          visited (snd out) = visited st ++ range start n
          /\ exists w c l, fst out = Returns (w, c, l, None)) in
    (p = Int.uint32 (oldnum + num - 1) ->
     visited (snd out) = visited st
     /\ fst out = Returns (0, 0, EmptyString, None))
    /\ (oldnum <= p -> p <> Int.uint32 (oldnum + num - 1) ->
        visits (Int.uint32 (p + 1)))
    /\ (p < oldnum -> visits oldnum).
Proof.
  intros os opts logName st s h Hns Hg Ho Hnb p oldnum num bound out visits.
  pose proof (load_recordNumber_found os opts st _ s Hns Hg) as Hl.
  fold p in Hl. pose proof (no_bootstrap p opts Hnb) as Hb.
  split; [|split].
  - intros Hnew. destruct (Z.le_gt_cases oldnum p) as [Hle | Hlt].
    + subst out.
      rewrite (searchLog_up_to_date os opts logName st h p Hl Ho Hb Hle Hnew).
      split; reflexivity.
    + subst out.
      rewrite (searchLog_scanning os opts logName st h p Hl Ho Hb)
        by (fold oldnum; lia).
      fold oldnum num.
      assert (Hleb : (oldnum <=? p) = false) by (apply Z.leb_gt; lia).
      rewrite Hleb.
      assert (Hn : Z.to_nat (Int.uint32 (oldnum + num) - oldnum) = O).
      { destruct (uint32_succ (oldnum + num)) as [H0 | HS].
        - rewrite H0. pose proof (uint32_range s) as Hr. fold p in Hr.
          unfold Int.is_uint32 in Hr. lia.
        - rewrite HS, <- Hnew. lia. }
      rewrite Hn. cbn [loop_events]. split.
      * apply finish_scan_visited.
      * rewrite finish_scan_result.
        destruct ((oldnum =? 0) && negb (Opts.FailFirst opts)); reflexivity.
  - intros Hle Hne. subst visits. cbv beta zeta.
    pose proof (searchLog_visits os opts logName st h p Hl Ho Hb) as H.
    cbv zeta in H. fold oldnum num in H.
    assert (Hleb : (oldnum <=? p) = true) by (apply Z.leb_le; lia).
    rewrite Hleb in H. apply H. lia.
  - intros Hlt. subst visits. cbv beta zeta.
    pose proof (searchLog_visits os opts logName st h p Hl Ho Hb) as H.
    cbv zeta in H. fold oldnum num in H.
    assert (Hleb : (oldnum <=? p) = false) by (apply Z.leb_gt; lia).
    rewrite Hleb in H. apply H. lia.
Qed.

(** C3. On a log with no state file, with state persistence enabled and
    counting on the first run disabled, the scan makes no read: it calls
    [writeLastOffset] with the newest record number, oldest+count-1 in
    uint32 arithmetic, and returns zero counts and no content, with the
    outcome of that write as its error; when the write succeeds the state
    file holds that number in decimal. *)
Theorem bootstrap_first_run :
  forall os opts logName st h,
    Opts.NoState opts = false ->
    Opts.FailFirst opts = false ->
    files st !! getStateFile os opts logName = None ->
    Stat_fault os (getStateFile os opts logName) = None ->
    OpenEventLog os logName = Ok h ->
    let newest := Int.uint32 (reported_oldnum os h + reported_num os h - 1) in
    let w := writeLastOffset os (files st) (getStateFile os opts logName)
               newest in
    let out := searchLog os opts logName st in
    out = (Returns (0, 0, EmptyString, snd w), set_files (fst w) st)
    /\ reads (snd out) = reads st
    /\ visited (snd out) = visited st
    /\ (snd w = None ->
        fst out = Returns (0, 0, EmptyString, None)
        /\ files (snd out) !! getStateFile os opts logName
           = Some (Str.FormatInt newest)).
Proof.
  intros os opts logName st h Hns Hff Hf Hs Ho newest w out.
  assert (Hl : load_recordNumber os opts st (getStateFile os opts logName)
               = inr 0).
  { unfold load_recordNumber. rewrite Hns. cbn [negb].
    now rewrite (getLastOffset_missing _ _ _ Hs Hf). }
  pose proof (searchLog_bootstrap os opts logName st h Hl Hns Hff Ho) as H.
  cbv zeta in H. fold newest in H. fold w in H. fold out in H.
  split; [exact H|]. rewrite H. cbn [snd fst].
  split; [reflexivity|]. split; [reflexivity|].
  intros Hw. rewrite Hw. split; [reflexivity|].
  cbn [files set_files].
  destruct w as [fs' e] eqn:Ew. cbn [snd fst] in *. subst e.
  apply writeLastOffset_ok in Ew as ->. apply lookup_insert_eq.
Qed.

(** ** One record: filters, content and counts *)

Lemma getResourceMessage_error os providerName source eventID args err :
  snd (getResourceMessage os providerName source eventID args) = Some err ->
  fst (getResourceMessage os providerName source eventID args) = EmptyString.
Proof.
  unfold getResourceMessage.
  destruct (registry_OpenKey os _) as [key|]; [|reflexivity].
  destruct (GetStringValue os key _) as [val|]; [|reflexivity].
  destruct (ExpandString os val) as [val'|]; [|reflexivity].
  destruct (LoadLibraryEx os val') as [handle|]; [|reflexivity].
  destruct (FormatMessage os handle eventID args); [discriminate|reflexivity].
Qed.

(** The loop body after the read is the filter pipeline, then the
    content line and the tally; a record that fails a filter leaves only
    its number in [lastNumber]. *)
Lemma process_record_filters os opts logName r sc st :
  let message :=
    fst (getResourceMessage os logName (sourceName r) (EventID r)
           (insertStrings r)) in
  let tn := EventType_String os (EventType r) in
  let sc1 := set_lastNumber (Int.uint32 (RecordNumber r)) sc in
  fst (process_record os opts logName r sc st)
  = if passes_filters opts (EventID r) tn (sourceName r) message
    then tally tn sc1
           (if Opts.ReturnContent opts
            then errLines sc +:+ contentLine (sourceName r) message
            else errLines sc)
    else sc1.
Proof.
  intros message tn sc1.
  unfold process_record, passes_filters, type_ok, include_ok, exclude_ok.
  fold message tn sc1.
  destruct (passes_idRangeList _ _); cbn [negb andb]; [|reflexivity].
  destruct (Opts.typeList opts) as [|t0 ts] eqn:Ht.
  - destruct (Opts.sourcePattern opts) as [sp|];
      [destruct (MatchString sp _)|]; cbn [negb andb]; try reflexivity;
      (destruct (Opts.sourceExclude opts) as [se|];
       [destruct (MatchString se _)|]; cbn [negb andb]; try reflexivity;
       (destruct (Opts.messagePattern opts) as [mp|];
        [destruct (MatchString mp _)|]; cbn [negb andb]; try reflexivity;
        (destruct (Opts.messageExclude opts) as [me|];
         [destruct (MatchString me _)|]; cbn [negb andb]; reflexivity))).
  - destruct (in_typeList _ _); cbn [negb andb]; [|reflexivity].
    destruct (Opts.sourcePattern opts) as [sp|];
      [destruct (MatchString sp _)|]; cbn [negb andb]; try reflexivity;
      (destruct (Opts.sourceExclude opts) as [se|];
       [destruct (MatchString se _)|]; cbn [negb andb]; try reflexivity;
       (destruct (Opts.messagePattern opts) as [mp|];
        [destruct (MatchString mp _)|]; cbn [negb andb]; try reflexivity;
        (destruct (Opts.messageExclude opts) as [me|];
         [destruct (MatchString me _)|]; cbn [negb andb]; reflexivity))).
Qed.

Lemma contentLine_text source message :
  message <> EmptyString ->
  contentLine source message
  = source +:+ ":" +:+ Str.Replace message (Str.char_of 10) EmptyString
    +:+ Str.bytes [10].
Proof. intros H. unfold contentLine. destruct message; [congruence|reflexivity]. Qed.

Lemma contentLine_placeholder source :
  contentLine source EmptyString
  = source +:+ ":" +:+ noResource +:+ Str.bytes [10].
Proof. reflexivity. Qed.

(** C10. For every record whose message lookup fails, the error is
    dropped and the message is the empty string. So with a message
    pattern that does not match the empty string every such record is
    discarded: it changes no count and adds no content. The filters see
    the message itself, empty here, whatever the patterns make of the
    placeholder; the placeholder text enters only the content line of a
    record that passed, only when content return is enabled and the
    message is empty. *)
Theorem unresolved_message_is_empty :
  forall os opts logName r sc st err,
    snd (getResourceMessage os logName (sourceName r) (EventID r)
           (insertStrings r)) = Some err ->
    let out := fst (process_record os opts logName r sc st) in
    let tn := EventType_String os (EventType r) in
    let sc1 := set_lastNumber (Int.uint32 (RecordNumber r)) sc in
    fst (getResourceMessage os logName (sourceName r) (EventID r)
           (insertStrings r)) = EmptyString
    /\ (forall re,
           Opts.messagePattern opts = Some re ->
           MatchString re EmptyString = false ->
           out = sc1
           /\ warnNum out = warnNum sc /\ critNum out = critNum sc
           /\ errLines out = errLines sc)
    /\ out = (if passes_filters opts (EventID r) tn (sourceName r) EmptyString
              then tally tn sc1
                     (if Opts.ReturnContent opts
                      then errLines sc +:+ sourceName r +:+ ":" +:+ noResource
                           +:+ Str.bytes [10]
                      else errLines sc)
              else sc1)
    /\ (forall source message,
           message <> EmptyString ->
           contentLine source message
           = source +:+ ":"
             +:+ Str.Replace message (Str.char_of 10) EmptyString
             +:+ Str.bytes [10]).
Proof.
  intros os opts logName r sc st err Herr out tn sc1.
  pose proof (getResourceMessage_error _ _ _ _ _ _ Herr) as Hmsg.
  pose proof (process_record_filters os opts logName r sc st) as Hp.
  cbv zeta in Hp. rewrite Hmsg in Hp. fold out tn sc1 in Hp.
  split; [exact Hmsg|]. split; [|split].
  - intros re Hre Hno. rewrite Hp. unfold passes_filters, include_ok.
    rewrite Hre, Hno. cbn [andb]. rewrite !andb_false_r.
    repeat split; reflexivity.
  - rewrite Hp. reflexivity.
  - apply contentLine_text.
Qed.

(** ** The aggregation *)

(** One more log: its counts are added to the totals, as [int64]. *)
Lemma run_logs_step os opts lt logs t st w c errLines st' :
  searchLog os opts lt st = (Returns (w, c, errLines, None), st') ->
  run_logs os opts (lt :: logs) t st
  = run_logs os opts logs
      {| total_warn := Int.int64 (total_warn t + w);
         total_crit := Int.int64 (total_crit t + c);
         errorOverall := if Opts.ReturnContent opts
                         then errorOverall t +:+ errLines
                         else errorOverall t |} st'.
Proof. intros H. cbn [run_logs]. now rewrite H. Qed.

Lemma run_logs_error os opts lt logs t st w c errLines err st' :
  searchLog os opts lt st = (Returns (w, c, errLines, Some err), st') ->
  run_logs os opts (lt :: logs) t st = (RunError err, st').
Proof. intros H. cbn [run_logs]. now rewrite H. Qed.

Lemma run_logs_exits os opts lt logs t st code st' :
  searchLog os opts lt st = (Exits code, st') ->
  run_logs os opts (lt :: logs) t st = (RunExits code, st').
Proof. intros H. cbn [run_logs]. now rewrite H. Qed.



(** ** Failures while reading *)

Section ReadFailures.

Variables (os : OS) (opts : logOpts) (logName : string) (h i : Z).
Variables (sc : Scan) (st : State).

Let flags := if i =? 0 then SEQUENTIAL_READ else SEEK_READ.
Let first_call :=
  {| call_flags := flags; call_offset := i; call_size := size sc;
     call_again := false |}.
Let second_call (n : Z) :=
  {| call_flags := flags; call_offset := i; call_size := n;
     call_again := true |}.

(** ERROR_INVALID_PARAMETER on the first read: the loop is left with
    the counts as they are. *)
Lemma read_invalid_parameter nextSize :
  ReadEventLog os (List.length (reads st)) h flags i (size sc)
  = ReadFail (Errno errorInvalidParameter) nextSize ->
  loop_body os opts logName h i sc st = Break sc (count_read first_call st).
Proof.
  intros H. unfold loop_body, call_ReadEventLog. fold flags. now rewrite H.
Qed.

(** Any other failure of the first read but ERROR_INSUFFICIENT_BUFFER:
    [searchLog] returns it. *)
Lemma read_other_failure err nextSize :
  ReadEventLog os (List.length (reads st)) h flags i (size sc)
  = ReadFail err nextSize ->
  is_errno err ERROR_INSUFFICIENT_BUFFER = false ->
  is_errno err errorInvalidParameter = false ->
  loop_body os opts logName h i sc st = Return err (count_read first_call st).
Proof.
  intros H H1 H2. unfold loop_body, call_ReadEventLog. fold flags.
  now rewrite H, H1, H2.
Qed.

(** ERROR_INSUFFICIENT_BUFFER: one more read, into a buffer of the size
    reported, and no third one whatever it answers. When it fails, with
    any error, the failure is logged and the loop is left as on
    ERROR_INVALID_PARAMETER. *)
Lemma read_again_once err nextSize :
  ReadEventLog os (List.length (reads st)) h flags i (size sc)
  = ReadFail err nextSize ->
  is_errno err ERROR_INSUFFICIENT_BUFFER = true ->
  Int.uint32 nextSize <> 0 ->
  let n := Int.uint32 nextSize in
  let st2 := count_read (second_call n) (count_read first_call st) in
  reads (step_state (loop_body os opts logName h i sc st))
  = second_call n :: first_call :: reads st
  /\ match ReadEventLog os (S (List.length (reads st))) h flags i n with
     | ReadOk r =>
         loop_body os opts logName h i sc st
         = Continue (fst (process_record os opts logName r (set_size n sc) st2))
                    (snd (process_record os opts logName r (set_size n sc) st2))
     | ReadFail err2 _ =>
         loop_body os opts logName h i sc st
         = Break (set_size n sc) (log_Print (LogReadEventLog err2) st2)
     end.
Proof.
  intros H H1 Hn n st2. unfold loop_body, call_ReadEventLog. fold flags.
  rewrite H, H1. cbn [negb]. cbv zeta. fold n.
  apply Z.eqb_neq in Hn. fold n in Hn. rewrite Hn.
  cbn [reads count_read List.length].
  destruct (ReadEventLog os (S (List.length (reads st))) h flags i n)
    as [r | err2 n2].
  - fold first_call. fold (second_call n). fold st2.
    destruct (process_record os opts logName r (set_size n sc) st2)
      as [sc' st'] eqn:Hp.
    split; [|reflexivity]. cbn [step_state].
    change st' with (snd (sc', st')). rewrite <- Hp.
    now rewrite process_record_reads.
  - split; reflexivity.
Qed.

End ReadFailures.

(** A loop left by [break] ends the scan as a loop that ran out:
    [searchLog] goes on to write the state. *)
Lemma loop_break_is_done os opts logName h n i sc st sc' st' :
  loop_body os opts logName h i sc st = Break sc' st' ->
  loop_events os opts logName h (S n) i sc st = LoopDone sc' st'.
Proof. intros H. cbn [loop_events]. now rewrite H. Qed.

Lemma loop_return_aborts os opts logName h n i sc st err st' :
  loop_body os opts logName h i sc st = Return err st' ->
  loop_events os opts logName h (S n) i sc st = LoopReturn err st'.
Proof. intros H. cbn [loop_events]. now rewrite H. Qed.

(** The write at the end of a scan: a failure is logged, and nothing
    else of the scan's result depends on it. *)
Lemma finish_scan_write_failure os opts f rn sc st err fs' :
  Opts.NoState opts = false ->
  writeLastOffset os (files st) f (Int.int64 (lastNumber sc)) = (fs', Some err) ->
  logged (snd (finish_scan os opts f rn sc st))
  = LogWriteLastOffset err :: logged st
  /\ fst (finish_scan os opts f rn sc st)
     = Returns (if (rn =? 0) && negb (Opts.FailFirst opts)
                then (0, 0, EmptyString, None)
                else (warnNum sc, critNum sc, errLines sc, None)).
Proof.
  intros Hns Hw. split; [|apply finish_scan_result].
  unfold finish_scan. rewrite Hns, Hw. cbn [negb].
  destruct (_ && _); reflexivity.
Qed.

(** ** Failures outside the loop *)

(** [OpenEventLog] fails: [log.Fatal] ends the process with status 1;
    nothing is returned to [run]. *)
Lemma searchLog_open_failure os opts logName st rn err :
  load_recordNumber os opts st (getStateFile os opts logName) = inr rn ->
  OpenEventLog os logName = Err err ->
  searchLog os opts logName st = (Exits 1, log_Print (LogFatal err) st).
Proof. intros Hl Ho. unfold searchLog. now rewrite Hl, Ho. Qed.

(** The two queries for the bounds: their failures are not looked at,
    the scan goes on with zero for what was not answered. *)
Lemma bounds_failures_ignored os h e1 e2 :
  GetNumberOfEventLogRecords os h = Err e1 ->
  GetOldestEventLogRecord os h = Err e2 ->
  reported_num os h = 0 /\ reported_oldnum os h = 0.
Proof.
  intros H1 H2. unfold reported_num, reported_oldnum. now rewrite H1, H2.
Qed.

(** A first run whose write fails: the error is what [searchLog]
    returns, and nothing is logged. *)
Lemma searchLog_bootstrap_write_failure os opts logName st h err fs' :
  load_recordNumber os opts st (getStateFile os opts logName) = inr 0 ->
  Opts.NoState opts = false -> Opts.FailFirst opts = false ->
  OpenEventLog os logName = Ok h ->
  writeLastOffset os (files st) (getStateFile os opts logName)
    (Int.uint32 (reported_oldnum os h + reported_num os h - 1))
  = (fs', Some err) ->
  searchLog os opts logName st = (Returns (0, 0, EmptyString, Some err), st).
Proof.
  intros Hl Hns Hff Ho Hw.
  rewrite (searchLog_bootstrap os opts logName st h Hl Hns Hff Ho).
  cbv zeta. rewrite Hw. cbn [fst snd].
  apply writeLastOffset_err in Hw as ->. now destruct st.
Qed.

(** C6. The failing input: the first read of record 2 reports
    ERROR_INSUFFICIENT_BUFFER and 100 bytes, the read into 100 bytes
    fails with ERROR_ACCESS_DENIED. The failure is logged and the scan
    ends as on a clean stop: state is written, [searchLog] returns
    without error and the run reports OK, not Unknown. *)
Theorem read_again_failure_not_reported :
  let os := Fake.os (Ok 1) 1 3 Fake.read_denied None in
  let st := Fake.st0 (Some "1") in
  let out := searchLog os Fake.opts0 "Application" st in
  ReadEventLog os 0 1 SEEK_READ 2 1
  = ReadFail (Errno ERROR_INSUFFICIENT_BUFFER) 100
  /\ ReadEventLog os 1 1 SEEK_READ 2 100 = ReadFail (Errno 5) 0
  /\ fst out = Returns (0, 0, EmptyString, None)
  /\ logged (snd out) = [LogReadEventLog (Errno 5)]
  /\ reads (snd out)
     = [ {| call_flags := SEEK_READ; call_offset := 2; call_size := 100;
            call_again := true |};
         {| call_flags := SEEK_READ; call_offset := 2; call_size := 1;
            call_again := false |} ]
  /\ files (snd out) !! Fake.stateFile = Some "1"
  /\ fst (run os [] st)
     = Returns (NewChecker OK (Text "0 warnings, 0 criticals.")).
Proof. vm_compute. repeat split; reflexivity. Qed.

(** C7. The failing input: a log that cannot be opened
    (ERROR_FILE_NOT_FOUND). [searchLog] does not return: the error is
    logged by [log.Fatal] and the process exits with status 1, where a
    checker with status UNKNOWN exits with 3. *)
Theorem open_failure_exits_process :
  let os := Fake.os (Err (Errno ERROR_FILE_NOT_FOUND)) 1 3
              (Fake.read 1 (Fake.three 1)) None in
  let st := Fake.st0 (Some "1") in
  fst (searchLog os Fake.opts0 "Application" st) = Exits 1
  /\ logged (snd (searchLog os Fake.opts0 "Application" st))
     = [LogFatal (Errno ERROR_FILE_NOT_FOUND)]
  /\ fst (run os [] st) = Exits 1
  /\ fst (main os [] st) = 1
  /\ exit_code UNKNOWN = 3.
Proof. vm_compute. repeat split; reflexivity. Qed.

(** C8. The failing input: a first run (no state file) in which the
    state file cannot be written (ERROR_ACCESS_DENIED). The write error
    is returned by [searchLog] and not logged, and the run reports
    Unknown with it; without the write failure the same run reports OK.
    At the end of a scan the same write failure is logged and the result
    is the one without it. *)
Theorem bootstrap_write_failure_reported :
  let denied := Some (Errno 5) in
  let first := Fake.st0 None in
  let later := Fake.st0 (Some "1") in
  fst (searchLog (Fake.log 1 (Fake.three 1) denied) Fake.opts0
         "Application" first)
  = Returns (0, 0, EmptyString, Some (Errno 5))
  /\ logged (snd (searchLog (Fake.log 1 (Fake.three 1) denied) Fake.opts0
                    "Application" first)) = []
  /\ fst (run (Fake.log 1 (Fake.three 1) denied) [] first)
     = Returns (Unknown (Errno 5))
  /\ fst (run (Fake.log 1 (Fake.three 1) None) [] first)
     = Returns (NewChecker OK (Text "0 warnings, 0 criticals."))
  /\ fst (run (Fake.log 1 (Fake.three 1) denied) [] later)
     = fst (run (Fake.log 1 (Fake.three 1) None) [] later)
  /\ logged (snd (run (Fake.log 1 (Fake.three 1) denied) [] later))
     = [LogWriteLastOffset (Errno 5)].
Proof. vm_compute. repeat split; reflexivity. Qed.

(** ** Worked examples on the fabricated log *)

Lemma fake_read_inside oldest recs i sz :
  oldest <= i < oldest + Z.of_nat (List.length recs) ->
  Fake.recLen <= sz ->
  exists r, Fake.read oldest recs i sz = ReadOk r.
Proof.
  intros Hi Hsz. unfold Fake.read.
  assert (H1 : ((i <? oldest) || (oldest + Z.of_nat (List.length recs) <=? i))
               = false).
  { apply orb_false_iff. split; [apply Z.ltb_ge | apply Z.leb_gt]; lia. }
  assert (H2 : (sz <? Fake.recLen) = false) by (apply Z.ltb_ge; lia).
  rewrite H1, H2.
  destruct (lookup_lt_is_Some_2 recs (Z.to_nat (i - oldest)) ltac:(lia))
    as [r Hr].
  rewrite Hr. eauto.
Qed.

(** Inside the fabricated log every read succeeds, the first one of a
    scan on its second call. *)
Lemma fake_reads_succeed oldest recs wf h a b :
  oldest <= a -> b <= oldest + Z.of_nat (List.length recs) ->
  reads_succeed (Fake.log oldest recs wf) h a b.
Proof.
  intros Ha Hb cnt fl i sz Hi. cbn [ReadEventLog Fake.log Fake.os].
  destruct (Z.lt_ge_cases sz Fake.recLen) as [Hlt | Hge].
  - unfold Fake.read at 1.
    assert (H1 : ((i <? oldest) || (oldest + Z.of_nat (List.length recs) <=? i))
                 = false).
    { apply orb_false_iff. split; [apply Z.ltb_ge | apply Z.leb_gt]; lia. }
    apply Z.ltb_lt in Hlt. rewrite H1, Hlt.
    split; [reflexivity|]. split; [discriminate|].
    apply fake_read_inside; [lia|]. vm_compute. discriminate.
  - destruct (fake_read_inside oldest recs i sz ltac:(lia) Hge) as [r Hr].
    now rewrite Hr.
Qed.

(** A state file that holds 0 is written by [searchLog] itself: a scan
    that restarts from the oldest record (offset 2 below oldest 5) and
    whose first read finds the log cleared leaves [lastNumber] at 0. *)
Lemma cleared_log_writes_zero :
  let os := Fake.os (Ok 1) 5 3
              (fun _ _ => ReadFail (Errno errorInvalidParameter) 0) None in
  let out := searchLog os Fake.opts0 "Application" (Fake.st0 (Some "2")) in
  fst out = Returns (0, 0, EmptyString, None)
  /\ visited (snd out) = [5]
  /\ files (snd out) !! Fake.stateFile = Some "0".
Proof. vm_compute. repeat split; reflexivity. Qed.

(** C2, as stated, fails on a state file that holds 0: with state
    persistence enabled and counting on the first run disabled, the
    offset 0 lies below the oldest record number 1 and the reads would
    succeed, yet the scan does not restart from the oldest record: it
    visits nothing and writes the newest record number, as on a first
    run. *)
Lemma persisted_zero_does_not_restart :
  let os := Fake.log 1 (Fake.three 1) None in
  let st := Fake.st0 (Some "0") in
  let out := searchLog os Fake.opts0 "Application" st in
  Opts.NoState Fake.opts0 = false
  /\ getLastOffset os (files st) (getStateFile os Fake.opts0 "Application")
     = (0, None)
  /\ OpenEventLog os "Application" = Ok 1
  /\ reported_oldnum os 1 = 1 /\ reported_num os 1 = 3
  /\ reads_succeed os 1 1 4
  /\ visited (snd out) = []
  /\ visited (snd out) <> visited st ++ range 1 3
  /\ files (snd out) !! Fake.stateFile = Some "3".
Proof.
  cbv zeta. split; [reflexivity|]. split; [vm_compute; reflexivity|].
  split; [reflexivity|]. split; [reflexivity|]. split; [reflexivity|].
  split; [apply fake_reads_succeed; vm_compute; discriminate|].
  split; [vm_compute; reflexivity|].
  split; [vm_compute; discriminate|]. vm_compute. reflexivity.
Qed.

Lemma scan_from_persisted_offset_witness :
  let os := Fake.log 1 (Fake.three 1) None in
  let out := searchLog os Fake.opts0 "Application" (Fake.st0 (Some "1")) in
  visited (snd out) = [2; 3]
  /\ exists w c l, fst out = Returns (w, c, l, None).
Proof.
  cbv zeta.
  destruct (scan_from_persisted_offset
              (Fake.log 1 (Fake.three 1) None) Fake.opts0 "Application"
              (Fake.st0 (Some "1")) 1 1)
    as (_ & Hin & _).
  - reflexivity.
  - vm_compute. reflexivity.
  - reflexivity.
  - left. vm_compute. discriminate.
  - destruct Hin as [_ H].
    + vm_compute. discriminate.
    + vm_compute. discriminate.
    + apply H. apply fake_reads_succeed; vm_compute; discriminate.
Defined.

Lemma bootstrap_first_run_witness :
  let os := Fake.log 1 Fake.hundred None in
  let out := searchLog os Fake.opts0 "Application" (Fake.st0 None) in
  fst out = Returns (0, 0, EmptyString, None)
  /\ reads (snd out) = []
  /\ files (snd out) !! Fake.stateFile = Some "100".
Proof.
  cbv zeta.
  destruct (bootstrap_first_run (Fake.log 1 Fake.hundred None) Fake.opts0
              "Application" (Fake.st0 None) 1)
    as (_ & Hreads & _ & Hw).
  - reflexivity.
  - reflexivity.
  - vm_compute. reflexivity.
  - reflexivity.
  - reflexivity.
  - destruct Hw as [Hout Hfile]; [vm_compute; reflexivity|].
    split; [exact Hout|]. split; [exact Hreads|]. exact Hfile.
Defined.


Lemma not_a_token_x : ~ id_token (Str.TrimSpace "x").
Proof.
  change (Str.TrimSpace "x") with "x".
  assert (Hx : ~ is_decimal "x").
  { intros [_ H]. inversion H as [|? ? Hc _]. discriminate Hc. }
  assert (Hi : ~ id_item "x").
  { intros H. inversion H as [a Ha Heq | a b Ha Hb Heq].
    - subst. contradiction.
    - destruct a as [|c a].
      + destruct Ha as [Ha _]. congruence.
      + rewrite append_cons in Heq. injection Heq as _ Heq.
        destruct a; discriminate Heq. }
  intros H. inversion H as [t Ht Heq | t Ht Heq]; subst;
    try contradiction; try discriminate.
Qed.

Lemma idRangeList_spec_witness :
  (exists err, idRangeList "1,x" = Err err)
  /\ forall os, exists err,
      prepare os (set_StateDir_origArgs
                    {| Opts.Log := EmptyString; Opts.Type_ := EmptyString;
                       Opts.SourcePattern := EmptyString;
                       Opts.SourceExclude := EmptyString;
                       Opts.MessagePattern := EmptyString;
                       Opts.MessageExclude := EmptyString;
                       Opts.EventID := "1,x";
                       Opts.WarnOver := 0; Opts.CritOver := 0;
                       Opts.ReturnContent := false;
                       Opts.StateDir := EmptyString; Opts.NoState := false;
                       Opts.FailFirst := false; Opts.Verbose := false;
                       Opts.logList := []; Opts.typeList := [];
                       Opts.idRangeList := None;
                       Opts.sourcePattern := None; Opts.sourceExclude := None;
                       Opts.messagePattern := None;
                       Opts.messageExclude := None;
                       Opts.origArgs := [] |} "state" []) = Err err.
Proof.
  destruct idRangeList_spec as (_ & _ & _ & _ & _ & H).
  destruct (H "1,x" "x") as [Herr Hprep].
  - vm_compute. auto.
  - exact not_a_token_x.
  - split; [exact Herr|].
    intros os. apply Hprep; [reflexivity | discriminate].
Defined.

Lemma state_round_trip_witness :
  let os := Fake.log 1 (Fake.three 1) None in
  getLastOffset os
    (fst (writeLastOffset os ∅ Fake.stateFile 12345)) Fake.stateFile
  = (12345, None)
  /\ (exists err,
         getLastOffset os ∅ Fake.stateFile = (0, Some err)
         /\ IsNotExist err = true)
  /\ load_recordNumber os Fake.opts0 (Fake.st0 None) Fake.stateFile = inr 0.
Proof.
  cbv zeta. destruct state_round_trip as (Hrt & Hmiss & Hload).
  split; [|split].
  - apply (Hrt (Fake.log 1 (Fake.three 1) None) ∅).
    + vm_compute. split; discriminate.
    + reflexivity.
    + reflexivity.
    + reflexivity.
  - apply Hmiss; reflexivity.
  - apply (Hload (Fake.log 1 (Fake.three 1) None) Fake.opts0 "Application"
             (Fake.st0 None)); reflexivity.
Defined.

Lemma unresolved_message_is_empty_witness :
  let os := Fake.log 1 (Fake.three 1) None in
  let opts := Fake.with_messagePattern Fake.some_text in
  let r := Fake.record 2 1 "app" in
  let sc := {| warnNum := 0; critNum := 0; errLines := EmptyString;
               lastNumber := 1; size := 100 |} in
  let out := fst (process_record os opts "Application" r sc (Fake.st0 None)) in
  fst (getResourceMessage os "Application" "app" 1002 []) = EmptyString
  /\ critNum out = 0 /\ warnNum out = 0 /\ errLines out = EmptyString.
Proof.
  cbv zeta.
  destruct (unresolved_message_is_empty (Fake.log 1 (Fake.three 1) None)
              (Fake.with_messagePattern Fake.some_text) "Application"
              (Fake.record 2 1 "app")
              {| warnNum := 0; critNum := 0; errLines := EmptyString;
                 lastNumber := 1; size := 100 |}
              (Fake.st0 None) (Errno ERROR_FILE_NOT_FOUND))
    as (Hmsg & Hdisc & _).
  - reflexivity.
  - split; [exact Hmsg|].
    destruct (Hdisc Fake.some_text) as (_ & Hw & Hc & He);
      [reflexivity | reflexivity |].
    split; [exact Hc|]. split; [exact Hw | exact He].
Defined.

(** * Further properties of the code *)

(** ** The ID filter: what a list of ranges means *)

Lemma idRange_fold_positive id (l : list idRange) :
  forall found exact,
    Forall (fun r => bang r = false) l ->
    fst (fold_left (idRange_step id) l (found, exact))
    = found || existsb (fun r => (lo r <=? id) && (id <=? hi r)) l.
Proof.
  induction l as [|r l IH]; intros found exact Hall; cbn [fold_left existsb].
  - now rewrite orb_false_r.
  - inversion Hall as [|? ? Hr Hl]; subst.
    unfold idRange_step at 2. rewrite Hr. cbn [negb].
    destruct ((lo r <=? id) && (id <=? hi r)); rewrite (IH _ _ Hl).
    + now rewrite orb_true_r.
    + reflexivity.
Qed.

Lemma idRange_fold_negated id (l : list idRange) :
  forall found,
    Forall (fun r => bang r = true) l ->
    snd (fold_left (idRange_step id) l (found, false)) = false.
Proof.
  induction l as [|r l IH]; intros found Hall; cbn [fold_left]; [reflexivity|].
  inversion Hall as [|? ? Hr Hl]; subst.
  unfold idRange_step at 2. rewrite Hr. cbn [negb].
  destruct ((lo r <=? id) && (id <=? hi r)); now apply IH.
Qed.

(** X1. With ranges none of which is negated, the event passes exactly
    when its masked ID lies in one of the ranges. *)
Theorem positive_ranges_any :
  forall (l : list idRange) (eventID : Z),
    Forall (fun r => bang r = false) l ->
    passes_idRangeList (Some l) eventID
    = existsb (fun r => (lo r <=? Z.land eventID 65535)
                        && (Z.land eventID 65535 <=? hi r)) l.
Proof.
  intros l e Hall. unfold passes_idRangeList, idRange_found.
  now rewrite (idRange_fold_positive _ l false false Hall).
Qed.

Lemma positive_ranges_any_witness :
  passes_idRangeList
    (Some [ {| lo := 1; hi := 3; bang := false |};
            {| lo := 7; hi := 9; bang := false |} ]) 8
  = true.
Proof.
  rewrite positive_ranges_any.
  - reflexivity.
  - repeat constructor.
Defined.

(** X2. With negated ranges only, the last one alone decides: the event
    passes exactly when its masked ID lies outside the last range,
    whatever the ranges before it exclude. *)
Theorem negated_ranges_last_decides :
  forall (l : list idRange) (r : idRange) (eventID : Z),
    Forall (fun r => bang r = true) (l ++ [r]) ->
    passes_idRangeList (Some (l ++ [r])) eventID
    = negb ((lo r <=? Z.land eventID 65535)
            && (Z.land eventID 65535 <=? hi r)).
Proof.
  intros l r e Hall. unfold passes_idRangeList, idRange_found.
  apply Forall_app in Hall as [Hl Hr].
  inversion Hr as [|? ? Hb _]; subst.
  rewrite fold_left_app. cbn [fold_left].
  pose proof (idRange_fold_negated (Z.land e 65535) l false Hl) as Hs.
  destruct (fold_left _ l (false, false)) as [found exact].
  cbn [snd] in Hs. subst exact.
  unfold idRange_step. rewrite Hb. cbn [negb].
  now destruct ((lo r <=? Z.land e 65535) && (Z.land e 65535 <=? hi r)).
Qed.

(** The list of "!5,!7": the ID 5, excluded by the first range, passes. *)
Lemma negated_ranges_last_decides_witness :
  passes_idRangeList
    (Some ([ {| lo := 5; hi := 5; bang := true |} ]
           ++ [ {| lo := 7; hi := 7; bang := true |} ])) 5
  = true.
Proof.
  rewrite negated_ranges_last_decides.
  - reflexivity.
  - repeat constructor.
Defined.

Lemma land_mask e : Z.land e 65535 = e mod 65536.
Proof. apply (Z.land_ones e 16). lia. Qed.

(** X3. Only the lower 16 bits of the event ID reach the ranges: two IDs
    that agree modulo 65536 pass or fail together, and a list of ranges
    that all start above 65535, none negated, lets no event pass. *)
Theorem id_filter_masks :
  (forall idrl e1 e2,
      e1 mod 65536 = e2 mod 65536 ->
      passes_idRangeList idrl e1 = passes_idRangeList idrl e2)
  /\ (forall l e,
        Forall (fun r => bang r = false /\ 65535 < lo r) l ->
        passes_idRangeList (Some l) e = false).
Proof.
  split.
  - intros [l|] e1 e2 H; [|reflexivity].
    unfold passes_idRangeList. now rewrite !land_mask, H.
  - intros l e Hall.
    rewrite positive_ranges_any
      by (eapply Forall_impl; [exact Hall | now intros r [Hr _]]).
    rewrite land_mask.
    pose proof (Z.mod_pos_bound e 65536 ltac:(lia)) as Hm.
    induction Hall as [|r l [_ Hlo] _ IH]; [reflexivity|].
    cbn [existsb]. rewrite IH, orb_false_r.
    apply andb_false_iff. left. apply Z.leb_gt. lia.
Qed.

Lemma id_filter_masks_witness :
  passes_idRangeList
    (Some [ {| lo := 5; hi := 5; bang := false |} ]) (3221225472 + 5)
  = passes_idRangeList (Some [ {| lo := 5; hi := 5; bang := false |} ]) 5
  /\ passes_idRangeList
       (Some [ {| lo := 70000; hi := 80000; bang := false |} ]) 70000
     = false.
Proof.
  destruct id_filter_masks as [Hsame Hnone]. split.
  - apply Hsame. reflexivity.
  - apply Hnone. repeat constructor.
Defined.

(** ** Comma-separated options *)

Lemma Split_cons s c : exists hd tl, Str.Split s c = hd :: tl.
Proof.
  induction s as [|a s IH]; cbn [Str.Split]; [eauto|].
  destruct (bool_decide (a = c)); [eauto|].
  destruct IH as (hd & tl & ->). eauto.
Qed.

Lemma Join_cons_char a hd tl sep :
  Str.Join (String a hd :: tl) sep = String a (Str.Join (hd :: tl) sep).
Proof. destruct tl; reflexivity. Qed.

(** Joining the pieces with the separator gives the text back. *)
Lemma Join_Split s c : Str.Join (Str.Split s c) (String c EmptyString) = s.
Proof.
  induction s as [|a s IH]; cbn [Str.Split]; [reflexivity|].
  destruct (bool_decide_reflect (a = c)) as [-> | Hne].
  - destruct (Split_cons s c) as (hd & tl & Hs). rewrite Hs in *.
    change (Str.Join (EmptyString :: hd :: tl) (String c EmptyString))
      with (String c (Str.Join (hd :: tl) (String c EmptyString))).
    now rewrite IH.
  - destruct (Split_cons s c) as (hd & tl & Hs). rewrite Hs in *.
    now rewrite Join_cons_char, IH.
Qed.

Lemma Split_no_sep s c :
  Forall (fun t => Str.mem c t = false) (Str.Split s c).
Proof.
  induction s as [|a s IH]; cbn [Str.Split].
  - repeat constructor.
  - destruct (bool_decide_reflect (a = c)) as [-> | Hne].
    + constructor; [reflexivity | exact IH].
    + destruct (Split_cons s c) as (hd & tl & Hs). rewrite Hs in *.
      inversion IH as [|? ? Hhd Htl]; subst. constructor; [|exact Htl].
      cbn [Str.mem]. rewrite Hhd, orb_false_r.
      apply bool_decide_eq_false_2. congruence.
Qed.

(** X4. [stringList] gives the empty list for the empty text and for a
    text that starts with a comma, whatever follows the comma; for every
    other text it gives the comma-separated pieces: none of them holds a
    comma, the first is not empty, and joined with commas they are the
    text again. *)
Theorem stringList_pieces :
  forall s,
    (stringList s = []
     <-> s = EmptyString \/ exists s', s = String ","%char s')
    /\ (stringList s <> [] ->
        Str.Join (stringList s) "," = s
        /\ Forall (fun t => Str.mem ","%char t = false) (stringList s)
        /\ exists l0 l, stringList s = l0 :: l /\ l0 <> EmptyString).
Proof.
  intros s. unfold stringList.
  pose proof (Join_Split s ","%char) as HJ.
  pose proof (Split_no_sep s ","%char) as HF.
  destruct s as [|a s].
  - cbn. split; [split; auto | congruence].
  - cbn [Str.Split] in *.
    destruct (bool_decide_reflect (a = ","%char)) as [-> | Hne].
    + cbn [Str.is_empty]. split; [split; eauto | congruence].
    + destruct (Split_cons s ","%char) as (hd & tl & Hs). rewrite Hs in *.
      cbn [Str.is_empty]. split.
      * split; [discriminate|].
        intros [H | [s' H]]; [discriminate | congruence].
      * intros _. split; [exact HJ|]. split; [exact HF|].
        eexists _, _. split; [reflexivity | discriminate].
Qed.

Lemma stringList_pieces_witness :
  Str.Join (stringList "System,Security") "," = "System,Security"
  /\ stringList ",System" = [].
Proof.
  split.
  - apply (proj2 (stringList_pieces "System,Security")). vm_compute.
    discriminate.
  - apply (proj1 (stringList_pieces ",System")). right. eauto.
Defined.

(** The fields that [prepare] fills: the others are left as they were. *)
Lemma prepare_fields os opts opts' :
  prepare os opts = Ok opts' ->
  exists idrl sp se mp me,
    opts' = set_compiled
              (set_lists opts
                 (match stringList (Opts.Log opts) with
                  | [] => ["Application"]
                  | l0 :: _ => if Str.is_empty l0 then ["Application"]
                               else stringList (Opts.Log opts)
                  end)
                 (stringList (Opts.Type_ opts)))
              idrl sp se mp me.
Proof.
  unfold prepare. cbv zeta.
  destruct (if Str.is_empty _ then _ else _) as [idrl|]; [|discriminate].
  destruct (compile_opt os _ _) as [sp|]; [|discriminate].
  destruct (compile_opt os _ _) as [se|]; [|discriminate].
  destruct (compile_opt os _ _) as [mp|]; [|discriminate].
  destruct (compile_opt os _ _) as [me|]; [|discriminate].
  intros [= <-]. eauto 10.
Qed.

(** X5. After [prepare] there is always a log to scan: the list of logs
    is never empty and its first name is not the empty text; it is
    ["Application"] alone when the log option is empty or starts with a
    comma (the names after that comma are dropped), and the pieces of the
    option otherwise. *)
Theorem prepare_logList :
  forall os opts opts',
    prepare os opts = Ok opts' ->
    (exists l0 l, Opts.logList opts' = l0 :: l /\ l0 <> EmptyString)
    /\ (Opts.Log opts = EmptyString
        \/ (exists s', Opts.Log opts = String ","%char s') ->
        Opts.logList opts' = ["Application"])
    /\ (stringList (Opts.Log opts) <> [] ->
        Opts.logList opts' = stringList (Opts.Log opts)).
Proof.
  intros os opts opts' H.
  apply prepare_fields in H as (idrl & sp & se & mp & me & ->).
  cbn [Opts.logList set_compiled set_lists].
  destruct (stringList_pieces (Opts.Log opts)) as [Hnil Hne].
  destruct (stringList (Opts.Log opts)) as [|l0 l] eqn:Hl.
  - split; [eexists _, _; split; [reflexivity | discriminate]|].
    split; [reflexivity | congruence].
  - destruct (Hne ltac:(discriminate)) as (_ & _ & l0' & l' & [= <- <-] & Hl0).
    destruct l0 as [|a l0]; [congruence|]. cbn [Str.is_empty].
    split; [eexists _, _; split; [reflexivity | discriminate]|].
    split; [|reflexivity].
    intros Hempty. apply Hnil in Hempty. discriminate.
Qed.

Lemma prepare_logList_witness :
  exists opts',
    prepare (Fake.log 1 (Fake.three 1) None) Fake.opts0 = Ok opts'
    /\ Opts.logList opts' = ["Application"].
Proof.
  destruct (prepare (Fake.log 1 (Fake.three 1) None) Fake.opts0)
    as [opts'|err] eqn:H.
  - exists opts'. split; [reflexivity|].
    destruct (prepare_logList _ _ _ H) as (_ & Hdef & _).
    apply Hdef. left. reflexivity.
  - vm_compute in H. discriminate H.
Defined.

(** ** The ID-range parser: what it accepts and what it builds *)

Lemma digit_val_bound c d : Str.digit_val c = Some d -> 0 <= d < 10.
Proof.
  unfold Str.digit_val, Str.is_digit.
  destruct (48 <=? Str.byte_of c) eqn:H1; [|discriminate].
  destruct (Str.byte_of c <=? 57) eqn:H2; [|discriminate].
  cbn [andb]. intros [= <-]. apply Z.leb_le in H1, H2. lia.
Qed.

(** [ParseUint] never gives a number outside its bit size. *)
Lemma ParseUint_loop_bound M s :
  forall n r, 0 <= n <= M ->
    Str.ParseUint_loop M s n = inr r -> n <= r <= M.
Proof.
  induction s as [|c s IH]; intros n r Hn; cbn [Str.ParseUint_loop].
  - intros [= <-]. lia.
  - destruct (Str.digit_val c) as [d|] eqn:Hd; [|discriminate].
    apply digit_val_bound in Hd.
    destruct (Str.cutoff10 <=? n); [discriminate|]. cbv zeta.
    destruct (Int.maxUint64 <? n * 10 + d); [discriminate|].
    destruct (M <? n * 10 + d) eqn:HM; [discriminate|]. cbn [orb].
    apply Z.ltb_ge in HM. intros H.
    apply IH in H; lia.
Qed.

Lemma ParseUint_32_bound s n :
  Str.ParseUint s 32 = Ok n -> Int.is_uint32 n.
Proof.
  unfold Str.ParseUint. destruct (Str.is_empty s); [discriminate|].
  destruct (Str.ParseUint_loop _ s 0) as [k|r] eqn:H; [discriminate|].
  intros [= <-]. apply ParseUint_loop_bound in H.
  - unfold Int.is_uint32, Int.maxUint32. lia.
  - change (2 ^ 32 - 1) with 4294967295. lia.
Qed.

Lemma idRangeList_loop_valid tokens :
  forall idrl l,
    Forall idRange_valid idrl ->
    idRangeList_loop tokens idrl = Ok l ->
    Forall idRange_valid l
    /\ List.length l = (List.length idrl + List.length tokens)%nat.
Proof.
  induction tokens as [|t tokens IH]; intros idrl l Hacc H.
  - injection H as <-. split; [exact Hacc | cbn; lia].
  - cbn [idRangeList_loop] in H. cbv zeta in H.
    set (tt := Str.TrimSpace t) in *.
    set (b := Str.HasPrefix tt "!") in *.
    set (t' := if b then Str.drop 1 tt else tt) in *.
    assert (Hstep : forall id1 id2,
               Int.is_uint32 id1 -> Int.is_uint32 id2 -> id1 <= id2 ->
               idRangeList_loop tokens
                 (idrl ++ [{| lo := Int.uint32 id1; hi := Int.uint32 id2;
                              bang := b |}]) = Ok l ->
               Forall idRange_valid l
               /\ List.length l
                  = (List.length idrl + List.length (t :: tokens))%nat).
    { intros id1 id2 H1 H2 Hle Hl. apply IH in Hl.
      - rewrite length_app in Hl. cbn [List.length] in *.
        split; [tauto | lia].
      - apply Forall_app. split; [exact Hacc|]. constructor; [|constructor].
        unfold idRange_valid. cbn [lo hi].
        rewrite !uint32_id by assumption.
        unfold Int.is_uint32 in *. lia. }
    destruct (rid1 t') as [m1|].
    + destruct (Str.ParseUint m1 32) as [id1|] eqn:P1; [|discriminate].
      apply ParseUint_32_bound in P1. apply (Hstep id1 id1); auto. lia.
    + destruct (rid2 t') as [[m21 m22]|]; [|discriminate].
      destruct (Str.ParseUint m21 32) as [id1|] eqn:P1; [|discriminate].
      destruct (Str.ParseUint m22 32) as [id2|] eqn:P2; [|discriminate].
      apply ParseUint_32_bound in P1, P2.
      destruct (id2 <? id1) eqn:Hlt.
      * apply Z.ltb_lt in Hlt. apply (Hstep id2 id1); auto. lia.
      * apply Z.ltb_ge in Hlt. apply (Hstep id1 id2); auto.
Qed.

(** X6. A list of ranges that [idRangeList] returns has one range for
    each comma-separated token of the text, in order, and every range is
    normalized: 0 <= lo <= hi <= 4294967295. A number above 4294967295 is
    never accepted. *)
Theorem idRangeList_normalized :
  forall s l,
    idRangeList s = Ok l ->
    List.length l = List.length (Str.Split s ","%char)
    /\ Forall idRange_valid l.
Proof.
  intros s l H. unfold idRangeList in H.
  apply idRangeList_loop_valid in H as [Hv Hl]; [|constructor].
  split; [exact Hl | exact Hv].
Qed.

Lemma idRangeList_normalized_witness :
  exists l,
    idRangeList "10-5,!7" = Ok l
    /\ List.length l = 2%nat /\ Forall idRange_valid l.
Proof.
  destruct (idRangeList "10-5,!7") as [l|err] eqn:H.
  - exists l. split; [reflexivity|].
    exact (idRangeList_normalized "10-5,!7" l H).
  - vm_compute in H. discriminate H.
Defined.

Lemma chars_app a b :
  list_ascii_of_string (a +:+ b)
  = list_ascii_of_string a ++ list_ascii_of_string b.
Proof. induction a as [|c a IH]; [reflexivity|]. cbn. now rewrite <- IH. Qed.

Lemma Forall_all_digits s :
  Forall (fun c => Str.is_digit c = true) (list_ascii_of_string s) ->
  all_digits s = true.
Proof.
  induction s as [|c s IH]; cbn; intros H; [reflexivity|].
  inversion H as [|? ? Hc Hs]; subst. now rewrite Hc, IH.
Qed.

(** No white space starts with a digit or with [!], and none ends with a
    digit. *)
Lemma strip_one_digit c s :
  Str.is_digit c = true \/ c = "!"%char ->
  Str.strip_one Str.spaces (String c s) = None.
Proof.
  intros [H | ->]; [|reflexivity].
  destruct c as [[] [] [] [] [] [] [] []]; try discriminate H; reflexivity.
Qed.

Lemma strip_one_rev_digit c s :
  Str.is_digit c = true ->
  Str.strip_one (map String.rev Str.spaces) (String c s) = None.
Proof.
  intros H.
  destruct c as [[] [] [] [] [] [] [] []]; try discriminate H; reflexivity.
Qed.

Lemma TrimSpaceLeft_none n sps s :
  Str.strip_one sps s = None -> Str.TrimSpaceLeft n sps s = s.
Proof. intros H. destruct n; cbn [Str.TrimSpaceLeft]; [|rewrite H]; reflexivity. Qed.

(** A text that starts with a digit or [!] and ends with a digit has no
    white space to trim. *)
Lemma TrimSpace_token c s l d :
  Str.is_digit c = true \/ c = "!"%char ->
  list_ascii_of_string (String c s) = l ++ [d] ->
  Str.is_digit d = true ->
  Str.TrimSpace (String c s) = String c s.
Proof.
  intros Hc Hl Hd. unfold Str.TrimSpace.
  rewrite (TrimSpaceLeft_none _ _ _ (strip_one_digit c s Hc)).
  assert (Hrev : exists s', String.rev (String c s) = String d s').
  { exists (string_of_list_ascii (rev l)).
    rewrite <- (string_of_list_ascii_of_string (String.rev (String c s))).
    rewrite rev_chars, Hl, rev_app_distr. reflexivity. }
  destruct Hrev as [s' Hrev]. rewrite Hrev.
  rewrite (TrimSpaceLeft_none _ _ _ (strip_one_rev_digit d s' Hd)).
  rewrite <- Hrev. apply rev_rev.
Qed.

Lemma digits_last s :
  s <> EmptyString ->
  Forall (fun c => Str.is_digit c = true) (list_ascii_of_string s) ->
  exists l d, list_ascii_of_string s = l ++ [d] /\ Str.is_digit d = true.
Proof.
  intros Hne HF.
  destruct (list_ascii_of_string s) as [|c0 l0] eqn:Hl using rev_ind.
  - destruct s; [congruence | discriminate].
  - exists l0, c0. split; [reflexivity|].
    apply Forall_app in HF as [_ HF]. now inversion HF.
Qed.

Lemma span_digits_dash a b :
  all_digits a = true ->
  span_digits (a +:+ String "-"%char b) = (a, String "-"%char b).
Proof.
  induction a as [|c a IH]; intros H; [reflexivity|].
  cbn in H. apply andb_prop in H as [Hc Ha].
  rewrite append_cons. cbn [span_digits]. now rewrite Hc, (IH Ha).
Qed.

Lemma all_digits_dash a b : all_digits (a +:+ String "-"%char b) = false.
Proof.
  induction a as [|c a IH]; [reflexivity|].
  rewrite append_cons. cbn [all_digits]. rewrite IH. apply andb_false_r.
Qed.

Lemma is_empty_false s : s <> EmptyString -> Str.is_empty s = false.
Proof. destruct s; [congruence | reflexivity]. Qed.

Lemma ParseUint_FormatUint n :
  0 <= n <= Int.maxUint32 -> Str.ParseUint (Str.FormatUint n) 32 = Ok n.
Proof.
  intros Hn. unfold Int.maxUint32 in Hn.
  change (2 ^ 32 - 1) with 4294967295 in Hn.
  destruct (FormatUint_digits n ltac:(lia)) as [Hne _].
  unfold Str.ParseUint. rewrite (is_empty_false _ Hne).
  change (2 ^ 32 - 1) with 4294967295.
  rewrite ParseUint_loop_FormatUint; [reflexivity | lia | vm_compute; discriminate].
Qed.

(** The number, and the pair, as the two patterns see them. *)
Lemma rid1_FormatUint n : 0 <= n -> rid1 (Str.FormatUint n) = Some (Str.FormatUint n).
Proof.
  intros Hn. destruct (FormatUint_digits n Hn) as [Hne Hd].
  unfold rid1. now rewrite (is_empty_false _ Hne), (Forall_all_digits _ Hd).
Qed.

Lemma rid_pair n m :
  0 <= n -> 0 <= m ->
  let t := Str.FormatUint n +:+ "-" +:+ Str.FormatUint m in
  rid1 t = None /\ rid2 t = Some (Str.FormatUint n, Str.FormatUint m).
Proof.
  intros Hn Hm t. subst t.
  destruct (FormatUint_digits n Hn) as [Hne Hd].
  destruct (FormatUint_digits m Hm) as [Hme Hmd].
  change ("-" +:+ Str.FormatUint m) with (String "-"%char (Str.FormatUint m)).
  split.
  - unfold rid1. now rewrite all_digits_dash, andb_false_r.
  - unfold rid2. rewrite (span_digits_dash _ _ (Forall_all_digits _ Hd)).
    rewrite (is_empty_false _ Hne), (is_empty_false _ Hme),
      (Forall_all_digits _ Hmd).
    reflexivity.
Qed.

Lemma FormatUint_head n :
  0 <= n ->
  exists c s, Str.FormatUint n = String c s /\ Str.is_digit c = true.
Proof.
  intros Hn. destruct (FormatUint_digits n Hn) as [Hne Hd].
  destruct (Str.FormatUint n) as [|c s]; [congruence|].
  exists c, s. split; [reflexivity|]. now inversion Hd.
Qed.

(** The number part of a range text: it starts and ends with a digit. *)
Lemma number_text_shape (r : idRange) :
  idRange_valid r ->
  let body := if lo r =? hi r then Str.FormatUint (lo r)
              else Str.FormatUint (lo r) +:+ "-" +:+ Str.FormatUint (hi r) in
  (exists c s, body = String c s /\ Str.is_digit c = true)
  /\ (exists l d, list_ascii_of_string body = l ++ [d]
                  /\ Str.is_digit d = true).
Proof.
  intros (Hlo & Hle & Hhi) body. subst body.
  destruct (FormatUint_head (lo r) Hlo) as (c & s & Hc & Hdc).
  destruct (FormatUint_digits (lo r) Hlo) as [Hne Hd].
  destruct (FormatUint_digits (hi r) ltac:(lia)) as [Hne' Hd'].
  destruct (lo r =? hi r).
  - split; [eauto|]. now apply digits_last.
  - split.
    + rewrite Hc, append_cons. eauto.
    + destruct (digits_last _ Hne' Hd') as (l & d & Hl & Hdd).
      exists (list_ascii_of_string (Str.FormatUint (lo r)) ++ "-"%char :: l), d.
      split; [|exact Hdd].
      rewrite !chars_app, Hl. cbn. now rewrite <- app_assoc.
Qed.

Lemma digit_not_bang c : Str.is_digit c = true -> c <> "!"%char.
Proof. intros H ->. vm_compute in H. discriminate. Qed.

(** One range text, read by the loop of [idRangeList]: the range is
    appended as it was. *)
Lemma idRangeList_loop_text r tokens idrl :
  idRange_valid r ->
  idRangeList_loop (idRange_text r :: tokens) idrl
  = idRangeList_loop tokens (idrl ++ [r]).
Proof.
  intros Hv.
  destruct (number_text_shape r Hv) as [(c & s & Hbody & Hc) (l & d & Hl & Hd)].
  destruct Hv as (Hlo & Hle & Hhi).
  cbv zeta in Hbody, Hl.
  set (body := if lo r =? hi r then Str.FormatUint (lo r)
               else Str.FormatUint (lo r) +:+ "-" +:+ Str.FormatUint (hi r))
    in *.
  assert (Htext : idRange_text r
                  = (if bang r then "!" else EmptyString) +:+ body)
    by reflexivity.
  assert (Htrim : Str.TrimSpace (idRange_text r) = idRange_text r).
  { rewrite Htext. destruct (bang r).
    - change ("!" +:+ body) with (String "!"%char body).
      apply (TrimSpace_token _ _ ("!"%char :: l) d); auto.
      cbn. now rewrite Hl.
    - change (EmptyString +:+ body) with body. rewrite Hbody in *.
      apply (TrimSpace_token _ _ l d); auto. }
  assert (Hbang : Str.HasPrefix (idRange_text r) "!" = bang r
                  /\ (if bang r then Str.drop 1 (idRange_text r)
                      else idRange_text r) = body).
  { rewrite Htext. destruct (bang r).
    - split; reflexivity.
    - change (EmptyString +:+ body) with body. split; [|reflexivity].
      rewrite Hbody. cbn.
      rewrite bool_decide_eq_false_2; [reflexivity|].
      intros He. symmetry in He. now apply digit_not_bang in He. }
  destruct Hbang as [Hb Hdrop].
  cbn [idRangeList_loop]. cbv zeta. rewrite Htrim, Hb, Hdrop.
  assert (Hr : forall x y, x = lo r -> y = hi r ->
                {| lo := Int.uint32 x; hi := Int.uint32 y; bang := bang r |}
                = r).
  { intros x y -> ->. rewrite !uint32_id; [now destruct r | |];
      unfold Int.is_uint32; lia. }
  subst body. destruct (lo r =? hi r) eqn:Heq.
  - apply Z.eqb_eq in Heq.
    rewrite (rid1_FormatUint _ Hlo), ParseUint_FormatUint by lia.
    now rewrite (Hr (lo r) (lo r) eq_refl Heq).
  - apply Z.eqb_neq in Heq.
    destruct (rid_pair (lo r) (hi r) Hlo ltac:(lia)) as [H1 H2].
    cbv zeta in H1, H2. rewrite H1, H2.
    rewrite !ParseUint_FormatUint by lia.
    assert (Hlt : (hi r <? lo r) = false) by (apply Z.ltb_ge; lia).
    now rewrite Hlt, (Hr (lo r) (hi r) eq_refl eq_refl).
Qed.

Lemma idRangeList_loop_texts (l : list idRange) :
  forall idrl,
    Forall idRange_valid l ->
    idRangeList_loop (map idRange_text l) idrl = Ok (idrl ++ l).
Proof.
  induction l as [|r l IH]; intros idrl Hall; cbn [map].
  - cbn. now rewrite app_nil_r.
  - inversion Hall as [|? ? Hr Hl]; subst.
    rewrite (idRangeList_loop_text r _ idrl Hr), (IH _ Hl), <- app_assoc.
    reflexivity.
Qed.

(** Splitting what was joined gives the pieces back, when no piece holds
    the separator. *)
Lemma Split_piece a c r :
  Str.mem c a = false ->
  Str.Split (a +:+ String c r) c = a :: Str.Split r c.
Proof.
  induction a as [|x a IH]; intros H.
  - change (EmptyString +:+ String c r) with (String c r).
    cbn [Str.Split]. now rewrite bool_decide_eq_true_2.
  - cbn [Str.mem] in H. apply orb_false_iff in H as [Hx Ha].
    apply bool_decide_eq_false in Hx.
    rewrite append_cons. cbn [Str.Split].
    rewrite bool_decide_eq_false_2 by congruence.
    now rewrite (IH Ha).
Qed.

Lemma Split_whole a c : Str.mem c a = false -> Str.Split a c = [a].
Proof.
  induction a as [|x a IH]; intros H; [reflexivity|].
  cbn [Str.mem] in H. apply orb_false_iff in H as [Hx Ha].
  apply bool_decide_eq_false in Hx. cbn [Str.Split].
  rewrite bool_decide_eq_false_2 by congruence. now rewrite (IH Ha).
Qed.

Lemma Split_Join (l : list string) c :
  l <> [] -> Forall (fun t => Str.mem c t = false) l ->
  Str.Split (Str.Join l (String c EmptyString)) c = l.
Proof.
  induction l as [|a l IH]; intros Hne Hall; [congruence|].
  inversion Hall as [|? ? Ha Hl]; subst.
  destruct l as [|b l].
  - cbn [Str.Join]. now apply Split_whole.
  - change (Str.Join (a :: b :: l) (String c EmptyString))
      with (a +:+ String c (Str.Join (b :: l) (String c EmptyString))).
    rewrite (Split_piece _ _ _ Ha), IH; [reflexivity | discriminate | exact Hl].
Qed.

Lemma mem_app c a b : Str.mem c (a +:+ b) = Str.mem c a || Str.mem c b.
Proof.
  induction a as [|x a IH]; [reflexivity|].
  rewrite append_cons. cbn [Str.mem]. now rewrite IH, orb_assoc.
Qed.

Lemma digits_no_comma s :
  Forall (fun c => Str.is_digit c = true) (list_ascii_of_string s) ->
  Str.mem ","%char s = false.
Proof.
  induction s as [|c s IH]; cbn; intros H; [reflexivity|].
  inversion H as [|? ? Hc Hs]; subst. rewrite (IH Hs), orb_false_r.
  apply bool_decide_eq_false_2. intros He.
  rewrite <- He in Hc. vm_compute in Hc. discriminate.
Qed.

Lemma idRange_text_no_comma r :
  idRange_valid r -> Str.mem ","%char (idRange_text r) = false.
Proof.
  intros (Hlo & Hle & Hhi). unfold idRange_text.
  destruct (FormatUint_digits (lo r) Hlo) as [_ Hd].
  destruct (FormatUint_digits (hi r) ltac:(lia)) as [_ Hd'].
  rewrite mem_app.
  destruct (bang r), (lo r =? hi r); cbn [orb];
    rewrite ?mem_app, ?(digits_no_comma _ Hd), ?(digits_no_comma _ Hd');
    reflexivity.
Qed.

(** X7. The parser reads back what was written: for every non-empty
    list of normalized ranges (0 <= lo <= hi <= 4294967295), the
    comma-separated text of the ranges (the number, or "lo-hi", after
    "!" when negated) parses to that very list. *)
Theorem idRangeList_reads_back :
  forall l : list idRange,
    l <> [] -> Forall idRange_valid l ->
    idRangeList (Str.Join (map idRange_text l) ",") = Ok l.
Proof.
  intros l Hne Hall. unfold idRangeList.
  rewrite Split_Join.
  - now rewrite idRangeList_loop_texts.
  - destruct l; [congruence | discriminate].
  - apply Forall_map. eapply Forall_impl; [exact Hall|].
    intros r. apply idRange_text_no_comma.
Qed.

Lemma idRangeList_reads_back_witness :
  let l := [ {| lo := 1; hi := 1; bang := false |};
             {| lo := 5; hi := 4294967295; bang := true |} ] in
  Str.Join (map idRange_text l) "," = "1,!5-4294967295"
  /\ idRangeList "1,!5-4294967295" = Ok l.
Proof.
  cbv zeta. split; [vm_compute; reflexivity|].
  apply (idRangeList_reads_back
           [ {| lo := 1; hi := 1; bang := false |};
             {| lo := 5; hi := 4294967295; bang := true |} ]).
  - discriminate.
  - repeat constructor; vm_compute; discriminate.
Defined.

(** ** The name of the state file *)

(** X8. The drive prefix of a log name is rewritten once and for all:
    rewriting again changes nothing; an upper-case drive letter followed
    by ":/" or by ":\" gives the same name, so the two spellings share
    one state file; any other name, a lower-case drive letter included,
    is left as it is. *)
Theorem stateRe_rewrites_drive :
  (forall logName,
      stateRe_ReplaceAllString (stateRe_ReplaceAllString logName)
      = stateRe_ReplaceAllString logName)
  /\ (forall os opts c rest,
        65 <= Str.byte_of c <= 90 ->
        getStateFile os opts (String c (String ":"%char (String "/"%char rest)))
        = getStateFile os opts (String c (String ":"%char (String "\"%char rest)))
        /\ stateRe_ReplaceAllString
             (String c (String ":"%char (String "/"%char rest)))
           = String c (String "\"%char rest))
  /\ (forall c s,
        ~ 65 <= Str.byte_of c <= 90 ->
        stateRe_ReplaceAllString (String c s) = String c s).
Proof.
  split; [|split].
  - intros logName.
    assert (H : forall c rest,
               stateRe_ReplaceAllString (String c (String "\"%char rest))
               = String c (String "\"%char rest)).
    { intros c rest. unfold stateRe_ReplaceAllString.
      destruct rest as [|x rest]; [reflexivity|].
      destruct ((65 <=? Str.byte_of c) && (Str.byte_of c <=? 90));
        reflexivity. }
    remember (stateRe_ReplaceAllString logName) as t eqn:Ht.
    unfold stateRe_ReplaceAllString in Ht.
    destruct logName as [|c [|colon [|sep rest]]]; subst t; try reflexivity.
    destruct (_ && _) eqn:Hc; [apply H|].
    unfold stateRe_ReplaceAllString. now rewrite Hc.
  - intros os opts c rest Hc.
    assert (Hup : (65 <=? Str.byte_of c) && (Str.byte_of c <=? 90) = true).
    { apply andb_true_intro. split; apply Z.leb_le; lia. }
    assert (H : forall sep, sep = "/"%char \/ sep = "\"%char ->
                stateRe_ReplaceAllString (String c (String ":"%char (String sep rest)))
                = String c (String "\"%char rest)).
    { intros sep Hsep. unfold stateRe_ReplaceAllString. rewrite Hup.
      destruct Hsep as [-> | ->]; reflexivity. }
    split; [|apply H; auto].
    unfold getStateFile. now rewrite !H by auto.
  - intros c s Hc. unfold stateRe_ReplaceAllString.
    destruct s as [|colon [|sep rest]]; try reflexivity.
    assert (Hup : (65 <=? Str.byte_of c) && (Str.byte_of c <=? 90) = false).
    { apply andb_false_iff.
      destruct (Z.leb_spec 65 (Str.byte_of c)); [right|left; reflexivity].
      apply Z.leb_gt. lia. }
    now rewrite Hup.
Qed.

Lemma stateRe_rewrites_drive_witness :
  stateRe_ReplaceAllString "C:/logs/app.evt" = "C\logs/app.evt"
  /\ stateRe_ReplaceAllString "c:\logs" = "c:\logs".
Proof.
  destruct stateRe_rewrites_drive as (_ & Hdrive & Hother). split.
  - apply (Hdrive (Fake.log 1 [] None) Fake.opts0). vm_compute.
    split; discriminate.
  - apply Hother. vm_compute. intros [_ H]. apply H. reflexivity.
Defined.

(** ** The state file: what is read from it *)

Lemma rev_append a b :
  String.rev (a +:+ b) = String.rev b +:+ String.rev a.
Proof.
  rewrite <- (string_of_list_ascii_of_string (String.rev (a +:+ b))).
  rewrite <- (string_of_list_ascii_of_string (String.rev b +:+ String.rev a)).
  f_equal. now rewrite chars_app, !rev_chars, chars_app, rev_app_distr.
Qed.

Lemma TrimLeft_skip pre x cutset :
  Forall (fun c => Str.mem c cutset = true) (list_ascii_of_string pre) ->
  Str.TrimLeft (pre +:+ x) cutset = Str.TrimLeft x cutset.
Proof.
  induction pre as [|c pre IH]; intros H; [reflexivity|].
  cbn in H. inversion H as [|? ? Hc Hpre]; subst.
  rewrite append_cons. cbn [Str.TrimLeft]. rewrite Hc. now apply IH.
Qed.

Lemma TrimLeft_head c s x cutset :
  Str.mem c cutset = false ->
  Str.TrimLeft (String c s +:+ x) cutset = String c s +:+ x.
Proof. intros H. rewrite append_cons. cbn [Str.TrimLeft]. now rewrite H. Qed.

(** [Trim] removes the padding and nothing of what it surrounds. *)
Lemma Trim_padded pre s post cutset :
  s <> EmptyString ->
  Forall (fun c => Str.mem c cutset = false) (list_ascii_of_string s) ->
  Forall (fun c => Str.mem c cutset = true) (list_ascii_of_string pre) ->
  Forall (fun c => Str.mem c cutset = true) (list_ascii_of_string post) ->
  Str.Trim (pre +:+ s +:+ post) cutset = s.
Proof.
  intros Hne Hs Hpre Hpost. unfold Str.Trim, Str.TrimRight.
  rewrite (TrimLeft_skip _ _ _ Hpre).
  destruct s as [|c s]; [congruence|].
  assert (Hc : Str.mem c cutset = false) by now inversion Hs.
  rewrite (TrimLeft_head _ _ _ _ Hc).
  rewrite rev_append, TrimLeft_skip
    by (rewrite rev_chars; now apply Forall_rev).
  rewrite TrimLeft_id by (rewrite rev_chars; now apply Forall_rev).
  apply rev_rev.
Qed.

Lemma FormatInt_nonempty n : Str.FormatInt n <> EmptyString.
Proof.
  unfold Str.FormatInt. destruct (n <? 0) eqn:Hn; [discriminate|].
  apply Z.ltb_ge in Hn. now apply FormatUint_digits.
Qed.

(** X9. Spaces, carriage returns and newlines around the number in a
    state file do not matter: whatever such padding surrounds the
    decimal text of an [int64], [getLastOffset] returns that number. *)
Theorem getLastOffset_ignores_padding :
  forall os (fs : gmap string string) f n pre post,
    Int.is_int64 n ->
    Forall (fun c => Str.mem c (Str.bytes [32; 13; 10]) = true)
           (list_ascii_of_string pre) ->
    Forall (fun c => Str.mem c (Str.bytes [32; 13; 10]) = true)
           (list_ascii_of_string post) ->
    Stat_fault os f = None -> ReadFile_fault os f = None ->
    fs !! f = Some (pre +:+ Str.FormatInt n +:+ post) ->
    getLastOffset os fs f = (n, None).
Proof.
  intros os fs f n pre post Hn Hpre Hpost Hs Hr Hf.
  unfold getLastOffset, os_Stat, ioutil_ReadFile. rewrite Hs, Hr, Hf.
  rewrite (Trim_padded pre (Str.FormatInt n) post _
             (FormatInt_nonempty n) (FormatInt_not_cut n) Hpre Hpost).
  now rewrite (ParseInt_FormatInt n Hn).
Qed.

Lemma getLastOffset_ignores_padding_witness :
  getLastOffset (Fake.log 1 [] None)
    {[ Fake.stateFile := Str.bytes [32] +:+ Str.FormatInt (-42)
                         +:+ Str.bytes [13; 10] ]}
    Fake.stateFile
  = (-42, None).
Proof.
  apply (getLastOffset_ignores_padding _ _ _ (-42) (Str.bytes [32])
           (Str.bytes [13; 10])).
  - vm_compute. split; discriminate.
  - repeat constructor.
  - repeat constructor.
  - reflexivity.
  - reflexivity.
  - apply lookup_singleton_eq.
Defined.

Lemma TrimLeft_all s cutset :
  Forall (fun c => Str.mem c cutset = true) (list_ascii_of_string s) ->
  Str.TrimLeft s cutset = EmptyString.
Proof.
  induction s as [|c s IH]; intros H; [reflexivity|].
  cbn in H. inversion H as [|? ? Hc Hs]; subst.
  cbn [Str.TrimLeft]. rewrite Hc. now apply IH.
Qed.

(** X10. A state file that is empty, or holds nothing but spaces,
    carriage returns and newlines, is not a first run: [getLastOffset]
    fails with a syntax error, [searchLog] returns that error with zero
    counts before the log is opened, leaving files, log lines and reads
    as they were, and a run that gets to this log reports Unknown. *)
Theorem blank_state_file_is_an_error :
  forall os opts logName st b,
    Opts.NoState opts = false ->
    Forall (fun c => Str.mem c (Str.bytes [32; 13; 10]) = true)
           (list_ascii_of_string b) ->
    Stat_fault os (getStateFile os opts logName) = None ->
    ReadFile_fault os (getStateFile os opts logName) = None ->
    files st !! getStateFile os opts logName = Some b ->
    let err := NumError "ParseInt" EmptyString ErrSyntax in
    getLastOffset os (files st) (getStateFile os opts logName) = (0, Some err)
    /\ searchLog os opts logName st
       = (Returns (0, 0, EmptyString, Some err), st)
    /\ forall logs t,
        run_logs os opts (logName :: logs) t st = (RunError err, st).
Proof.
  intros os opts logName st b Hns Hb Hs Hr Hf err.
  assert (Hg : getLastOffset os (files st) (getStateFile os opts logName)
               = (0, Some err)).
  { unfold getLastOffset, os_Stat, ioutil_ReadFile. rewrite Hs, Hr, Hf.
    unfold Str.Trim, Str.TrimRight. now rewrite (TrimLeft_all _ _ Hb). }
  assert (Hsl : searchLog os opts logName st
                = (Returns (0, 0, EmptyString, Some err), st)).
  { unfold searchLog, load_recordNumber. now rewrite Hns, Hg. }
  split; [exact Hg|]. split; [exact Hsl|].
  intros logs t. now apply run_logs_error with (w := 0) (c := 0)
                                               (errLines := EmptyString).
Qed.

Lemma blank_state_file_is_an_error_witness :
  fst (run (Fake.log 1 (Fake.three 1) None) []
         (Fake.st0 (Some (Str.bytes [10]))))
  = Returns (Unknown (NumError "ParseInt" EmptyString ErrSyntax)).
Proof.
  destruct (blank_state_file_is_an_error
              (Fake.log 1 (Fake.three 1) None) Fake.opts0 "Application"
              (Fake.st0 (Some (Str.bytes [10]))) (Str.bytes [10]))
    as (_ & _ & Hrun).
  - reflexivity.
  - repeat constructor.
  - reflexivity.
  - reflexivity.
  - vm_compute. reflexivity.
  - unfold run.
    change (parseArgs (Fake.log 1 (Fake.three 1) None) [])
      with (Fake.opts0, @None error).
    cbv beta iota.
    change (prepare (Fake.log 1 (Fake.three 1) None) Fake.opts0)
      with (Ok Fake.opts0).
    cbv beta iota.
    change (Opts.logList Fake.opts0) with ["Application"].
    now rewrite Hrun.
Defined.

(** ** The scan of one log: what every scan keeps *)

Lemma reported_oldnum_range os h : Int.is_uint32 (reported_oldnum os h).
Proof.
  unfold reported_oldnum. destruct (GetOldestEventLogRecord os h).
  - apply uint32_range.
  - unfold Int.is_uint32, Int.maxUint32. lia.
Qed.

(** The five ways of [searchLog]: the state cannot be read; the log
    cannot be opened; the first run; nothing new; the loop. *)
Lemma searchLog_cases os opts logName st :
  let f := getStateFile os opts logName in
  (exists err, searchLog os opts logName st
               = (Returns (0, 0, EmptyString, Some err), st))
  \/ (exists err, searchLog os opts logName st
                  = (Exits 1, log_Print (LogFatal err) st))
  \/ (Opts.NoState opts = false
      /\ exists n, searchLog os opts logName st
                   = (Returns (0, 0, EmptyString,
                               snd (writeLastOffset os (files st) f n)),
                      set_files (fst (writeLastOffset os (files st) f n)) st))
  \/ searchLog os opts logName st = (Returns (0, 0, EmptyString, None), st)
  \/ (exists h start n last0,
         Z.of_nat n <= 2 ^ 32
         /\ searchLog os opts logName st
            = match loop_events os opts logName h n start
                      {| warnNum := 0; critNum := 0; errLines := EmptyString;
                         lastNumber := last0; size := 1 |} st with
              | LoopReturn err st' =>
                  (Returns (0, 0, EmptyString, Some err), st')
              | LoopPanic st' => (Panics, st')
              | LoopDone sc st' => finish_scan os opts f start sc st'
              end).
Proof.
  intros f. unfold searchLog. fold f.
  destruct (load_recordNumber os opts st f) as [err|rn]; [eauto|].
  destruct (OpenEventLog os logName) as [h|err]; [|eauto].
  cbv zeta.
  destruct ((rn =? 0) && negb (Opts.NoState opts)
            && negb (Opts.FailFirst opts)) eqn:Hb.
  - right. right. left.
    apply andb_prop in Hb as [Hb _]. apply andb_prop in Hb as [_ Hns].
    apply negb_true_iff in Hns. split; [exact Hns|].
    exists (Int.int64 (Int.uint32 (reported_oldnum os h
                                   + reported_num os h - 1))).
    now destruct (writeLastOffset _ _ _ _).
  - destruct ((reported_oldnum os h <=? rn)
              && (rn =? Int.uint32 (reported_oldnum os h
                                    + reported_num os h - 1)));
      [do 3 right; left; reflexivity|].
    do 4 right. eexists h, _, _, _. split; [|reflexivity].
    pose proof (uint32_range (reported_oldnum os h + reported_num os h)) as H1.
    pose proof (uint32_range (rn + 1)) as H2.
    pose proof (reported_oldnum_range os h) as H3.
    unfold Int.is_uint32, Int.maxUint32 in *.
    destruct (reported_oldnum os h <=? rn); lia.
Qed.

Lemma loop_body_files os opts logName h i sc st :
  files (step_state (loop_body os opts logName h i sc st)) = files st.
Proof.
  unfold loop_body, call_ReadEventLog.
  destruct (ReadEventLog os _ h _ i (size sc)) as [r | err nextSize].
  - destruct (process_record _ _ _ _ _ _) as [sc' st'] eqn:Hp.
    cbn [step_state]. change st' with (snd (sc', st')). rewrite <- Hp.
    now rewrite process_record_files.
  - destruct (negb (is_errno err ERROR_INSUFFICIENT_BUFFER)).
    + destruct (negb (is_errno err errorInvalidParameter)); reflexivity.
    + cbv zeta. destruct (Int.uint32 nextSize =? 0); [reflexivity|].
      destruct (ReadEventLog os _ h _ i (Int.uint32 nextSize)) as [r | err2 n2].
      * destruct (process_record _ _ _ _ _ _) as [sc' st'] eqn:Hp.
        cbn [step_state]. change st' with (snd (sc', st')). rewrite <- Hp.
        now rewrite process_record_files.
      * reflexivity.
Qed.

Lemma loop_events_files os opts logName h n :
  forall i sc st,
    files (end_state (loop_events os opts logName h n i sc st)) = files st.
Proof.
  induction n as [|n IH]; intros i sc st; cbn [loop_events]; [reflexivity|].
  pose proof (loop_body_files os opts logName h i sc st) as Hb.
  destruct (loop_body os opts logName h i sc st); cbn [step_state] in Hb;
    cbn [end_state]; try exact Hb.
  now rewrite IH.
Qed.

Lemma writeLastOffset_frame os (fs : gmap string string) f num f' :
  f' <> f -> fst (writeLastOffset os fs f num) !! f' = fs !! f'.
Proof.
  intros Hne. unfold writeLastOffset, ioutil_WriteFile.
  destruct (MkdirAll_fault os _); [reflexivity|].
  destruct (WriteFile_fault os f); [reflexivity|].
  cbn [fst]. now apply lookup_insert_ne.
Qed.

Lemma finish_scan_files os opts f rn sc st :
  (forall f', f' <> f ->
      files (snd (finish_scan os opts f rn sc st)) !! f' = files st !! f')
  /\ (Opts.NoState opts = true ->
      files (snd (finish_scan os opts f rn sc st)) = files st).
Proof.
  unfold finish_scan. split.
  - intros f' Hne. destruct (negb (Opts.NoState opts)).
    + pose proof (writeLastOffset_frame os (files st) f
                    (Int.int64 (lastNumber sc)) f' Hne) as Hw.
      destruct (writeLastOffset _ _ _ _) as [fs [e|]]; cbn [fst] in Hw;
        destruct (_ && _); exact Hw.
    + destruct (_ && _); reflexivity.
  - intros ->. cbn [negb]. destruct (_ && _); reflexivity.
Qed.

(** X11. Whatever a scan meets, it changes no file but its own state
    file; and with state persistence disabled it changes no file at
    all. *)
Theorem searchLog_writes_only_its_state_file :
  forall os opts logName st,
    (forall f, f <> getStateFile os opts logName ->
        files (snd (searchLog os opts logName st)) !! f = files st !! f)
    /\ (Opts.NoState opts = true ->
        files (snd (searchLog os opts logName st)) = files st).
Proof.
  intros os opts logName st.
  destruct (searchLog_cases os opts logName st)
    as [[e ->] | [[e ->] | [[Hns [n ->]] | [-> | (h & start & n & l0 & _ & ->)]]]];
    cbn [snd files log_Print set_files]; try (split; reflexivity).
  - split; [intros f Hf; now apply writeLastOffset_frame | congruence].
  - pose proof (loop_events_files os opts logName h n start
                  {| warnNum := 0; critNum := 0; errLines := EmptyString;
                     lastNumber := l0; size := 1 |} st) as Hl.
    destruct (loop_events _ _ _ _ _ _ _ _) as [sc' st'|e st'|st'];
      cbn [end_state snd] in *; try (rewrite Hl; split; reflexivity).
    destruct (finish_scan_files os opts (getStateFile os opts logName)
                start sc' st') as [H1 H2].
    rewrite <- Hl. split; assumption.
Qed.

Lemma searchLog_writes_only_its_state_file_witness :
  files (snd (searchLog (Fake.log 1 (Fake.three 1) None) Fake.opts0
                "Application"
                {| files := {[ "other" := "kept" ]}; logged := [];
                   reads := [] |})) !! "other"
  = Some "kept".
Proof.
  rewrite (proj1 (searchLog_writes_only_its_state_file
                    (Fake.log 1 (Fake.three 1) None) Fake.opts0
                    "Application" _)).
  - reflexivity.
  - vm_compute. discriminate.
Defined.

(** ** Counts and content *)

Lemma tally_counts tn sc e :
  0 <= warnNum sc -> 0 <= critNum sc ->
  warnNum sc + critNum sc + 1 <= Int.maxInt64 ->
  let sc' := tally tn sc e in
  warnNum sc <= warnNum sc' /\ critNum sc <= critNum sc'
  /\ warnNum sc' + critNum sc' <= warnNum sc + critNum sc + 1.
Proof.
  intros Hw Hc Hmax. unfold tally. cbn [warnNum critNum].
  assert (Hi : forall x, 0 <= x -> x + 1 <= Int.maxInt64 ->
                         Int.int64 (x + 1) = x + 1).
  { intros x H0 H1. apply int64_id.
    unfold Int.is_int64, Int.minInt64, Int.maxInt64 in *. lia. }
  unfold Str.eqb.
  destruct (bool_decide_reflect (tn = "Warning")) as [-> | _].
  - change (bool_decide ("Warning" = "Error")) with false.
    change (bool_decide ("Warning" = "Audit Failure")) with false.
    cbn [orb]. rewrite Hi by lia. lia.
  - destruct (_ || _); [rewrite Hi by lia|]; lia.
Qed.

Lemma process_record_counts os opts logName r sc st :
  0 <= warnNum sc -> 0 <= critNum sc ->
  warnNum sc + critNum sc + 1 <= Int.maxInt64 ->
  let sc' := fst (process_record os opts logName r sc st) in
  warnNum sc <= warnNum sc' /\ critNum sc <= critNum sc'
  /\ warnNum sc' + critNum sc' <= warnNum sc + critNum sc + 1.
Proof.
  intros Hw Hc Hmax sc'. subst sc'.
  rewrite process_record_filters. cbv zeta.
  destruct (passes_filters _ _ _ _ _).
  - apply (tally_counts _ (set_lastNumber _ sc)); assumption.
  - cbn [set_lastNumber warnNum critNum]. lia.
Qed.

(** One turn of the loop adds at most one to the two counts together,
    and takes nothing away. *)
Lemma loop_body_counts os opts logName h i sc st :
  0 <= warnNum sc -> 0 <= critNum sc ->
  warnNum sc + critNum sc + 1 <= Int.maxInt64 ->
  match loop_body os opts logName h i sc st with
  | Continue sc' _ | Break sc' _ =>
      warnNum sc <= warnNum sc' /\ critNum sc <= critNum sc'
      /\ warnNum sc' + critNum sc' <= warnNum sc + critNum sc + 1
  | _ => True
  end.
Proof.
  intros Hw Hc Hmax. unfold loop_body, call_ReadEventLog.
  destruct (ReadEventLog os _ h _ i (size sc)) as [r | err nextSize].
  - pose proof (process_record_counts os opts logName r sc
                  (count_read {| call_flags := if i =? 0 then SEQUENTIAL_READ
                                               else SEEK_READ;
                                 call_offset := i; call_size := size sc;
                                 call_again := false |} st) Hw Hc Hmax) as H.
    cbv zeta in H. now destruct (process_record _ _ _ _ _ _).
  - destruct (negb (is_errno err ERROR_INSUFFICIENT_BUFFER)).
    + destruct (negb (is_errno err errorInvalidParameter)); [exact I | lia].
    + cbv zeta. destruct (Int.uint32 nextSize =? 0); [exact I|].
      destruct (ReadEventLog os _ h _ i (Int.uint32 nextSize)) as [r | err2 n2].
      * match goal with
        | |- context [process_record os opts logName r ?s ?t] =>
            pose proof (process_record_counts os opts logName r s t Hw Hc Hmax)
              as H; cbv zeta in H;
            destruct (process_record os opts logName r s t)
        end.
        exact H.
      * cbn [set_size warnNum critNum]. lia.
Qed.

Lemma loop_events_counts os opts logName h n :
  forall i sc st,
    0 <= warnNum sc -> 0 <= critNum sc ->
    warnNum sc + critNum sc + Z.of_nat n <= Int.maxInt64 ->
    match loop_events os opts logName h n i sc st with
    | LoopDone sc' st' =>
        warnNum sc <= warnNum sc' /\ critNum sc <= critNum sc'
        /\ warnNum sc' + critNum sc' - (warnNum sc + critNum sc)
           <= Z.of_nat (List.length (visited st'))
              - Z.of_nat (List.length (visited st))
    | _ => True
    end.
Proof.
  induction n as [|n IH]; intros i sc st Hw Hc Hmax; cbn [loop_events].
  - lia.
  - pose proof (loop_body_counts os opts logName h i sc st Hw Hc
                  ltac:(lia)) as Hb.
    pose proof (loop_body_visited os opts logName h i sc st) as Hv.
    destruct (loop_body os opts logName h i sc st) as [sc1 st1|sc1 st1|e st1|st1];
      cbn [step_state] in Hv; try exact I.
    + specialize (IH (i + 1) sc1 st1 ltac:(lia) ltac:(lia) ltac:(lia)).
      destruct (loop_events _ _ _ _ n _ _ _) as [sc' st'| |]; try exact I.
      rewrite Hv, length_app in IH. cbn [List.length] in IH. lia.
    + rewrite Hv, length_app. cbn [List.length]. lia.
Qed.

(** X12. Every record is counted at most once: the warning and critical
    counts that a scan returns are not negative, and together they are at
    most the number of record numbers the scan visited. *)
Theorem counts_at_most_visited :
  forall os opts logName st w c l e st',
    searchLog os opts logName st = (Returns (w, c, l, e), st') ->
    0 <= w /\ 0 <= c
    /\ w + c <= Z.of_nat (List.length (visited st'))
                - Z.of_nat (List.length (visited st)).
Proof.
  intros os opts logName st w c l e st' H.
  assert (Hsame : forall st1, reads st1 = reads st ->
             0 <= 0 /\ 0 <= 0
             /\ 0 + 0 <= Z.of_nat (List.length (visited st1))
                         - Z.of_nat (List.length (visited st))).
  { intros st1 Hr. rewrite (visited_reads st st1 Hr). lia. }
  destruct (searchLog_cases os opts logName st)
    as [[e0 H0] | [[e0 H0] | [[_ [n0 H0]] | [H0 | (h & start & n & l0 & Hn & H0)]]]];
    rewrite H0 in H.
  1,3,4: injection H as <- <- <- <- <-; now apply Hsame.
  1: discriminate H.
  pose proof (loop_events_counts os opts logName h n start
                {| warnNum := 0; critNum := 0; errLines := EmptyString;
                   lastNumber := l0; size := 1 |} st
                ltac:(cbn; lia) ltac:(cbn; lia)) as Hl.
  cbn [warnNum critNum] in Hl.
  specialize (Hl ltac:(unfold Int.maxInt64;
                       change (2 ^ 32) with 4294967296 in Hn;
                       change (2 ^ 63 - 1) with 9223372036854775807; lia)).
  pose proof (loop_events_visited os opts logName h n start
                {| warnNum := 0; critNum := 0; errLines := EmptyString;
                   lastNumber := l0; size := 1 |} st) as (k & _ & Hv).
  destruct (loop_events _ _ _ _ _ _ _ _) as [sc1 st1|e1 st1|st1];
    cbn [end_state] in Hv.
  - pose proof (finish_scan_result os opts (getStateFile os opts logName)
                  start sc1 st1) as Hr.
    pose proof (finish_scan_visited os opts (getStateFile os opts logName)
                  start sc1 st1) as Hfv.
    rewrite H in Hr, Hfv. cbn [fst snd] in Hr, Hfv. rewrite Hfv.
    destruct (_ && _); injection Hr as -> -> _ _; lia.
  - injection H as <- <- <- <- <-. rewrite Hv, length_app. lia.
  - discriminate H.
Qed.

Lemma counts_at_most_visited_witness :
  exists st',
    searchLog (Fake.log 1 (Fake.three 1) None) Fake.opts0 "Application"
      (Fake.st0 (Some "1"))
    = (Returns (0, 1, EmptyString, None), st')
    /\ 0 + 1 <= Z.of_nat (List.length (visited st')) - 0.
Proof.
  eexists. split; [vm_compute; reflexivity|].
  eapply (counts_at_most_visited (Fake.log 1 (Fake.three 1) None) Fake.opts0
            "Application" (Fake.st0 (Some "1")) 0 1 EmptyString None).
  vm_compute. reflexivity.
Defined.

(** A property of the loop variables that the record body and the
    change of buffer size keep is kept by the loop. *)
Section LoopInvariant.

Variables (os : OS) (opts : logOpts) (logName : string) (h : Z).
Variable P : Scan -> Prop.
Hypothesis P_record :
  forall r sc st, P sc -> P (fst (process_record os opts logName r sc st)).
Hypothesis P_size : forall n sc, P sc -> P (set_size n sc).

Lemma loop_body_inv i sc st :
  P sc ->
  match loop_body os opts logName h i sc st with
  | Continue sc' _ | Break sc' _ => P sc'
  | _ => True
  end.
Proof.
  intros HP. unfold loop_body, call_ReadEventLog.
  destruct (ReadEventLog os _ h _ i (size sc)) as [r | err nextSize].
  - match goal with
    | |- context [process_record os opts logName r ?s ?t] =>
        pose proof (P_record r s t HP) as H;
        destruct (process_record os opts logName r s t)
    end.
    exact H.
  - destruct (negb (is_errno err ERROR_INSUFFICIENT_BUFFER)).
    + destruct (negb (is_errno err errorInvalidParameter)); [exact I | exact HP].
    + cbv zeta. destruct (Int.uint32 nextSize =? 0); [exact I|].
      destruct (ReadEventLog os _ h _ i (Int.uint32 nextSize)) as [r | err2 n2].
      * match goal with
        | |- context [process_record os opts logName r ?s ?t] =>
            pose proof (P_record r s t (P_size _ _ HP)) as H;
            destruct (process_record os opts logName r s t)
        end.
        exact H.
      * now apply P_size.
Qed.

Lemma loop_events_inv n :
  forall i sc st,
    P sc ->
    match loop_events os opts logName h n i sc st with
    | LoopDone sc' _ => P sc'
    | _ => True
    end.
Proof.
  induction n as [|n IH]; intros i sc st HP; cbn [loop_events]; [exact HP|].
  pose proof (loop_body_inv i sc st HP) as Hb.
  destruct (loop_body os opts logName h i sc st); try exact I; [|exact Hb].
  now apply IH.
Qed.

End LoopInvariant.

(** X13. Without the option to return content a scan returns none: the
    content text of [searchLog] is empty whatever the records are. *)
Theorem no_content_without_ReturnContent :
  forall os opts logName st w c l e st',
    Opts.ReturnContent opts = false ->
    searchLog os opts logName st = (Returns (w, c, l, e), st') ->
    l = EmptyString.
Proof.
  intros os opts logName st w c l e st' Hrc H.
  destruct (searchLog_cases os opts logName st)
    as [[e0 H0] | [[e0 H0] | [[_ [n0 H0]] | [H0 | (h & start & n & l0 & Hn & H0)]]]];
    rewrite H0 in H.
  1,3,4: now injection H as <- <- <- <- <-.
  1: discriminate H.
  pose proof (loop_events_inv os opts logName h
                (fun sc => errLines sc = EmptyString)) as Hinv.
  specialize (Hinv ltac:(intros r sc st1 Hsc; rewrite process_record_filters;
                         cbv zeta; destruct (passes_filters _ _ _ _ _);
                         [cbn [tally errLines]; now rewrite Hrc | exact Hsc])
                   ltac:(intros m sc Hsc; exact Hsc)
                   n start
                   {| warnNum := 0; critNum := 0; errLines := EmptyString;
                      lastNumber := l0; size := 1 |} st eq_refl).
  destruct (loop_events _ _ _ _ _ _ _ _) as [sc1 st1|e1 st1|st1].
  - pose proof (finish_scan_result os opts (getStateFile os opts logName)
                  start sc1 st1) as Hr.
    rewrite H in Hr. cbn [fst] in Hr.
    destruct (_ && _); injection Hr as _ _ -> _; [reflexivity | exact Hinv].
  - now injection H as <- <- <- <- <-.
  - discriminate H.
Qed.

Lemma no_content_without_ReturnContent_witness :
  exists w c l e st',
    searchLog (Fake.log 1 (Fake.three 1) None) Fake.opts0 "Application"
      (Fake.st0 (Some "1")) = (Returns (w, c, l, e), st')
    /\ l = EmptyString.
Proof.
  destruct (searchLog (Fake.log 1 (Fake.three 1) None) Fake.opts0
              "Application" (Fake.st0 (Some "1")))
    as [[[[[w c] l] e]| |] st'] eqn:H.
  - exists w, c, l, e, st'. split; [reflexivity|].
    apply (no_content_without_ReturnContent
             (Fake.log 1 (Fake.three 1) None) Fake.opts0 "Application"
             (Fake.st0 (Some "1")) w c l e st' eq_refl H).
  - vm_compute in H. discriminate H.
  - vm_compute in H. discriminate H.
Defined.

(** ** The calls of ReadEventLog *)

Lemma loop_body_reads os opts logName h i sc st :
  exists new,
    reads (step_state (loop_body os opts logName h i sc st)) = new ++ reads st
    /\ Forall (fun c => call_offset c = i
                        /\ call_flags c = if i =? 0 then SEQUENTIAL_READ
                                          else SEEK_READ) new
    /\ (List.length new <= 2)%nat.
Proof.
  unfold loop_body, call_ReadEventLog.
  set (fl := if i =? 0 then SEQUENTIAL_READ else SEEK_READ).
  set (c1 := {| call_flags := fl; call_offset := i; call_size := size sc;
                call_again := false |}).
  assert (H1 : exists new,
             reads (count_read c1 st) = new ++ reads st
             /\ Forall (fun c => call_offset c = i /\ call_flags c = fl) new
             /\ (List.length new <= 2)%nat).
  { exists [c1]. repeat split; [repeat constructor | cbn; lia]. }
  destruct (ReadEventLog os _ h fl i (size sc)) as [r | err nextSize].
  - destruct (process_record _ _ _ r sc (count_read c1 st)) as [sc' st'] eqn:Hp.
    cbn [step_state]. change st' with (snd (sc', st')).
    rewrite <- Hp, process_record_reads. exact H1.
  - destruct (negb (is_errno err ERROR_INSUFFICIENT_BUFFER)).
    + destruct (negb (is_errno err errorInvalidParameter)); exact H1.
    + cbv zeta. destruct (Int.uint32 nextSize =? 0); [exact H1|].
      set (c2 := {| call_flags := fl; call_offset := i;
                    call_size := Int.uint32 nextSize; call_again := true |}).
      assert (H2 : exists new,
                 reads (count_read c2 (count_read c1 st)) = new ++ reads st
                 /\ Forall (fun c => call_offset c = i /\ call_flags c = fl) new
                 /\ (List.length new <= 2)%nat).
      { exists [c2; c1]. repeat split; [repeat constructor | cbn; lia]. }
      destruct (ReadEventLog os _ h fl i (Int.uint32 nextSize)) as [r | err2 n2].
      * destruct (process_record _ _ _ r _ (count_read c2 (count_read c1 st)))
          as [sc' st'] eqn:Hp.
        cbn [step_state]. change st' with (snd (sc', st')).
        rewrite <- Hp, process_record_reads. exact H2.
      * exact H2.
Qed.

Lemma loop_events_reads os opts logName h n :
  forall i sc st,
    exists new k,
      reads (end_state (loop_events os opts logName h n i sc st))
      = new ++ reads st
      /\ Forall (fun c => call_flags c = if call_offset c =? 0
                                         then SEQUENTIAL_READ else SEEK_READ)
                new
      /\ visited (end_state (loop_events os opts logName h n i sc st))
         = visited st ++ range i k
      /\ (List.length new <= 2 * k)%nat.
Proof.
  induction n as [|n IH]; intros i sc st.
  - exists [], O. cbn. rewrite app_nil_r. repeat split; [constructor | lia].
  - cbn [loop_events].
    destruct (loop_body_reads os opts logName h i sc st)
      as (new1 & Hr1 & Hf1 & Hl1).
    pose proof (loop_body_visited os opts logName h i sc st) as Hv1.
    assert (Hok : Forall (fun c => call_flags c = if call_offset c =? 0
                                                  then SEQUENTIAL_READ
                                                  else SEEK_READ) new1).
    { eapply Forall_impl; [exact Hf1|]. intros c [-> ->]. reflexivity. }
    destruct (loop_body os opts logName h i sc st) as [sc1 st1|sc1 st1|e st1|st1];
      cbn [step_state] in Hr1, Hv1; cbn [end_state].
    + destruct (IH (i + 1) sc1 st1) as (new & k & Hr & Hf & Hv & Hl).
      exists (new ++ new1), (S k).
      rewrite Hr, Hr1, Hv, Hv1, range_S, <- !app_assoc, length_app.
      repeat split; [apply Forall_app; split; assumption | lia].
    + exists new1, 1%nat. rewrite Hr1, Hv1, range_S.
      repeat split; [assumption | lia].
    + exists new1, 1%nat. rewrite Hr1, Hv1, range_S.
      repeat split; [assumption | lia].
    + exists new1, 1%nat. rewrite Hr1, Hv1, range_S.
      repeat split; [assumption | lia].
Qed.

Lemma finish_scan_reads os opts f rn sc st :
  reads (snd (finish_scan os opts f rn sc st)) = reads st.
Proof.
  unfold finish_scan. destruct (negb (Opts.NoState opts)).
  - destruct (writeLastOffset _ _ _ _) as [fs [e|]];
      destruct (_ && _); reflexivity.
  - destruct (_ && _); reflexivity.
Qed.

(** X14. The calls of ReadEventLog that a scan makes: the sequential
    read mode is used for record number 0 and for no other, every other
    record number is read in seek mode; and there are at most two calls
    for each record number visited. *)
Theorem reads_of_a_scan :
  forall os opts logName st,
    let st' := snd (searchLog os opts logName st) in
    exists new,
      reads st' = new ++ reads st
      /\ Forall (fun c => call_flags c = if call_offset c =? 0
                                         then SEQUENTIAL_READ else SEEK_READ)
                new
      /\ (List.length new
          <= 2 * (List.length (visited st') - List.length (visited st)))%nat.
Proof.
  intros os opts logName st st'. subst st'.
  assert (Hnone : forall st1, reads st1 = reads st ->
             exists new,
               reads st1 = new ++ reads st
               /\ Forall (fun c => call_flags c = if call_offset c =? 0
                                                  then SEQUENTIAL_READ
                                                  else SEEK_READ) new
               /\ (List.length new
                   <= 2 * (List.length (visited st1)
                           - List.length (visited st)))%nat).
  { intros st1 Hr. exists []. rewrite Hr. repeat split; [constructor|].
    cbn. lia. }
  destruct (searchLog_cases os opts logName st)
    as [[e0 H0] | [[e0 H0] | [[_ [n0 H0]] | [H0 | (h & start & n & l0 & Hn & H0)]]]];
    rewrite H0; cbn [snd]; try (apply Hnone; reflexivity).
  destruct (loop_events_reads os opts logName h n start
              {| warnNum := 0; critNum := 0; errLines := EmptyString;
                 lastNumber := l0; size := 1 |} st)
    as (new & k & Hr & Hf & Hv & Hl).
  assert (Hgoal : forall st1,
             reads st1 = new ++ reads st ->
             visited st1 = visited st ++ range start k ->
             exists new0,
               reads st1 = new0 ++ reads st
               /\ Forall (fun c => call_flags c = if call_offset c =? 0
                                                  then SEQUENTIAL_READ
                                                  else SEEK_READ) new0
               /\ (List.length new0
                   <= 2 * (List.length (visited st1)
                           - List.length (visited st)))%nat).
  { intros st1 Hr1 Hv1. exists new. rewrite Hr1, Hv1, length_app.
    unfold range at 1. rewrite length_map, length_seq.
    repeat split; [assumption | lia]. }
  destruct (loop_events _ _ _ _ _ _ _ _) as [sc1 st1|e1 st1|st1];
    cbn [end_state snd] in *; try (now apply Hgoal).
  apply Hgoal.
  - now rewrite finish_scan_reads.
  - now rewrite finish_scan_visited.
Qed.

(** ** Where a scan starts *)

(** X15. A scan that has no offset to start from and does not take the
    first-run way (state persistence is disabled, or counting on the
    first run is enabled) reads the whole log: with the oldest record
    number at least 1, it visits the record numbers from the oldest on,
    all of them up to oldest+count-1 when the reads succeed, and then
    returns without error. *)
Theorem scan_of_the_whole_log :
  forall os opts logName st h,
    load_recordNumber os opts st (getStateFile os opts logName) = inr 0 ->
    Opts.NoState opts = true \/ Opts.FailFirst opts = true ->
    OpenEventLog os logName = Ok h ->
    1 <= reported_oldnum os h ->
    let oldnum := reported_oldnum os h in
    let bound := Int.uint32 (oldnum + reported_num os h) in
    let out := searchLog os opts logName st in
    reads_succeed os h oldnum bound ->
    visited (snd out) = visited st ++ range oldnum (Z.to_nat (bound - oldnum))
    /\ exists w c l, fst out = Returns (w, c, l, None).
Proof.
  intros os opts logName st h Hl Hopt Ho Hold oldnum bound out Hok.
  assert (Hb : ((0 =? 0) && negb (Opts.NoState opts)
                && negb (Opts.FailFirst opts)) = false).
  { destruct Hopt as [-> | ->]; cbn; [reflexivity | apply andb_false_r]. }
  pose proof (searchLog_visits os opts logName st h 0 Hl Ho Hb) as H.
  cbv zeta in H. fold oldnum in H.
  assert (Hleb : (oldnum <=? 0) = false) by (apply Z.leb_gt; subst oldnum; lia).
  rewrite Hleb in H. apply H; [subst oldnum; lia | exact Hok].
Qed.

Lemma scan_of_the_whole_log_witness :
  let out := searchLog (Fake.log 1 (Fake.three 1) None) Fake.noState
               "Application" (Fake.st0 None) in
  visited (snd out) = [1; 2; 3]
  /\ exists w c l, fst out = Returns (w, c, l, None).
Proof.
  cbv zeta.
  apply (scan_of_the_whole_log (Fake.log 1 (Fake.three 1) None) Fake.noState
           "Application" (Fake.st0 None) 1).
  - reflexivity.
  - left. reflexivity.
  - reflexivity.
  - vm_compute. discriminate.
  - apply fake_reads_succeed; vm_compute; discriminate.
Defined.

(** X16. A scan that starts at record number 0 counts nothing: when the
    state file holds 4294967295 (as uint32) and counting on the first run
    is disabled, [searchLog] returns zero counts and no content whatever
    the records it reads are. That offset is what a first run writes for
    an empty log (oldest 0, count 0). *)
Theorem scan_from_zero_counts_nothing :
  (forall os opts logName st s h w c l e st',
      Opts.NoState opts = false -> Opts.FailFirst opts = false ->
      getLastOffset os (files st) (getStateFile os opts logName) = (s, None) ->
      Int.uint32 s = 4294967295 ->
      OpenEventLog os logName = Ok h ->
      searchLog os opts logName st = (Returns (w, c, l, e), st') ->
      w = 0 /\ c = 0 /\ l = EmptyString)
  /\ (forall os opts logName st h,
        Opts.NoState opts = false -> Opts.FailFirst opts = false ->
        load_recordNumber os opts st (getStateFile os opts logName) = inr 0 ->
        OpenEventLog os logName = Ok h ->
        reported_oldnum os h = 0 -> reported_num os h = 0 ->
        MkdirAll_fault os (filepath_Dir os (getStateFile os opts logName))
        = None ->
        WriteFile_fault os (getStateFile os opts logName) = None ->
        files (snd (searchLog os opts logName st))
          !! getStateFile os opts logName
        = Some "4294967295").
Proof.
  split.
  - intros os opts logName st s h w c l e st' Hns Hff Hg Hs Ho H.
    pose proof (load_recordNumber_found os opts st _ s Hns Hg) as Hl.
    rewrite Hs in Hl.
    assert (Hb : ((4294967295 =? 0) && negb (Opts.NoState opts)
                  && negb (Opts.FailFirst opts)) = false) by reflexivity.
    pose proof (reported_oldnum_range os h) as Hold.
    unfold Int.is_uint32, Int.maxUint32 in Hold.
    change (2 ^ 32 - 1) with 4294967295 in Hold.
    destruct (Z.eq_dec 4294967295
                (Int.uint32 (reported_oldnum os h + reported_num os h - 1)))
      as [Heq | Hne].
    + rewrite (searchLog_up_to_date os opts logName st h _ Hl Ho Hb
                 ltac:(lia) Heq) in H.
      now injection H as <- <- <- _ _.
    + rewrite (searchLog_scanning os opts logName st h _ Hl Ho Hb) in H
        by (intros [_ Hc]; contradiction).
      assert (Hleb : (reported_oldnum os h <=? 4294967295) = true)
        by (apply Z.leb_le; lia).
      rewrite Hleb in H.
      change (Int.uint32 (4294967295 + 1)) with 0 in H.
      destruct (loop_events _ _ _ _ _ _ _ _) as [sc1 st1|e1 st1|st1].
      * pose proof (finish_scan_result os opts (getStateFile os opts logName)
                      0 sc1 st1) as Hr.
        rewrite H, Hff in Hr. cbn in Hr. now injection Hr as -> -> -> _.
      * now injection H as <- <- <- _ _.
      * discriminate H.
  - intros os opts logName st h Hns Hff Hl Ho Hold Hnum Hmk Hwr.
    rewrite (searchLog_bootstrap os opts logName st h Hl Hns Hff Ho).
    cbv zeta. rewrite Hold, Hnum.
    unfold writeLastOffset, ioutil_WriteFile. rewrite Hmk, Hwr.
    cbn [fst snd files set_files]. apply lookup_insert_eq.
Qed.

Lemma scan_from_zero_counts_nothing_witness :
  let os := Fake.log 0 (Fake.three 0) None in
  let out := searchLog os Fake.opts0 "Application"
               (Fake.st0 (Some "4294967295")) in
  visited (snd out) = [0; 1; 2]
  /\ exists e, fst out = Returns (0, 0, EmptyString, e).
Proof.
  cbv zeta. split; [vm_compute; reflexivity|].
  destruct (searchLog (Fake.log 0 (Fake.three 0) None) Fake.opts0
              "Application" (Fake.st0 (Some "4294967295")))
    as [[[[[w c] l] e]| |] st'] eqn:H.
  - destruct (proj1 scan_from_zero_counts_nothing
                (Fake.log 0 (Fake.three 0) None) Fake.opts0 "Application"
                (Fake.st0 (Some "4294967295")) 4294967295 1 w c l e st')
      as (-> & -> & ->).
    + reflexivity.
    + reflexivity.
    + vm_compute. reflexivity.
    + reflexivity.
    + reflexivity.
    + exact H.
    + exists e. reflexivity.
  - vm_compute in H. discriminate H.
  - vm_compute in H. discriminate H.
Defined.

(** ** Messages *)

Lemma char_of_byte_of c : Str.char_of (Str.byte_of c) = c.
Proof.
  unfold Str.char_of, Str.byte_of. rewrite N2Z.id. apply ascii_N_embedding.
Qed.

Lemma bytes_of_chars (l : list ascii) :
  Str.bytes (map Str.byte_of l) = string_of_list_ascii l.
Proof.
  unfold Str.bytes. f_equal. rewrite map_map.
  rewrite <- (map_id l) at 2. apply map_ext. intros c. apply char_of_byte_of.
Qed.

Lemma length_chars s : Str.length s = Z.of_nat (List.length (list_ascii_of_string s)).
Proof. induction s as [|c s IH]; cbn [Str.length]; [reflexivity|]. cbn. lia. Qed.

Lemma units16_ascii (l : list ascii) tail :
  Forall (fun c => 0 < Str.byte_of c < 128) l ->
  units16 (flat_map (fun c => [Str.byte_of c; 0]) l ++ tail)
  = map Str.byte_of l ++ units16 tail.
Proof.
  induction l as [|c l IH]; intros Ha; [reflexivity|].
  inversion Ha as [|? ? Hc Hl]; subst.
  cbn [flat_map app units16 map]. rewrite (IH Hl). f_equal.
  unfold Int.uint16. change (0 * 256) with 0. change (0 mod 2 ^ 16) with 0.
  rewrite Z.add_0_r. apply Z.mod_small. change (2 ^ 16) with 65536. lia.
Qed.

Lemma index_nul_ascii (l : list ascii) tail :
  Forall (fun c => 0 < Str.byte_of c < 128) l ->
  index_nul (map Str.byte_of l ++ 0 :: tail) = Some (List.length l)
  /\ index_nul (map Str.byte_of l) = None.
Proof.
  induction l as [|c l IH]; intros Ha; [split; reflexivity|].
  inversion Ha as [|? ? Hc Hl]; subst. destruct (IH Hl) as [IH1 IH2].
  cbn [map app index_nul List.length].
  assert (H : (Str.byte_of c =? 0) = false) by (apply Z.eqb_neq; lia).
  rewrite H, IH1, IH2. split; reflexivity.
Qed.

Lemma utf16_Decode_ascii (l : list ascii) :
  Forall (fun c => 0 < Str.byte_of c < 128) l ->
  utf16_Decode (map Str.byte_of l) = map Str.byte_of l.
Proof.
  induction l as [|c l IH]; intros Ha; [reflexivity|].
  inversion Ha as [|? ? Hc Hl]; subst.
  cbn [map utf16_Decode].
  assert (H : (Str.byte_of c <? 55296) = true) by (apply Z.ltb_lt; lia).
  rewrite H. cbn [orb]. now rewrite (IH Hl).
Qed.

Lemma utf8_ascii (l : list ascii) :
  Forall (fun c => 0 < Str.byte_of c < 128) l ->
  concat (map utf8_rune (map Str.byte_of l)) = map Str.byte_of l.
Proof.
  induction l as [|c l IH]; intros Ha; [reflexivity|].
  inversion Ha as [|? ? Hc Hl]; subst.
  cbn [map concat]. rewrite (IH Hl). unfold utf8_rune.
  assert (H0 : (Str.byte_of c <? 0) = false) by (apply Z.ltb_ge; lia).
  assert (H1 : (1114111 <? Str.byte_of c) = false) by (apply Z.ltb_ge; lia).
  assert (H2 : (55296 <=? Str.byte_of c) = false) by (apply Z.leb_gt; lia).
  assert (H3 : (Str.byte_of c <? 128) = true) by (apply Z.ltb_lt; lia).
  rewrite H0, H1, H2, H3. reflexivity.
Qed.

(** X17. [bytesToString] reads back a text of ASCII characters written
    in UTF-16: followed by a zero unit, it gives the text and the byte
    offset of that zero unit, whatever bytes come after; without a zero
    unit it gives the text and the byte offset of the last unit, not of
    the end. An empty buffer gives the empty text at offset 0. *)
Theorem bytesToString_reads_ascii :
  (forall s rest,
      Forall (fun c => 0 < Str.byte_of c < 128) (list_ascii_of_string s) ->
      bytesToString (utf16le s ++ 0 :: 0 :: rest)
      = (s, Int.uint32 (Str.length s * 2)))
  /\ (forall s,
        Forall (fun c => 0 < Str.byte_of c < 128) (list_ascii_of_string s) ->
        s <> EmptyString ->
        bytesToString (utf16le s)
        = (s, Int.uint32 ((Str.length s - 1) * 2)))
  /\ bytesToString [] = (EmptyString, 0).
Proof.
  split; [|split; [|reflexivity]].
  - intros s rest Ha. unfold bytesToString, utf16le.
    rewrite (units16_ascii _ _ Ha). cbn [units16].
    change (Int.uint16 (0 + Int.uint16 (0 * 256))) with 0.
    rewrite (proj1 (index_nul_ascii _ _ Ha)).
    rewrite <- (length_map Str.byte_of) at 1. rewrite take_app_length.
    rewrite (utf16_Decode_ascii _ Ha), (utf8_ascii _ Ha), bytes_of_chars.
    now rewrite string_of_list_ascii_of_string, length_chars.
  - intros s Ha Hne. unfold bytesToString, utf16le.
    rewrite <- (app_nil_r (flat_map _ _)).
    rewrite (units16_ascii _ _ Ha). cbn [units16]. rewrite app_nil_r.
    rewrite (proj2 (index_nul_ascii _ [] Ha)).
    rewrite (utf16_Decode_ascii _ Ha), (utf8_ascii _ Ha), bytes_of_chars.
    rewrite string_of_list_ascii_of_string, length_chars, length_map.
    f_equal. f_equal.
    destruct s as [|c s]; [congruence|]. cbn [list_ascii_of_string List.length].
    lia.
Qed.

Lemma bytesToString_reads_ascii_witness :
  bytesToString (utf16le "Event 7" ++ 0 :: 0 :: [65; 0])
  = ("Event 7", 14)
  /\ bytesToString (utf16le "Event 7") = ("Event 7", 12).
Proof.
  destruct bytesToString_reads_ascii as (Hz & Hn & _). split.
  - apply (Hz "Event 7" [65; 0]).
    repeat constructor; vm_compute; discriminate.
  - apply (Hn "Event 7").
    + repeat constructor; vm_compute; discriminate.
    + discriminate.
Defined.

Lemma mem_Replace c s : Str.mem c (Str.Replace s c EmptyString) = false.
Proof.
  induction s as [|x s IH]; [reflexivity|]. cbn [Str.Replace].
  destruct (bool_decide_reflect (x = c)) as [-> | Hne].
  - exact IH.
  - cbn [Str.mem]. rewrite IH, orb_false_r.
    apply bool_decide_eq_false_2. congruence.
Qed.

Lemma mem_rev_app c s1 :
  forall s2, Str.mem c (String.rev_app s1 s2) = Str.mem c s1 || Str.mem c s2.
Proof.
  induction s1 as [|x s1 IH]; intros s2; [reflexivity|].
  cbn [String.rev_app Str.mem]. rewrite IH. cbn [Str.mem].
  destruct (bool_decide (c = x)), (Str.mem c s1); reflexivity.
Qed.

Lemma mem_rev c s : Str.mem c (String.rev s) = Str.mem c s.
Proof. unfold String.rev. rewrite mem_rev_app. cbn. apply orb_false_r. Qed.

Lemma mem_drop c n :
  forall s, Str.mem c s = false -> Str.mem c (Str.drop n s) = false.
Proof.
  induction n as [|n IH]; intros s H; [exact H|].
  destruct s as [|x s]; [reflexivity|]. cbn [Str.drop]. apply IH.
  cbn [Str.mem] in H. now apply orb_false_iff in H as [_ H].
Qed.

Lemma mem_TrimSuffix c s suffix :
  Str.mem c s = false -> Str.mem c (Str.TrimSuffix s suffix) = false.
Proof.
  intros H. unfold Str.TrimSuffix. destruct (Str.HasPrefix _ _); [|exact H].
  rewrite mem_rev. apply mem_drop. now rewrite mem_rev.
Qed.

(** X18. The message that [getResourceMessage] returns never holds a
    carriage return, whether the lookup succeeded or failed. *)
Theorem message_has_no_carriage_return :
  forall os providerName source eventID args,
    Str.mem (Str.char_of 13)
      (fst (getResourceMessage os providerName source eventID args))
    = false.
Proof.
  intros os providerName source eventID args. unfold getResourceMessage.
  destruct (registry_OpenKey os _) as [key|]; [|reflexivity].
  destruct (GetStringValue os key _) as [val|]; [|reflexivity].
  destruct (ExpandString os val) as [val'|]; [|reflexivity].
  destruct (LoadLibraryEx os val') as [handle|]; [|reflexivity].
  destruct (FormatMessage os handle eventID args) as [msgbuf|]; [|reflexivity].
  cbn [fst]. apply mem_TrimSuffix, mem_Replace.
Qed.

Lemma append_assoc a b c : (a +:+ b) +:+ c = a +:+ b +:+ c.
Proof.
  induction a as [|x a IH]; [reflexivity|].
  rewrite !append_cons. now rewrite IH.
Qed.

Lemma HasPrefix_append a b : Str.HasPrefix (a +:+ b) a = true.
Proof.
  induction a as [|x a IH]; [reflexivity|].
  rewrite append_cons.
  change (Str.HasPrefix (String x (a +:+ b)) (String x a))
    with (bool_decide (x = x) && Str.HasPrefix (a +:+ b) a).
  now rewrite IH, bool_decide_eq_true_2.
Qed.

(** X19. What a record adds to the returned content is one line: the
    source name, a colon and the message without its newlines (the
    placeholder for an empty message), then one newline; when the source
    name holds no newline, that final newline is the only one. *)
Theorem contentLine_is_one_line :
  forall source message,
    Str.mem (Str.char_of 10) source = false ->
    exists body,
      contentLine source message = body +:+ Str.bytes [10]
      /\ Str.mem (Str.char_of 10) body = false
      /\ Str.HasPrefix body (source +:+ ":") = true.
Proof.
  intros source message Hsrc. unfold contentLine.
  set (m := if Str.is_empty message then noResource else message).
  exists (source +:+ ":" +:+ Str.Replace m (Str.char_of 10) EmptyString).
  split; [|split].
  - now rewrite !append_assoc.
  - rewrite !mem_app, Hsrc, mem_Replace. reflexivity.
  - rewrite <- append_assoc. apply HasPrefix_append.
Qed.

Lemma contentLine_is_one_line_witness :
  exists body,
    contentLine "app" (Str.bytes [97; 10; 98]) = body +:+ Str.bytes [10]
    /\ Str.mem (Str.char_of 10) body = false
    /\ Str.HasPrefix body "app:" = true.
Proof.
  apply (contentLine_is_one_line "app" (Str.bytes [97; 10; 98])).
  reflexivity.
Defined.

(** ** Several logs *)

(** The logs are scanned one after the other: the scan of a list of logs
    followed by more logs is the scan of the first list, then of the
    others from the totals and the state it reached; an error, an exit or
    a panic among the first ends the run there. *)
Lemma run_logs_app os opts logs1 :
  forall logs2 t st,
    run_logs os opts (logs1 ++ logs2) t st
    = match run_logs os opts logs1 t st with
      | (RunTotals t1, st1) => run_logs os opts logs2 t1 st1
      | other => other
      end.
Proof.
  induction logs1 as [|lt logs1 IH]; intros logs2 t st; [reflexivity|].
  cbn [app run_logs].
  destruct (searchLog os opts lt st) as [[[[[w c] l] [e|]]| |] st1];
    try reflexivity.
  apply IH.
Qed.

(** X20. A failing log ends the run and voids what was counted before
    it: when the scans of the logs before it returned without error and
    the scan of it returns an error, the run returns Unknown with that
    error whatever the totals so far, the logs after it are not scanned,
    and the state is the one that scan left. *)
Theorem first_error_ends_the_run :
  forall os args st opts0 opts logs1 lt logs2 t1 st1 w c l err st2,
    parseArgs os args = (opts0, None) ->
    prepare os opts0 = Ok opts ->
    Opts.logList opts = logs1 ++ lt :: logs2 ->
    run_logs os opts logs1
      {| total_warn := 0; total_crit := 0; errorOverall := EmptyString |} st
    = (RunTotals t1, st1) ->
    searchLog os opts lt st1 = (Returns (w, c, l, Some err), st2) ->
    run os args st = (Returns (Unknown err), st2).
Proof.
  intros os args st opts0 opts logs1 lt logs2 t1 st1 w c l err st2
    Hp Hprep Hlogs H1 H2.
  unfold run. rewrite Hp, Hprep, Hlogs, run_logs_app, H1.
  now rewrite (run_logs_error os opts lt logs2 t1 st1 w c l err st2 H2).
Qed.

Lemma first_error_ends_the_run_witness :
  let os := Fake.with_args (Fake.log 1 (Fake.three 1) None) Fake.two_logs in
  exists st2,
    run os [] Fake.st_two_logs
    = (Returns (Unknown (NumError "ParseInt" EmptyString ErrSyntax)), st2)
    /\ visited st2 = [2; 3].
Proof.
  cbv zeta. eexists. split.
  - eapply (first_error_ends_the_run
              (Fake.with_args (Fake.log 1 (Fake.three 1) None) Fake.two_logs)
              [] Fake.st_two_logs _ _ ["App"] "Sys" []).
    + reflexivity.
    + vm_compute. reflexivity.
    + reflexivity.
    + vm_compute. reflexivity.
    + vm_compute. reflexivity.
  - vm_compute. reflexivity.
Defined.

(** ** One scan after the other *)

Lemma process_record_lastNumber os opts logName r sc st :
  lastNumber (fst (process_record os opts logName r sc st))
  = Int.uint32 (RecordNumber r).
Proof.
  rewrite process_record_filters. cbv zeta.
  destruct (passes_filters _ _ _ _ _); reflexivity.
Qed.

Lemma loop_body_last os opts logName h a b i sc st :
  reads_succeed os h a b -> records_numbered os h a b -> a <= i < b ->
  exists sc' st',
    loop_body os opts logName h i sc st = Continue sc' st'
    /\ lastNumber sc' = i.
Proof.
  intros Hok Hnum Hi. unfold loop_body, call_ReadEventLog.
  set (fl := if i =? 0 then SEQUENTIAL_READ else SEEK_READ).
  pose proof (Hok (List.length (reads st)) fl i (size sc) Hi) as H.
  destruct (ReadEventLog os (List.length (reads st)) h fl i (size sc))
    as [r | err nextSize] eqn:Hr.
  - match goal with
    | |- context [process_record os opts logName r ?s ?t] =>
        pose proof (process_record_lastNumber os opts logName r s t) as Hl;
        destruct (process_record os opts logName r s t) as [sc' st']
    end.
    exists sc', st'. split; [reflexivity|]. cbn [fst] in Hl.
    rewrite Hl. now apply (Hnum _ _ _ _ _ Hi Hr).
  - destruct H as (H122 & Hnz & r & Hr2). rewrite H122. cbn [negb]. cbv zeta.
    apply Z.eqb_neq in Hnz. rewrite Hnz.
    cbn [reads count_read List.length]. rewrite Hr2.
    match goal with
    | |- context [process_record os opts logName r ?s ?t] =>
        pose proof (process_record_lastNumber os opts logName r s t) as Hl;
        destruct (process_record os opts logName r s t) as [sc' st']
    end.
    exists sc', st'. split; [reflexivity|]. cbn [fst] in Hl.
    rewrite Hl. now apply (Hnum _ _ _ _ _ Hi Hr2).
Qed.

(** A loop whose reads all succeed ends with the number of the last
    record in [lastNumber]. *)
Lemma loop_events_last os opts logName h a b n :
  reads_succeed os h a b -> records_numbered os h a b ->
  forall i sc st,
    a <= i -> i + Z.of_nat (S n) <= b ->
    exists sc' st',
      loop_events os opts logName h (S n) i sc st = LoopDone sc' st'
      /\ lastNumber sc' = i + Z.of_nat n.
Proof.
  intros Hok Hnum. induction n as [|n IH]; intros i sc st Ha Hb.
  - destruct (loop_body_last os opts logName h a b i sc st Hok Hnum
                ltac:(lia)) as (sc1 & st1 & H1 & Hl).
    exists sc1, st1. cbn [loop_events]. rewrite H1.
    split; [reflexivity | cbn; lia].
  - destruct (loop_body_last os opts logName h a b i sc st Hok Hnum
                ltac:(lia)) as (sc1 & st1 & H1 & Hl).
    destruct (IH (i + 1) sc1 st1 ltac:(lia) ltac:(lia))
      as (sc' & st' & H & Hl').
    exists sc', st'. split; [|lia].
    change (loop_events os opts logName h (S (S n)) i sc st)
      with (match loop_body os opts logName h i sc st with
            | Continue sc0 st0 => loop_events os opts logName h (S n) (i + 1) sc0 st0
            | Break sc0 st0 => LoopDone sc0 st0
            | Return err st0 => LoopReturn err st0
            | Panic st0 => LoopPanic st0
            end).
    now rewrite H1.
Qed.

(** X21. A scan leaves nothing for the next one: after a scan that had
    records to read, read them all (the reads succeeded and the records
    carry the numbers they were read at) and could write its state file,
    the state file holds the number of the newest record, and a second
    scan of the unchanged log makes no read and returns zero counts
    without error. *)
Theorem second_scan_reads_nothing :
  forall os opts logName st h rn,
    let f := getStateFile os opts logName in
    let oldnum := reported_oldnum os h in
    let num := reported_num os h in
    let start := if oldnum <=? rn then Int.uint32 (rn + 1) else oldnum in
    let bound := Int.uint32 (oldnum + num) in
    Opts.NoState opts = false ->
    load_recordNumber os opts st f = inr rn ->
    OpenEventLog os logName = Ok h ->
    ((rn =? 0) && negb (Opts.NoState opts) && negb (Opts.FailFirst opts))
    = false ->
    start < bound ->
    reads_succeed os h start bound ->
    records_numbered os h start bound ->
    Stat_fault os f = None -> ReadFile_fault os f = None ->
    MkdirAll_fault os (filepath_Dir os f) = None ->
    WriteFile_fault os f = None ->
    let st1 := snd (searchLog os opts logName st) in
    files st1 !! f = Some (Str.FormatInt (bound - 1))
    /\ fst (searchLog os opts logName st1)
       = Returns (0, 0, EmptyString, None)
    /\ reads (snd (searchLog os opts logName st1)) = reads st1.
Proof.
  intros os opts logName st h rn f oldnum num start bound
    Hns Hl Ho Hb Hlt Hok Hnum Hsf Hrf Hmk Hwf st1.
  pose proof (uint32_range (oldnum + num)) as Hbound. fold bound in Hbound.
  pose proof (reported_oldnum_range os h) as Hold. fold oldnum in Hold.
  unfold Int.is_uint32, Int.maxUint32 in Hbound, Hold.
  change (2 ^ 32 - 1) with 4294967295 in Hbound, Hold.
  assert (Hstart : 0 <= start).
  { subst start. destruct (oldnum <=? rn); [|lia].
    pose proof (uint32_range (rn + 1)) as H. unfold Int.is_uint32 in H. lia. }
  assert (Hnewest : Int.uint32 (oldnum + num - 1) = bound - 1).
  { destruct (uint32_succ (oldnum + num)) as [H0 | HS];
      [fold bound in H0 | fold bound in HS]; lia. }
  assert (Hnot : ~ (oldnum <= rn /\ rn = Int.uint32 (oldnum + num - 1))).
  { intros [Hle Heq]. subst start. apply Z.leb_le in Hle. rewrite Hle in Hlt.
    rewrite Hnewest in Heq. subst rn.
    replace (bound - 1 + 1) with bound in Hlt by lia.
    rewrite uint32_id in Hlt; [lia|].
    unfold Int.is_uint32, Int.maxUint32.
    change (2 ^ 32 - 1) with 4294967295. lia. }
  (* the first scan *)
  assert (H1 : files st1 !! f = Some (Str.FormatInt (bound - 1))
               /\ files st1 = <[f := Str.FormatInt (bound - 1)]> (files st)).
  { subst st1.
    rewrite (searchLog_scanning os opts logName st h rn Hl Ho Hb Hnot).
    fold oldnum num start bound.
    destruct (Z.to_nat (bound - start)) as [|n] eqn:Hn; [lia|].
    destruct (loop_events_last os opts logName h start bound n Hok Hnum start
                {| warnNum := 0; critNum := 0; errLines := EmptyString;
                   lastNumber := if oldnum <=? rn then rn else 0; size := 1 |}
                st ltac:(lia) ltac:(lia)) as (sc' & st' & Hloop & Hlast).
    pose proof (loop_events_files os opts logName h (S n) start
                  {| warnNum := 0; critNum := 0; errLines := EmptyString;
                     lastNumber := if oldnum <=? rn then rn else 0;
                     size := 1 |} st) as Hfiles.
    rewrite Hloop in *. cbn [end_state] in Hfiles.
    assert (Hlast' : lastNumber sc' = bound - 1) by lia.
    unfold finish_scan. fold f. rewrite Hns. cbn [negb].
    unfold writeLastOffset, ioutil_WriteFile. rewrite Hmk, Hwf, Hlast'.
    rewrite int64_id
      by (unfold Int.is_int64, Int.minInt64, Int.maxInt64;
          change (2 ^ 63) with 9223372036854775808; lia).
    rewrite Hfiles.
    destruct ((start =? 0) && negb (Opts.FailFirst opts));
      cbn [snd files set_files];
      (split; [apply lookup_insert_eq | reflexivity]). }
  destruct H1 as [Hfile _]. split; [exact Hfile|].
  (* the second scan *)
  assert (Hg : getLastOffset os (files st1) f = (bound - 1, None)).
  { apply getLastOffset_content; auto.
    unfold Int.is_int64, Int.minInt64, Int.maxInt64.
    change (2 ^ 63) with 9223372036854775808. lia. }
  pose proof (load_recordNumber_found os opts st1 f _ Hns Hg) as Hl2.
  rewrite uint32_id in Hl2
    by (unfold Int.is_uint32, Int.maxUint32;
        change (2 ^ 32 - 1) with 4294967295; lia).
  destruct (((bound - 1 =? 0) && negb (Opts.NoState opts)
             && negb (Opts.FailFirst opts))) eqn:Hb2.
  - apply andb_prop in Hb2 as [Hb2 Hff]. apply andb_prop in Hb2 as [Hz _].
    apply negb_true_iff in Hff. apply Z.eqb_eq in Hz. rewrite Hz in Hl2.
    rewrite (searchLog_bootstrap os opts logName st1 h Hl2 Hns Hff Ho).
    cbv zeta. fold f. unfold writeLastOffset, ioutil_WriteFile.
    rewrite Hmk, Hwf. split; reflexivity.
  - destruct (Z.le_gt_cases oldnum (bound - 1)) as [Hle | Hgt].
    + rewrite (searchLog_up_to_date os opts logName st1 h _ Hl2 Ho Hb2);
        [split; reflexivity | exact Hle |].
      fold oldnum num. lia.
    + rewrite (searchLog_scanning os opts logName st1 h _ Hl2 Ho Hb2)
        by (fold oldnum; lia).
      fold oldnum num bound f.
      assert (Hleb : (oldnum <=? bound - 1) = false) by (apply Z.leb_gt; lia).
      rewrite Hleb.
      replace (Z.to_nat (bound - oldnum)) with O by lia.
      cbn [loop_events]. split.
      * rewrite finish_scan_result.
        destruct ((oldnum =? 0) && negb (Opts.FailFirst opts)); reflexivity.
      * apply finish_scan_reads.
Qed.

Lemma fake_three_numbered wf h a b :
  records_numbered (Fake.log 1 (Fake.three 1) wf) h a b.
Proof.
  intros cnt fl i sz r _. cbn [ReadEventLog Fake.log Fake.os].
  unfold Fake.read.
  destruct ((i <? 1) || (1 + Z.of_nat (List.length (Fake.three 1)) <=? i))
    eqn:Hout; [discriminate|].
  apply orb_false_iff in Hout as [H1 H2].
  apply Z.ltb_ge in H1. apply Z.leb_gt in H2. cbn in H2.
  destruct (sz <? Fake.recLen); [discriminate|].
  assert (Hi : i = 1 \/ i = 2 \/ i = 3) by lia.
  destruct Hi as [-> | [-> | ->]]; cbn; intros [= <-]; reflexivity.
Qed.

Lemma second_scan_reads_nothing_witness :
  let os := Fake.log 1 (Fake.three 1) None in
  let st1 := snd (searchLog os Fake.opts0 "Application"
                    (Fake.st0 (Some "1"))) in
  files st1 !! Fake.stateFile = Some "3"
  /\ fst (searchLog os Fake.opts0 "Application" st1)
     = Returns (0, 0, EmptyString, None)
  /\ reads (snd (searchLog os Fake.opts0 "Application" st1)) = reads st1.
Proof.
  cbv zeta.
  apply (second_scan_reads_nothing (Fake.log 1 (Fake.three 1) None)
           Fake.opts0 "Application" (Fake.st0 (Some "1")) 1 1).
  - reflexivity.
  - vm_compute. reflexivity.
  - reflexivity.
  - reflexivity.
  - vm_compute. reflexivity.
  - apply fake_reads_succeed; vm_compute; discriminate.
  - apply fake_three_numbered.
  - reflexivity.
  - reflexivity.
  - reflexivity.
  - reflexivity.
Defined.
